(** * Mandelbrot escape-time engine: a shallow embedding and its properties

    The development follows the two Python programs of the repository,
    [Mandelbrot_interactive.py] and [Mandelbrot_animation.py].

    Modelling conventions.
    - A Python [int] is a [Z]; a loop index or an array index is a [nat].
    - A Python [float] is modelled twice.  The modules [Kernel],
      [Interactive] and [Animation] compute with exact rationals [Q]; they
      carry the properties that rounding cannot change: the order of the
      loop, the layout of the grid, the frame cache, the exceptions of a
      zoom of 0.  The modules [Binary64], [Kernel64], [Interactive64] and
      [Animation64] embed the same source lines over IEEE 754 binary64
      ([SpecFloat] of the Standard Library); they carry the properties
      that depend on rounding, on the range of a float or on the
      exceptions of a conversion.
    - Over [Q], equality of floats is [Qeq] ([==]) wherever two different
      expressions are compared, and Leibniz equality where the same
      computation is run twice.
    - A Python [complex] is a pair of floats with the formulas of [+] and
      [*].
    - A Python exception is a value [Raise e] of the type [result]; code
      that also mutates globals or a local array runs in the state and
      exception monad [Py].
    - The power operator on floats and [np.log2] are library functions;
      they are section variables, and so is [np.linspace] over binary64.
    - Over [Q], [np.linspace] follows NumPy's documentation, as
      [np.array_split] does.
    - The process pool is the in-order map over the bands that
      [executor.map] returns; drawing, printing and the creation of the
      frame folder are left out. *)

From Stdlib Require Import ZArith QArith Qround Qpower Lia Lqa List.
From Stdlib Require SpecFloat.
From stdpp Require Import base option list gmap strings pretty.

Local Open Scope Z_scope.

(** ** Exceptions and the state/exception monad *)

Inductive exn : Type :=
  | ZeroDivisionError
  | IndexError
  | ValueError
  | OverflowError
  | TypeError.

Inductive result (A : Type) : Type :=
  | Ok (a : A)
  | Raise (e : exn).
Arguments Ok {A} a.
Arguments Raise {A} e.

#[global] Instance result_ret : MRet result := @Ok.
#[global] Instance result_bind : MBind result := λ A B f r,
  match r with
  | Ok a => f a
  | Raise e => Raise e
  end.

(** A computation over a mutable store [S]: the store survives an
    exception, as Python globals do. *)
Definition Py (S A : Type) : Type := S → S * result A.

#[global] Instance Py_ret {S} : MRet (Py S) := λ A a s, (s, Ok a).
#[global] Instance Py_bind {S} : MBind (Py S) := λ A B f m s,
  match m s with
  | (s', Ok a) => f a s'
  | (s', Raise e) => (s', Raise e)
  end.

Definition get {S} : Py S S := λ s, (s, Ok s).
Definition put {S} (s : S) : Py S unit := λ _, (s, Ok tt).
Definition modify {S} (f : S → S) : Py S unit := λ s, (f s, Ok tt).
Definition lift {S A} (r : result A) : Py S A := λ s, (s, r).

(** [for x in xs: body x] *)
Fixpoint for_ {S A} (xs : list A) (body : A → Py S unit) : Py S unit :=
  match xs with
  | [] => mret tt
  | x :: xs' => body x ≫= λ _, for_ xs' body
  end.

(** ** Numbers *)

(** [a > b] on floats. *)
Definition Qgt_bool (a b : Q) : bool := negb (Qle_bool a b).

(** [int(x)] of a float: truncation toward zero. *)
Definition int_of_float (x : Q) : Z := Z.quot (Qnum x) (Z.pos (Qden x)).

(** [a / b] in Python raises on a zero divisor. *)
Definition truediv (a b : Q) : result Q :=
  if Qeq_bool b 0 then Raise ZeroDivisionError else Ok (a / b)%Q.

(** [range(n)] for an [int] [n]: empty when [n <= 0]. *)
Definition range (n : Z) : list Z := Z.of_nat <$> seq 0 (Z.to_nat n).

Record complex : Type := Complex { real : Q; imag : Q }.

Definition Cadd (a b : complex) : complex :=
  Complex (real a + real b) (imag a + imag b).

Definition Cmul (a b : complex) : complex :=
  Complex (real a * real b - imag a * imag b)
          (real a * imag b + imag a * real b).

(** A float or an int met in complex arithmetic is promoted with
    imaginary part 0; [Cj] is the literal [1j]. *)
Definition of_real (x : Q) : complex := Complex x 0.
Definition Cj : complex := Complex 0 1.

(** [c.conjugate()] *)
Definition Cconj (a : complex) : complex := Complex (real a) (- imag a).

(** Component-wise equality of complex numbers up to [Qeq]. *)
Definition Ceq (a b : complex) : Prop :=
  (real a == real b)%Q ∧ (imag a == imag b)%Q.

(** ** The escape-time kernel (identical in both source files) *)

Module Kernel.

(** [z.real*z.real + z.imag*z.imag > 4] *)
Definition diverges (z : complex) : bool :=
  Qgt_bool (real z * real z + imag z * imag z) 4.

(** The body of [for n in range(threshold)], on the remaining values of
    [n]; falling off the loop returns 0. *)
Fixpoint mandel_for (c z : complex) (ns : list Z) : Z :=
  match ns with
  | [] => 0
  | n :: ns' =>
      if diverges z then n
      else mandel_for c (Cadd (Cmul z z) c) ns'
  end.

Definition mandel (c : complex) (threshold : Z) : Z :=
  let z := Cadd (of_real 0) (Cmul Cj (of_real 0)) in
  mandel_for c z (range threshold).

(** *** The kernel as the specification words it

    [orbit c n] is the n-th iterate of [z ← z² + c] from 0, with the
    mathematical square and squared magnitude; [escape] returns the first
    index below the cap at which the squared magnitude exceeds 4, and 0
    when there is none. *)
Definition Csqr (z : complex) : complex :=
  Complex (real z ^ 2 - imag z ^ 2) (2 * real z * imag z).

Definition norm2 (z : complex) : Q := (real z ^ 2 + imag z ^ 2)%Q.

Fixpoint orbit (c : complex) (n : nat) : complex :=
  match n with
  | O => Complex 0 0
  | S k => Cadd (Csqr (orbit c k)) c
  end.

Definition exceeds (c : complex) (n : nat) : bool :=
  Qgt_bool (norm2 (orbit c n)) 4.

Definition escape (c : complex) (threshold : Z) : Z :=
  match find (exceeds c) (seq 0 (Z.to_nat threshold)) with
  | Some n => Z.of_nat n
  | None => 0
  end.

(** *** The tile evaluator, [mandelbrot_for_parallel] *)

(** [a[i]] and [a[i] = v] on a Python list or NumPy array. *)
Definition getitem {A} (a : list A) (i : nat) : result A :=
  match a !! i with
  | Some v => Ok v
  | None => Raise IndexError
  end.

Definition setitem {A} (a : list A) (i : nat) (v : A) : result (list A) :=
  if decide (i < length a)%nat then Ok (<[i:=v]> a) else Raise IndexError.

(** [np.linspace(start, stop, num)] as NumPy documents it: [num] evenly
    spaced samples over the closed interval, the last one set to [stop]. *)
Definition linspace (start stop : Q) (num : nat) : list Q :=
  let div := (num - 1)%nat in
  let delta := (stop - start)%Q in
  let sample (j : nat) : Q :=
    if decide (0 < div)%nat
    then (inject_Z (Z.of_nat j) * (delta / inject_Z (Z.of_nat div)) + start)%Q
    else (inject_Z (Z.of_nat j) * delta + start)%Q in
  let y := sample <$> seq 0 num in
  if decide (1 < num)%nat then <[(num - 1)%nat := stop]> y else y.

(** The local variables of [mandelbrot_for_parallel] that the loop
    assigns. *)
Record locals : Type := Locals { point_vals : list Q; k : nat }.

(** The body of the inner loop: lines 64-65. *)
Definition store_point (re im : list Q) (threshold : Z) (y x : nat)
    : Py locals unit :=
  re_x ← lift (getitem re x);
  im_y ← lift (getitem im y);
  let v := mandel (Cadd (of_real re_x) (Cmul Cj (of_real im_y))) threshold in
  s ← get;
  pv ← lift (setitem (point_vals s) (k s) (inject_Z v));
  put (Locals pv (k s + 1)%nat).

Definition mandelbrot_for_parallel (resolution : nat)
    (xmin xmax ymin ymax : Q) (threshold : Z) (yrange : list nat)
    : result (list Q) :=
  let re := linspace xmin xmax resolution in
  let im := linspace ymin ymax resolution in
  let k_len := (resolution * length yrange)%nat in
  let loop : Py locals unit :=
    for_ yrange (λ y,
      for_ (seq 0 resolution) (λ x, store_point re im threshold y x)) in
  match loop (Locals (replicate k_len 0%Q) 0%nat) with
  | (s, Ok _) => Ok (point_vals s)
  | (_, Raise e) => Raise e
  end.

(** The escape count of the pixel in column [x] of row [y], as a float. *)
Definition pixel (resolution : nat) (xmin xmax ymin ymax : Q)
    (threshold : Z) (y x : nat) : Q :=
  let re_x := default 0%Q (linspace xmin xmax resolution !! x) in
  let im_y := default 0%Q (linspace ymin ymax resolution !! y) in
  inject_Z (mandel (Cadd (of_real re_x) (Cmul Cj (of_real im_y))) threshold).

(** The field in row-major order: row [y] holds the escape counts of the
    pixels of row [y] by ascending column. *)
Definition grid (resolution : nat) (xmin xmax ymin ymax : Q)
    (threshold : Z) : list (list Q) :=
  (λ y, pixel resolution xmin xmax ymin ymax threshold y
          <$> seq 0 resolution) <$> seq 0 resolution.

(** *** The parallel grid evaluator

    The block [executor.map(mandelbrot_for_parallel, ..., yranges)],
    the concatenation loop and [np.reshape], which the source repeats in
    [onclick], in [animate] and in the interactive main program.
    [executor.map] hands the results back in the order of [yranges]; the
    first band that raises ends the evaluation. *)

Fixpoint rows_of (a : list Q) (rows cols : nat) : list (list Q) :=
  match rows with
  | O => []
  | S r => take cols a :: rows_of (drop cols a) r cols
  end.

(** [np.reshape(a, [rows, cols])] *)
Definition reshape (a : list Q) (rows cols : nat) : result (list (list Q)) :=
  if decide (length a = rows * cols)%nat
  then Ok (rows_of a rows cols)
  else Raise ValueError.

(** The bands' outputs, concatenated as the [for parray in parrays]
    loop does. *)
Definition collect (resolution : nat) (xmin xmax ymin ymax : Q)
    (threshold : Z) (yranges : list (list nat)) : result (list Q) :=
  parrays ← mapM (mandelbrot_for_parallel resolution xmin xmax ymin ymax
                    threshold) yranges;
  mret (foldl (λ complete_parray parray, complete_parray ++ parray)
              [] parrays).

Definition evaluate_grid (resolution : nat) (xmin xmax ymin ymax : Q)
    (threshold : Z) (yranges : list (list nat)) : result (list (list Q)) :=
  complete_parray ← collect resolution xmin xmax ymin ymax threshold yranges;
  reshape complete_parray resolution resolution.

(** [np.array_split(ary, n)] as NumPy documents it: [len(ary) mod n] bands
    of size [len(ary) / n + 1] followed by bands of size [len(ary) / n]. *)
Fixpoint split_sizes {A} (sizes : list nat) (ary : list A) : list (list A) :=
  match sizes with
  | [] => []
  | n :: sizes' => take n ary :: split_sizes sizes' (drop n ary)
  end.

Definition array_split {A} (ary : list A) (n : Z) : result (list (list A)) :=
  if decide (n ≤ 0) then Raise ValueError
  else
    let sections := Z.to_nat n in
    let each := (length ary / sections)%nat in
    let extras := (length ary mod sections)%nat in
    Ok (split_sizes (replicate extras (each + 1)%nat
                     ++ replicate (sections - extras)%nat each) ary).

(** [int(1.5*os.cpu_count())] *)
Definition num_processes (cpu_count : Z) : Z :=
  int_of_float (1.5 * inject_Z cpu_count).

End Kernel.

(** ** [Mandelbrot_interactive.py] *)

Module Interactive.

(** The globals that the main program sets once. *)
Record config : Type := Config {
  resolution : nat;
  add_thresh : Z;
  yranges : list (list nat)
}.

(** The globals that [onclick] declares [global] and assigns. *)
Record globals : Type := Globals {
  zoom : Z;
  xmax : Q;
  xmin : Q;
  ymax : Q;
  ymin : Q;
  threshold : Z
}.

Definition set_zoom (v : Z) (g : globals) : globals :=
  Globals v (xmax g) (xmin g) (ymax g) (ymin g) (threshold g).
Definition set_xmax (v : Q) (g : globals) : globals :=
  Globals (zoom g) v (xmin g) (ymax g) (ymin g) (threshold g).
Definition set_xmin (v : Q) (g : globals) : globals :=
  Globals (zoom g) (xmax g) v (ymax g) (ymin g) (threshold g).
Definition set_ymax (v : Q) (g : globals) : globals :=
  Globals (zoom g) (xmax g) (xmin g) v (ymin g) (threshold g).
Definition set_ymin (v : Q) (g : globals) : globals :=
  Globals (zoom g) (xmax g) (xmin g) (ymax g) v (threshold g).
Definition set_threshold (v : Z) (g : globals) : globals :=
  Globals (zoom g) (xmax g) (xmin g) (ymax g) (ymin g) v.

(** A click inside the axes: the button number and the data
    coordinates of the pointer. *)
Record MouseEvent : Type := Event { button : Z; xdata : Q; ydata : Q }.

(** Lines 79-85: the new zoom and threshold. *)
Definition onclick_zoom (cfg : config) (event : MouseEvent) : Py globals unit :=
  if decide (button event = 1) then
    modify (λ g, set_zoom (zoom g * 2) g);;
    modify (λ g, set_threshold (threshold g + add_thresh cfg) g)
  else if decide (button event = 3) then
    g ← get;
    half ← lift (truediv (inject_Z (zoom g)) 2);
    put (set_zoom (int_of_float half) g);;
    g ← get;
    if decide (threshold g > add_thresh cfg)
    then put (set_threshold (threshold g - add_thresh cfg) g)
    else mret tt
  else mret tt.

(** Lines 88-98: the clicked point and the new bounds around it. *)
Definition onclick_bounds (cfg : config) (event : MouseEvent) : Py globals unit :=
  g ← get;
  dx ← lift (truediv ((xmax g - xmin g) * xdata event)
                     (inject_Z (Z.of_nat (resolution cfg))));
  let posx := (xmin g + dx)%Q in
  dy ← lift (truediv ((ymax g - ymin g) * ydata event)
                     (inject_Z (Z.of_nat (resolution cfg))));
  let posy := (ymin g + dy)%Q in
  h ← lift (truediv 1.5 (inject_Z (zoom g)));
  modify (set_xmin (posx - h));;
  h ← lift (truediv 1.5 (inject_Z (zoom g)));
  modify (set_xmax (posx + h));;
  h ← lift (truediv 1.5 (inject_Z (zoom g)));
  modify (set_ymin (posy - h));;
  h ← lift (truediv 1.5 (inject_Z (zoom g)));
  modify (set_ymax (posy + h)).

(** [onclick] returns the array it hands to [plt.imshow]. *)
Definition onclick (cfg : config) (event : MouseEvent)
    : Py globals (list (list Q)) :=
  onclick_zoom cfg event;;
  onclick_bounds cfg event;;
  g ← get;
  lift (Kernel.evaluate_grid (resolution cfg) (xmin g) (xmax g) (ymin g)
          (ymax g) (threshold g) (yranges cfg)).

(** The button presses that the figure delivers to [onclick], in order.
    The figure reports an exception of the handler and goes on with the
    next event, the globals being as the handler left them. *)
Fixpoint clicks (cfg : config) (events : list MouseEvent) (g : globals)
    : globals * list (result (list (list Q))) :=
  match events with
  | [] => (g, [])
  | event :: events' =>
      let '(g1, r) := onclick cfg event g in
      let '(g2, rs) := clicks cfg events' g1 in
      (g2, r :: rs)
  end.

(** The settings of the main program. *)
Definition main_config (cpu_count : Z) : result config :=
  yr ← Kernel.array_split (seq 0 2800) (Kernel.num_processes cpu_count);
  mret (Config 2800 50 yr).

(** A small configuration to run the model on: a 2 x 2 grid in two bands
    and a viewport away from the set. *)
Definition small_config : config :=
  {| resolution := 2; add_thresh := 50; yranges := [[0]; [1]]%nat |}.
Definition small_globals : globals :=
  {| zoom := 1; xmin := 8; xmax := 11; ymin := -1.5; ymax := 1.5;
     threshold := 70 |}.

Definition main_globals : globals :=
  {| zoom := 1; xmin := -2; xmax := 1; ymin := -1.5; ymax := 1.5;
     threshold := 70 |}.

(** The first plot of the main program. *)
Definition main (cpu_count : Z) : result (config * globals * list (list Q)) :=
  cfg ← main_config cpu_count;
  let g := main_globals in
  complete_parray ← Kernel.evaluate_grid (resolution cfg) (xmin g) (xmax g)
                      (ymin g) (ymax g) (threshold g) (yranges cfg);
  mret (cfg, g, complete_parray).

End Interactive.

(** ** [Mandelbrot_animation.py] *)

Module Animation.

(** The globals that [animate] reads. *)
Record globals : Type := Globals {
  resolution : nat;
  threshold : Z;
  delta : Q;
  xmin : Q;
  xmax : Q;
  ymin : Q;
  ymax : Q;
  yranges : list (list nat)
}.

(** The viewport of one frame. *)
Record view : Type := View {
  new_xmin : Q;
  new_xmax : Q;
  new_ymin : Q;
  new_ymax : Q;
  new_threshold : Z
}.

(** The values that the main program lets the user adjust. *)
Record settings : Type := Settings {
  zoom : Q;
  p_re : Q;
  p_im : Q;
  s_resolution : nat;
  s_threshold : Z;
  s_delta : Q;
  cpu_count : Z
}.

(** What the main program changes outside itself: the files of the
    folder [AnimatedFrames] with the array each was drawn from, and the
    list [frames]; [animated] logs the calls of [animate]. *)
Record world : Type := World {
  files : gmap string (list (list Q));
  frames : list (option string);
  animated : list Z
}.

Definition set_frames (v : list (option string)) (w : world) : world :=
  World (files w) v (animated w).
Definition savefig (file_name : string) (img : list (list Q)) (w : world)
    : world :=
  World (<[file_name := img]> (files w)) (frames w) (animated w).
Definition log_animate (i : Z) (w : world) : world :=
  World (files w) (frames w) (animated w ++ [i]).

(** [f"AnimatedFrames/frame{i}.png"] *)
Definition frame_file (i : Z) : string :=
  "AnimatedFrames/frame" +:+ pretty i +:+ ".png".

Section WithMath.

(** [pow b x] is the float power [b**x] and [log2] is [np.log2]. *)
Variable pow : Q → Q → Q.
Variable log2 : Q → Q.

(** Lines 87-92 of [animate]. *)
Definition animate_view (g : globals) (i : Z) : result view :=
  r ← truediv 1 (pow 2%Q (delta g * inject_Z i));
  let new_xmin := (xmin g + 0.5 * (xmax g - xmin g) * (1 - r))%Q in
  r ← truediv 1 (pow 2%Q (delta g * inject_Z i));
  let new_xmax := (xmax g - 0.5 * (xmax g - xmin g) * (1 - r))%Q in
  r ← truediv 1 (pow 2%Q (delta g * inject_Z i));
  let new_ymin := (ymin g + 0.5 * (ymax g - ymin g) * (1 - r))%Q in
  r ← truediv 1 (pow 2%Q (delta g * inject_Z i));
  let new_ymax := (ymax g - 0.5 * (ymax g - ymin g) * (1 - r))%Q in
  let new_threshold :=
    threshold g + int_of_float (delta g * inject_Z i * 50) in
  mret (View new_xmin new_xmax new_ymin new_ymax new_threshold).

(** [animate] returns the array it hands to [ax.imshow]. *)
Definition animate (g : globals) (i : Z) : result (list (list Q)) :=
  v ← animate_view g i;
  Kernel.evaluate_grid (resolution g) (new_xmin v) (new_xmax v)
    (new_ymin v) (new_ymax v) (new_threshold v) (yranges g).

(** The array of frame [i], empty where [animate] raises. *)
Definition frame_img (g : globals) (i : Z) : list (list Q) :=
  match animate g i with
  | Ok img => img
  | Raise _ => []
  end.

(** The artifacts of the frames [l]: each file name with the array of
    its frame. *)
Definition new_files (g : globals) (l : list Z)
    : gmap string (list (list Q)) :=
  list_to_map ((λ i, (frame_file i, frame_img g i)) <$> l).

(** [int(np.log2(zoom)/delta)]: a zero [delta] makes the NumPy quotient
    infinite or NaN, which [int] refuses. *)
Definition num_frames (zoom delta : Q) : result Z :=
  if Qeq_bool delta 0 then
    if Qeq_bool (log2 zoom) 0 then Raise ValueError else Raise OverflowError
  else Ok (int_of_float (log2 zoom / delta)).

(** The body of [for i in range(num_frames)]. *)
Definition render_frame (g : globals) (i : Z) : Py world unit :=
  let file_name := frame_file i in
  w ← get;
  (if decide (files w !! file_name = None) then
     modify (log_animate i);;
     img ← lift (animate g i);
     modify (savefig file_name img)
   else mret tt);;
  w ← get;
  fr ← lift (Kernel.setitem (frames w) (Z.to_nat i) (Some file_name));
  put (set_frames fr w).

(** Lines 160-169. *)
Definition render_frames (g : globals) (num_frames : Z) : Py world unit :=
  modify (set_frames (replicate (Z.to_nat num_frames) None));;
  for_ (range num_frames) (render_frame g).

(** The main program; it returns the list it hands to
    [APNG.from_files]. *)
Definition main (s : settings) : Py world (list (option string)) :=
  yr ← lift (Kernel.array_split (seq 0 (s_resolution s))
               (Kernel.num_processes (cpu_count s)));
  n ← lift (num_frames (zoom s) (s_delta s));
  let g := Globals (s_resolution s) (s_threshold s) (s_delta s)
             (p_re s - 1.5) (p_re s + 1.5) (p_im s - 1.5) (p_im s + 1.5) yr in
  render_frames g n;;
  w ← get;
  mret (frames w).

End WithMath.

(** A power and a logarithm to run the model with: exact at an integer
    exponent and at a power of two. *)
Definition pow_int (b x : Q) : Q := (b ^ int_of_float x)%Q.
Definition log2_int (x : Q) : Q := inject_Z (Z.log2 (Qfloor x)).

(** A small configuration to run the model on: a 2 x 2 grid in two bands,
    away from the set, and a folder that holds frame 1 already. *)
Definition small_globals : globals :=
  {| resolution := 2; threshold := 70; delta := 0.5;
     xmin := 8.5; xmax := 11.5; ymin := -1.5; ymax := 1.5;
     yranges := [[0]; [1]]%nat |}.
Definition small_world : world :=
  {| files := {[ frame_file 1 := [] ]}; frames := []; animated := [] |}.

(** The starting bounds and delta of the specification's determinism
    test. *)
Definition test_globals : globals :=
  {| resolution := 2; threshold := 70; delta := 0.5;
     xmin := -2; xmax := 1; ymin := -1.5; ymax := 1.5;
     yranges := [[0]; [1]]%nat |}.

(** Further small configurations: a folder that holds both frames of a
    two-frame animation, globals whose bands miss a row of the grid, and
    settings for the main program. *)
Definition full_world : world :=
  {| files := <[ frame_file 0 := [] ]> {[ frame_file 1 := [] ]};
     frames := []; animated := [] |}.
Definition broken_globals : globals :=
  {| resolution := 2; threshold := 70; delta := 0.5;
     xmin := 8.5; xmax := 11.5; ymin := -1.5; ymax := 1.5;
     yranges := [[0]]%nat |}.
Definition small_settings : settings :=
  {| zoom := 4; p_re := 10; p_im := 0; s_resolution := 2;
     s_threshold := 70; s_delta := 0.5; cpu_count := 2 |}.

End Animation.

(** ** The same code over binary64

    The definitions above compute with exact rationals, which is enough
    for the properties that no rounding can change.  Where the source's
    behaviour depends on rounding or on the range of a float, the same
    source lines are embedded once more over IEEE 754 binary64, the
    format of a Python [float] and of a NumPy [float64], with the
    operations of the Standard Library's [SpecFloat] (precision 53,
    exponent bound 1024, round to nearest even, signed zeros, infinities
    and NaN). *)

Module Binary64.
Import SpecFloat.

Definition float : Type := spec_float.

Definition prec : Z := 53.
Definition emax : Z := 1024.

(** [a + b], [a - b], [a * b] on floats never raise. *)
Definition fadd : float → float → float := SFadd prec emax.
Definition fsub : float → float → float := SFsub prec emax.
Definition fmul : float → float → float := SFmul prec emax.

(** [a / b] on NumPy floats: a zero divisor gives an infinity or NaN. *)
Definition fdiv : float → float → float := SFdiv prec emax.

(** [a / b] on Python floats raises on a zero divisor. *)
Definition ftruediv (a b : float) : result float :=
  match b with
  | S754_zero _ => Raise ZeroDivisionError
  | _ => Ok (fdiv a b)
  end.

(** [a > b] *)
Definition fgt (a b : float) : bool := SFltb b a.

(** The float nearest to the integer [z], an infinity when [z] is beyond
    the largest float. *)
Definition round_int (z : Z) : float := binary_normalize prec emax z 0 false.

(** The float nearest to the quotient [a/b] of two integers, [b] not 0. *)
Definition round_quot (a b : Z) : float :=
  match a, b with
  | Z0, _ => S754_zero (b <? 0)
  | _, Z0 => S754_nan
  | _, _ =>
      fdiv (S754_finite (a <? 0) (Z.to_pos (Z.abs a)) 0)
           (S754_finite (b <? 0) (Z.to_pos (Z.abs b)) 0)
  end.

(** An [int] operand of float arithmetic, as [zoom] in [1.5/zoom], is
    converted to the nearest float; Python raises when there is none. *)
Definition of_int (z : Z) : result float :=
  match round_int z with
  | S754_infinity _ => Raise OverflowError
  | x => Ok x
  end.

(** [a / b] on two ints is the float nearest to the quotient. *)
Definition int_truediv (a b : Z) : result float :=
  if decide (b = 0) then Raise ZeroDivisionError
  else match round_quot a b with
       | S754_infinity _ => Raise OverflowError
       | x => Ok x
       end.

(** The rational that a finite float denotes; 0 for an infinity and for
    NaN. *)
Definition to_Q (x : float) : Q :=
  match x with
  | S754_finite s m e =>
      let n := if s then Z.neg m else Z.pos m in
      if decide (0 ≤ e) then inject_Z (n * 2 ^ e)
      else n # Z.to_pos (2 ^ (- e))
  | _ => 0%Q
  end.

(** [int(x)] truncates toward zero and refuses an infinity and NaN. *)
Definition to_int (x : float) : result Z :=
  match x with
  | S754_nan => Raise ValueError
  | S754_infinity _ => Raise OverflowError
  | _ => Ok (int_of_float (to_Q x))
  end.

(** A float other than an infinity and NaN; a float other than 0.0 and
    -0.0. *)
Definition finite (x : float) : bool :=
  match x with
  | S754_zero _ | S754_finite _ _ _ => true
  | _ => false
  end.

Definition nonzero (x : float) : bool :=
  match x with
  | S754_zero _ => false
  | _ => true
  end.

(** The float literals of the source. *)
Definition f0 : float := S754_zero false.
Definition f1 : float := round_int 1.
Definition f2 : float := round_int 2.
Definition f4 : float := round_int 4.
Definition f50 : float := round_int 50.
Definition f0_5 : float := round_quot 1 2.
Definition f1_5 : float := round_quot 3 2.

Record complex : Type := Complex { real : float; imag : float }.

Definition Cadd (a b : complex) : complex :=
  Complex (fadd (real a) (real b)) (fadd (imag a) (imag b)).

Definition Cmul (a b : complex) : complex :=
  Complex (fsub (fmul (real a) (real b)) (fmul (imag a) (imag b)))
          (fadd (fmul (real a) (imag b)) (fmul (imag a) (real b))).

Definition of_real (x : float) : complex := Complex x f0.
Definition Cj : complex := Complex f0 f1.

(** A [np.linspace] to run the model with: [start + j*step], the last
    sample set to [stop]. *)
Definition linspace_step (start stop : float) (num : nat) : list float :=
  let div := (num - 1)%nat in
  let step := fdiv (fsub stop start) (round_int (Z.of_nat div)) in
  let y := (λ j : nat, fadd start (fmul (round_int (Z.of_nat j)) step))
             <$> seq 0 num in
  if decide (1 < num)%nat then <[(num - 1)%nat := stop]> y else y.

(** A power to run the model with: [b**x] for the integer part of [x],
    by repeated multiplication. *)
Definition pow_int (b x : float) : result float :=
  n ← to_int x;
  let p := Z.iter (Z.abs n) (fmul b) f1 in
  match (if decide (0 ≤ n) then p else fdiv f1 p) with
  | S754_infinity _ => Raise OverflowError
  | r => Ok r
  end.

(** A logarithm to run the model with: exact at a power of two. *)
Definition log2_int (z : Z) : float := round_int (Z.log2 z).

End Binary64.

(** *** The kernel and the grid evaluator *)

Module Kernel64.
Import Binary64.

(** [z.real*z.real + z.imag*z.imag > 4] *)
Definition diverges (z : complex) : bool :=
  fgt (fadd (fmul (real z) (real z)) (fmul (imag z) (imag z))) f4.

Fixpoint mandel_for (c z : complex) (ns : list Z) : Z :=
  match ns with
  | [] => 0
  | n :: ns' =>
      if diverges z then n
      else mandel_for c (Cadd (Cmul z z) c) ns'
  end.

Definition mandel (c : complex) (threshold : Z) : Z :=
  let z := Cadd (of_real f0) (Cmul Cj (of_real f0)) in
  mandel_for c z (range threshold).

Record locals : Type := Locals { point_vals : list float; k : nat }.

(** Lines 64-65; the count is stored in a float array.  The compiled
    loop does not check its indices: a row outside the grid is outside
    every property below. *)
Definition store_point (re im : list float) (threshold : Z) (y x : nat)
    : Py locals unit :=
  re_x ← lift (Kernel.getitem re x);
  im_y ← lift (Kernel.getitem im y);
  let v := mandel (Cadd (of_real re_x) (Cmul Cj (of_real im_y))) threshold in
  s ← get;
  pv ← lift (Kernel.setitem (point_vals s) (k s) (round_int v));
  put (Locals pv (k s + 1)%nat).

Fixpoint rows_of (a : list float) (rows cols : nat) : list (list float) :=
  match rows with
  | O => []
  | S r => take cols a :: rows_of (drop cols a) r cols
  end.

(** [np.reshape(a, [rows, cols])] *)
Definition reshape (a : list float) (rows cols : nat)
    : result (list (list float)) :=
  if decide (length a = rows * cols)%nat
  then Ok (rows_of a rows cols)
  else Raise ValueError.

Section WithLinspace.

(** [np.linspace] is a library function whose rounding the source does
    not fix; it is a parameter, of which the properties assume only that
    it returns [num] samples. *)
Variable linspace : float → float → nat → list float.

Definition mandelbrot_for_parallel (resolution : nat)
    (xmin xmax ymin ymax : float) (threshold : Z) (yrange : list nat)
    : result (list float) :=
  let re := linspace xmin xmax resolution in
  let im := linspace ymin ymax resolution in
  let k_len := (resolution * length yrange)%nat in
  let loop : Py locals unit :=
    for_ yrange (λ y,
      for_ (seq 0 resolution) (λ x, store_point re im threshold y x)) in
  match loop (Locals (replicate k_len f0) 0%nat) with
  | (s, Ok _) => Ok (point_vals s)
  | (_, Raise e) => Raise e
  end.

(** The escape count of the pixel in column [x] of row [y], as a float. *)
Definition pixel (resolution : nat) (xmin xmax ymin ymax : float)
    (threshold : Z) (y x : nat) : float :=
  let re_x := default f0 (linspace xmin xmax resolution !! x) in
  let im_y := default f0 (linspace ymin ymax resolution !! y) in
  round_int (mandel (Cadd (of_real re_x) (Cmul Cj (of_real im_y))) threshold).

Definition grid (resolution : nat) (xmin xmax ymin ymax : float)
    (threshold : Z) : list (list float) :=
  (λ y, pixel resolution xmin xmax ymin ymax threshold y
          <$> seq 0 resolution) <$> seq 0 resolution.

Definition collect (resolution : nat) (xmin xmax ymin ymax : float)
    (threshold : Z) (yranges : list (list nat)) : result (list float) :=
  parrays ← mapM (mandelbrot_for_parallel resolution xmin xmax ymin ymax
                    threshold) yranges;
  mret (foldl (λ complete_parray parray, complete_parray ++ parray)
              [] parrays).

Definition evaluate_grid (resolution : nat) (xmin xmax ymin ymax : float)
    (threshold : Z) (yranges : list (list nat))
    : result (list (list float)) :=
  complete_parray ← collect resolution xmin xmax ymin ymax threshold yranges;
  reshape complete_parray resolution resolution.

End WithLinspace.

End Kernel64.

(** *** [onclick] *)

Module Interactive64.
Import Binary64.
Export Interactive(config, Config, resolution, add_thresh, yranges).

(** The bounds of the first plot are the ints -2 and 1 and the floats
    -1.5 and 1.5; an int bound enters float arithmetic at the first
    click, where it is converted without error, so all four are floats
    here. *)
Record globals : Type := Globals {
  zoom : Z;
  xmax : float;
  xmin : float;
  ymax : float;
  ymin : float;
  threshold : Z
}.

Definition set_zoom (v : Z) (g : globals) : globals :=
  Globals v (xmax g) (xmin g) (ymax g) (ymin g) (threshold g).
Definition set_xmax (v : float) (g : globals) : globals :=
  Globals (zoom g) v (xmin g) (ymax g) (ymin g) (threshold g).
Definition set_xmin (v : float) (g : globals) : globals :=
  Globals (zoom g) (xmax g) v (ymax g) (ymin g) (threshold g).
Definition set_ymax (v : float) (g : globals) : globals :=
  Globals (zoom g) (xmax g) (xmin g) v (ymin g) (threshold g).
Definition set_ymin (v : float) (g : globals) : globals :=
  Globals (zoom g) (xmax g) (xmin g) (ymax g) v (threshold g).
Definition set_threshold (v : Z) (g : globals) : globals :=
  Globals (zoom g) (xmax g) (xmin g) (ymax g) (ymin g) v.

(** A button press: the button number and the data coordinates of the
    pointer, which are [None] when the pointer is outside the axes. *)
Record MouseEvent : Type :=
  Event { button : Z; xdata : option float; ydata : option float }.

(** A coordinate as an operand of [*]: [None] raises TypeError. *)
Definition coordinate (v : option float) : result float :=
  match v with
  | Some x => Ok x
  | None => Raise TypeError
  end.

(** [1.5/zoom] *)
Definition half_extent (zoom : Z) : result float :=
  z ← of_int zoom; ftruediv f1_5 z.

(** Lines 79-85. *)
Definition onclick_zoom (cfg : config) (event : MouseEvent)
    : Py globals unit :=
  if decide (button event = 1) then
    modify (λ g, set_zoom (zoom g * 2) g);;
    modify (λ g, set_threshold (threshold g + add_thresh cfg) g)
  else if decide (button event = 3) then
    g ← get;
    half ← lift (int_truediv (zoom g) 2);
    z ← lift (to_int half);
    put (set_zoom z g);;
    g ← get;
    if decide (threshold g > add_thresh cfg)
    then put (set_threshold (threshold g - add_thresh cfg) g)
    else mret tt
  else mret tt.

(** Lines 88-98. *)
Definition onclick_bounds (cfg : config) (event : MouseEvent)
    : Py globals unit :=
  g ← get;
  x ← lift (coordinate (xdata event));
  r ← lift (of_int (Z.of_nat (resolution cfg)));
  dx ← lift (ftruediv (fmul (fsub (xmax g) (xmin g)) x) r);
  let posx := fadd (xmin g) dx in
  y ← lift (coordinate (ydata event));
  r ← lift (of_int (Z.of_nat (resolution cfg)));
  dy ← lift (ftruediv (fmul (fsub (ymax g) (ymin g)) y) r);
  let posy := fadd (ymin g) dy in
  h ← lift (half_extent (zoom g));
  modify (set_xmin (fsub posx h));;
  h ← lift (half_extent (zoom g));
  modify (set_xmax (fadd posx h));;
  h ← lift (half_extent (zoom g));
  modify (set_ymin (fsub posy h));;
  h ← lift (half_extent (zoom g));
  modify (set_ymax (fadd posy h)).

Section WithLinspace.
Variable linspace : float → float → nat → list float.

Definition onclick (cfg : config) (event : MouseEvent)
    : Py globals (list (list float)) :=
  onclick_zoom cfg event;;
  onclick_bounds cfg event;;
  g ← get;
  lift (Kernel64.evaluate_grid linspace (resolution cfg) (xmin g) (xmax g)
          (ymin g) (ymax g) (threshold g) (yranges cfg)).

Fixpoint clicks (cfg : config) (events : list MouseEvent) (g : globals)
    : globals * list (result (list (list float))) :=
  match events with
  | [] => (g, [])
  | event :: events' =>
      let '(g1, r) := onclick cfg event g in
      let '(g2, rs) := clicks cfg events' g1 in
      (g2, r :: rs)
  end.

End WithLinspace.

(** The state of the first plot, and a small configuration and a
    viewport away from the set to run the model on. *)
Definition main_globals : globals :=
  {| zoom := 1; xmin := round_int (-2); xmax := round_int 1;
     ymin := round_quot (-3) 2; ymax := round_quot 3 2; threshold := 70 |}.
Definition small_config : config :=
  {| resolution := 2; add_thresh := 50; yranges := [[0]; [1]]%nat |}.
Definition small_globals : globals :=
  {| zoom := 1; xmin := round_int 8; xmax := round_int 11;
     ymin := round_quot (-3) 2; ymax := round_quot 3 2; threshold := 70 |}.

(** Checks over the 1024 binary orders of magnitude of a float, each
    decided by computation: [int(2**(k+1)/2)] is [2**k], and [1.5/2**k] is
    exactly 3/2**(k+1). *)
Definition halves_back (k : nat) : bool :=
  match int_truediv (2 ^ Z.of_nat (S k)) 2 ≫= to_int with
  | Ok z => z =? 2 ^ Z.of_nat k
  | Raise _ => false
  end.

Definition half_extent_exact (k : nat) : bool :=
  match half_extent (2 ^ Z.of_nat k) with
  | Ok h => Qeq_bool (to_Q h) (3 / inject_Z (2 ^ Z.of_nat (S k)))
  | Raise _ => false
  end.

End Interactive64.

(** *** [animate] and the number of frames *)

Module Animation64.
Import Binary64.

Record globals : Type := Globals {
  resolution : nat;
  threshold : Z;
  delta : float;
  xmin : float;
  xmax : float;
  ymin : float;
  ymax : float;
  yranges : list (list nat)
}.

Record view : Type := View {
  new_xmin : float;
  new_xmax : float;
  new_ymin : float;
  new_ymax : float;
  new_threshold : Z
}.

Section WithMath.

(** [pow b x] is the float power [b**x], which raises OverflowError when
    the result is beyond the largest float; [log2] is [np.log2] at the
    int [zoom]. *)
Variable linspace : float → float → nat → list float.
Variable pow : float → float → result float.
Variable log2 : Z → float.

(** [1-1/2**(delta*i)] *)
Definition shrink (g : globals) (i : Z) : result float :=
  fi ← of_int i;
  p ← pow f2 (fmul (delta g) fi);
  r ← ftruediv f1 p;
  mret (fsub f1 r).

(** Lines 87-92 of [animate]. *)
Definition animate_view (g : globals) (i : Z) : result view :=
  s ← shrink g i;
  let new_xmin := fadd (xmin g) (fmul (fmul f0_5 (fsub (xmax g) (xmin g))) s) in
  s ← shrink g i;
  let new_xmax := fsub (xmax g) (fmul (fmul f0_5 (fsub (xmax g) (xmin g))) s) in
  s ← shrink g i;
  let new_ymin := fadd (ymin g) (fmul (fmul f0_5 (fsub (ymax g) (ymin g))) s) in
  s ← shrink g i;
  let new_ymax := fsub (ymax g) (fmul (fmul f0_5 (fsub (ymax g) (ymin g))) s) in
  fi ← of_int i;
  n ← to_int (fmul (fmul (delta g) fi) f50);
  mret (View new_xmin new_xmax new_ymin new_ymax (threshold g + n)).

Definition animate (g : globals) (i : Z) : result (list (list float)) :=
  v ← animate_view g i;
  Kernel64.evaluate_grid linspace (resolution g) (new_xmin v) (new_xmax v)
    (new_ymin v) (new_ymax v) (new_threshold v) (yranges g).

(** [int(np.log2(zoom)/delta)]: the quotient of a NumPy float does not
    raise; [int] refuses an infinity and NaN. *)
Definition num_frames (zoom : Z) (delta : float) : result Z :=
  to_int (fdiv (log2 zoom) delta).

End WithMath.

(** Starting globals to run the model on: the bounds (-2, 1, -1.5, 1.5)
    with a given delta, on a 2 x 2 grid in two bands. *)
Definition test_globals (delta : float) : globals :=
  {| resolution := 2; threshold := 70; delta := delta;
     xmin := round_int (-2); xmax := round_int 1;
     ymin := round_quot (-3) 2; ymax := round_quot 3 2;
     yranges := [[0]; [1]]%nat |}.

End Animation64.

(** * Properties *)

(** ** The monad and the numbers *)

Lemma Qgt_bool_true (a b : Q) : Qgt_bool a b = true ↔ (b < a)%Q.
Proof.
  unfold Qgt_bool. rewrite negb_true_iff.
  split; intros H.
  - apply Qnot_le_lt. intros Hle. apply Qle_bool_iff in Hle. congruence.
  - destruct (Qle_bool a b) eqn:E; [|done].
    apply Qle_bool_iff in E. exfalso. eapply Qlt_not_le; eauto.
Qed.

Lemma Qgt_bool_false (a b : Q) : Qgt_bool a b = false ↔ (a <= b)%Q.
Proof.
  unfold Qgt_bool. rewrite negb_false_iff. apply Qle_bool_iff.
Qed.

Lemma Qgt_bool_proper (a a' b : Q) : (a == a')%Q → Qgt_bool a b = Qgt_bool a' b.
Proof.
  intros H. destruct (Qgt_bool a' b) eqn:E.
  - apply Qgt_bool_true. apply Qgt_bool_true in E. by rewrite H.
  - apply Qgt_bool_false. apply Qgt_bool_false in E. by rewrite H.
Qed.

(** ** The escape-time kernel *)

Section KernelFacts.
Import Kernel.

Lemma diverges_exceeds (c z : complex) (n : nat) :
  Ceq z (orbit c n) → diverges z = exceeds c n.
Proof.
  intros [Hr Hi]. unfold diverges, exceeds, norm2.
  apply Qgt_bool_proper. rewrite Hr, Hi. simpl. ring.
Qed.

Lemma step_orbit (c z : complex) (n : nat) :
  Ceq z (orbit c n) → Ceq (Cadd (Cmul z z) c) (orbit c (S n)).
Proof.
  intros [Hr Hi]. split; simpl; rewrite Hr, Hi; simpl; ring.
Qed.

Lemma start_orbit (c : complex) :
  Ceq (Cadd (of_real 0) (Cmul Cj (of_real 0))) (orbit c 0).
Proof. split; reflexivity. Qed.

(** The loop started at the [a]-th iterate with the indices [a], [a+1],
    ... returns the first index whose iterate exceeds the bound. *)
Lemma mandel_for_find (c z : complex) (a m : nat) :
  Ceq z (orbit c a) →
  mandel_for c z (Z.of_nat <$> seq a m) =
  match find (exceeds c) (seq a m) with
  | Some n => Z.of_nat n
  | None => 0
  end.
Proof.
  revert a z. induction m as [|m IH]; intros a z Hz; [done|].
  simpl. rewrite (diverges_exceeds c z a Hz).
  destruct (exceeds c a); [done|].
  apply IH. by apply step_orbit.
Qed.

Lemma mandel_find (c : complex) (threshold : Z) :
  mandel c threshold =
  match find (exceeds c) (seq 0 (Z.to_nat threshold)) with
  | Some n => Z.of_nat n
  | None => 0
  end.
Proof. apply mandel_for_find, start_orbit. Qed.

Lemma exceeds_0 (c : complex) : exceeds c 0 = false.
Proof. reflexivity. Qed.

Lemma find_seq_Some (f : nat → bool) (a m n : nat) :
  find f (seq a m) = Some n →
  (a ≤ n < a + m)%nat ∧ f n = true ∧ ∀ j, (a ≤ j < n)%nat → f j = false.
Proof.
  revert a. induction m as [|m IH]; intros a; simpl; [done|].
  destruct (f a) eqn:E.
  - intros [= <-]. repeat split; [lia..|done|]. intros j Hj. lia.
  - intros H. apply IH in H as (Hn & Hf & Hlow).
    repeat split; [lia..|done|].
    intros j Hj. destruct (decide (j = a)) as [->|]; [done|]. apply Hlow. lia.
Qed.

Lemma find_seq_None (f : nat → bool) (a m : nat) :
  find f (seq a m) = None ↔ ∀ j, (a ≤ j < a + m)%nat → f j = false.
Proof.
  revert a. induction m as [|m IH]; intros a; simpl.
  - split; [intros _ j Hj; lia|done].
  - destruct (f a) eqn:E.
    + split; [done|]. intros H. rewrite H in E; [done|lia].
    + rewrite IH. split; intros H j Hj.
      * destruct (decide (j = a)) as [->|]; [done|]. apply H. lia.
      * apply H. lia.
Qed.

(** Raising the cap keeps a found index. *)
Lemma find_seq_mono (f : nat → bool) (a m m' n : nat) :
  (m ≤ m')%nat → find f (seq a m) = Some n → find f (seq a m') = Some n.
Proof.
  revert a m'. induction m as [|m IH]; intros a m' Hm; simpl; [done|].
  destruct m' as [|m']; [lia|]. simpl.
  destruct (f a); [done|]. apply IH. lia.
Qed.

(** The kernel on a few points: 1+1j escapes at the second test, which a
    cap of 2 does not reach; -1 never escapes. *)
Example mandel_values :
  mandel (Complex 1 1) 5 = 2 ∧ mandel (Complex 1 1) 3 = 2 ∧
  mandel (Complex 1 1) 2 = 0 ∧ mandel (Complex (-1) 0) 8 = 0 ∧
  mandel (Complex 0.5 0.5) 6 = 5.
Proof. vm_compute. done. Qed.

(** C2. The kernel [mandel] of the source computes the escape-time
    algorithm of the specification: with z iterated from 0 by z ← z² + c,
    it returns the first n below the threshold at which
    z.real² + z.imag² > 4 holds before the update, and 0 when there is no
    such n.  The test compares the squared magnitude with 4. *)
Theorem mandel_refines_escape (c : complex) (threshold : Z) :
  mandel c threshold = escape c threshold.
Proof. unfold escape. apply mandel_find. Qed.

(** With a cap of 1 only the start value 0 is tested. *)
Lemma mandel_cap_1 (c : complex) : mandel c 1 = 0.
Proof. reflexivity. Qed.

(** C6, as the specification states it, fails at the cap 1. *)
Lemma immediate_divergence_fails_at_cap_1 :
  (4 < 3 * 3 + 0 * 0)%Q ∧ 1 ≤ 1 ∧ ¬ (mandel (Complex 3 0) 1 > 0).
Proof. vm_compute. repeat split; congruence. Qed.

(** The iterates of the origin stay at the origin. *)
Lemma orbit_origin (c : complex) (n : nat) :
  Ceq c (Complex 0 0) → Ceq (orbit c n) (Complex 0 0).
Proof.
  intros [Hr Hi]. induction n as [|n [IHr IHi]]; [done|].
  split; simpl in *; rewrite IHr, IHi, ?Hr, ?Hi; ring.
Qed.

Lemma mandel_origin (c : complex) (threshold : Z) :
  Ceq c (Complex 0 0) → mandel c threshold = 0.
Proof.
  intros Hc. rewrite mandel_find.
  destruct (find _ _) as [n|] eqn:E; [|done].
  apply find_seq_Some in E as (_ & E & _).
  unfold exceeds in E. apply Qgt_bool_true in E.
  destruct (orbit_origin c n Hc) as [Hr Hi]. unfold norm2 in E.
  rewrite Hr, Hi in E. simpl in E. vm_compute in E. done.
Qed.

(** C7. If [mandel] finds an escape under the cap t1, it returns the same
    count under every larger cap t2; and the origin never escapes. *)
Theorem mandel_monotone (c : complex) :
  (∀ t1 t2 : Z, 0 < t1 → t1 < t2 → mandel c t1 ≠ 0 →
     mandel c t2 = mandel c t1) ∧
  (∀ threshold : Z, mandel (of_real 0) threshold = 0).
Proof.
  split.
  - intros t1 t2 _ Ht Hne. rewrite !mandel_find in *.
    destruct (find _ (seq 0 (Z.to_nat t1))) as [n|] eqn:E; [|done].
    assert (Z.to_nat t1 ≤ Z.to_nat t2)%nat as Hle by lia.
    by rewrite (find_seq_mono _ _ _ _ _ Hle E).
  - intros threshold. by apply mandel_origin.
Qed.

Lemma mandel_monotone_witness :
  mandel (Complex 1 1) 5 = mandel (Complex 1 1) 3.
Proof.
  apply (proj1 (mandel_monotone (Complex 1 1)) 3 5); [lia | lia |].
  vm_compute. discriminate.
Defined.

(** C10. For a threshold of at least 1, [mandel] returns 0 or an n with
    1 <= n < threshold; the test cannot succeed at n = 0, where z is 0;
    and the result is 0 exactly when no iterate below the cap exceeds the
    bound. *)
Theorem mandel_range (c : complex) (threshold : Z) :
  1 ≤ threshold →
  (mandel c threshold = 0 ∨ 1 ≤ mandel c threshold < threshold) ∧
  diverges (Cadd (of_real 0) (Cmul Cj (of_real 0))) = false ∧
  (mandel c threshold = 0 ↔
   ∀ n : nat, (n < Z.to_nat threshold)%nat → exceeds c n = false).
Proof.
  intros Ht. rewrite mandel_find.
  destruct (find _ _) as [n|] eqn:E.
  - apply find_seq_Some in E as (Hn & Hex & _).
    assert (n ≠ 0%nat) by (intros ->; by rewrite exceeds_0 in Hex).
    split; [right; lia|]. split; [done|].
    split; [lia|]. intros Hall. rewrite Hall in Hex; [done|lia].
  - split; [by left|]. split; [done|]. split; [|done].
    intros _ n Hn. apply (proj1 (find_seq_None _ _ _) E). lia.
Qed.

Lemma mandel_range_witness :
  (mandel (Complex 1 1) 5 = 0 ∨ 1 ≤ mandel (Complex 1 1) 5 < 5) ∧
  diverges (Cadd (of_real 0) (Cmul Cj (of_real 0))) = false ∧
  (mandel (Complex 1 1) 5 = 0 ↔
   ∀ n : nat, (n < Z.to_nat 5)%nat → exceeds (Complex 1 1) n = false).
Proof. apply mandel_range. lia. Defined.

End KernelFacts.

(** ** The tile evaluator and the grid *)

Section GridFacts.
Import Kernel.

Lemma linspace_length (start stop : Q) (num : nat) :
  length (linspace start stop num) = num.
Proof.
  unfold linspace. case_decide; rewrite ?length_insert, length_fmap, length_seq; done.
Qed.

Lemma getitem_lt {A} (d : A) (a : list A) (i : nat) :
  (i < length a)%nat → getitem a i = Ok (default d (a !! i)).
Proof.
  intros Hi. unfold getitem.
  destruct (lookup_lt_is_Some_2 a i Hi) as [v ->]. done.
Qed.

Section Band.
Variables (resolution : nat) (xmin xmax ymin ymax : Q) (threshold : Z).

Let re := linspace xmin xmax resolution.
Let im := linspace ymin ymax resolution.
Let px := pixel resolution xmin xmax ymin ymax threshold.

(** One assignment [point_vals[k] = ...; k += 1] fills the next free
    cell. *)
Lemma store_point_spec (y x : nat) (filled rest : list Q) (r : Q) :
  (x < resolution)%nat → (y < resolution)%nat →
  store_point re im threshold y x
    (Locals (filled ++ r :: rest) (length filled)) =
  (Locals ((filled ++ [px y x]) ++ rest) (length (filled ++ [px y x])),
   Ok tt).
Proof.
  intros Hx Hy. unfold store_point.
  unfold mbind, Py_bind, lift, get, put.
  rewrite (getitem_lt 0%Q re x), (getitem_lt 0%Q im y)
    by (unfold re, im; by rewrite linspace_length).
  cbn [point_vals k]. unfold setitem.
  rewrite decide_True by (rewrite length_app; simpl; lia).
  rewrite length_app. cbn [length].
  f_equal. f_equal.
  rewrite <- (Nat.add_0_r (length filled)) at 1.
  rewrite insert_app_r. cbn. by rewrite <- app_assoc.
Qed.

(** The inner loop over a run of columns. *)
Lemma columns_spec (y : nat) (xs : list nat) (filled rest : list Q) :
  (y < resolution)%nat → Forall (λ x, x < resolution)%nat xs →
  (length xs ≤ length rest)%nat →
  for_ xs (λ x, store_point re im threshold y x)
    (Locals (filled ++ rest) (length filled)) =
  (Locals ((filled ++ (px y <$> xs)) ++ drop (length xs) rest)
          (length (filled ++ (px y <$> xs))), Ok tt).
Proof.
  intros Hy Hxs. revert filled rest.
  induction Hxs as [|x xs Hx _ IH]; intros filled rest Hlen.
  - cbn. by rewrite !app_nil_r.
  - destruct rest as [|r rest]; [simpl in Hlen; lia|].
    cbn [for_]. unfold mbind at 1, Py_bind at 1.
    rewrite store_point_spec by done.
    rewrite IH by (simpl in Hlen; lia).
    cbn [fmap list_fmap length drop]. by rewrite <- !app_assoc.
Qed.

(** The outer loop over a band of rows. *)
Lemma rows_spec (yrange : list nat) (filled rest : list Q) :
  Forall (λ y, y < resolution)%nat yrange →
  (resolution * length yrange ≤ length rest)%nat →
  for_ yrange (λ y,
    for_ (seq 0 resolution) (λ x, store_point re im threshold y x))
    (Locals (filled ++ rest) (length filled)) =
  (Locals ((filled ++ concat ((λ y, px y <$> seq 0 resolution) <$> yrange))
            ++ drop (resolution * length yrange) rest)
          (length (filled ++
             concat ((λ y, px y <$> seq 0 resolution) <$> yrange))),
   Ok tt).
Proof.
  intros Hys. revert filled rest.
  induction Hys as [|y ys Hy _ IH]; intros filled rest Hlen.
  - cbn. by rewrite Nat.mul_0_r, !app_nil_r.
  - cbn [for_]. unfold mbind at 1, Py_bind at 1.
    cbn [length] in Hlen.
    rewrite columns_spec; [|done|apply Forall_seq; lia|rewrite length_seq; lia].
    rewrite IH by (rewrite length_drop, length_seq; lia).
    rewrite length_seq, drop_drop. cbn [fmap list_fmap concat length].
    rewrite <- !app_assoc.
    by replace (resolution * S (length ys))%nat
      with (resolution + resolution * length ys)%nat by lia.
Qed.

(** A band inside the grid yields its rows, row after row. *)
Lemma band_spec (yrange : list nat) :
  Forall (λ y, y < resolution)%nat yrange →
  mandelbrot_for_parallel resolution xmin xmax ymin ymax threshold yrange =
  Ok (concat ((λ y, px y <$> seq 0 resolution) <$> yrange)).
Proof.
  intros Hys. unfold mandelbrot_for_parallel.
  pose proof (rows_spec yrange [] (replicate (resolution * length yrange) 0%Q)
                Hys) as H.
  rewrite length_replicate in H. specialize (H (Nat.le_refl _)).
  cbn [app length] in H. fold re im. rewrite H.
  cbn [point_vals]. rewrite drop_ge by (rewrite length_replicate; lia).
  by rewrite app_nil_r.
Qed.

Let grid_rows := grid resolution xmin xmax ymin ymax threshold.

Lemma mapM_bands (yranges : list (list nat)) :
  Forall (Forall (λ y, y < resolution)%nat) yranges →
  mapM (mandelbrot_for_parallel resolution xmin xmax ymin ymax threshold)
       yranges =
  Ok ((λ yrange, concat ((λ y, px y <$> seq 0 resolution) <$> yrange))
        <$> yranges).
Proof.
  induction 1 as [|yrange yranges Hy _ IH]; [done|].
  cbn [mapM]. rewrite band_spec by done. rewrite IH. done.
Qed.

Lemma foldl_concatenate {A} (acc : list A) (parrays : list (list A)) :
  foldl (λ complete_parray parray, complete_parray ++ parray) acc parrays =
  acc ++ concat parrays.
Proof.
  revert acc. induction parrays as [|p ps IH]; intros acc; simpl.
  - by rewrite app_nil_r.
  - by rewrite IH, app_assoc.
Qed.

Lemma concat_bands {A B} (row : A → list B) (bands : list (list A)) :
  concat ((λ band, concat (row <$> band)) <$> bands) =
  concat (row <$> concat bands).
Proof.
  induction bands as [|b bs IH]; [done|].
  cbn. rewrite fmap_app, concat_app. by rewrite IH.
Qed.

Lemma Forall_concat_bands {A} (P : A → Prop) (bands : list (list A)) :
  Forall P (concat bands) → Forall (Forall P) bands.
Proof.
  induction bands as [|b bs IH]; [constructor|].
  cbn. rewrite Forall_app. intros [Hb Hbs]. constructor; auto.
Qed.

Lemma collect_spec (yranges : list (list nat)) :
  Forall (λ y, y < resolution)%nat (concat yranges) →
  collect resolution xmin xmax ymin ymax threshold yranges =
  Ok (concat ((λ y, px y <$> seq 0 resolution) <$> concat yranges)).
Proof.
  intros Hys. unfold collect.
  rewrite mapM_bands by by apply Forall_concat_bands.
  cbn. by rewrite foldl_concatenate, concat_bands.
Qed.

Lemma length_concat_rows {A} (rows : list (list A)) (cols : nat) :
  Forall (λ r, length r = cols) rows →
  length (concat rows) = (length rows * cols)%nat.
Proof.
  induction 1 as [|r rows Hr _ IH]; [done|].
  cbn. rewrite length_app, IH, Hr. done.
Qed.

Lemma rows_of_concat (rows : list (list Q)) (cols : nat) :
  Forall (λ r, length r = cols) rows →
  rows_of (concat rows) (length rows) cols = rows.
Proof.
  induction 1 as [|r rows Hr _ IH]; [done|].
  cbn. rewrite take_app_length', drop_app_length' by done. by rewrite IH.
Qed.

Lemma grid_rows_shape :
  length grid_rows = resolution ∧
  Forall (λ r, length r = resolution) grid_rows.
Proof.
  unfold grid_rows, grid. split.
  - by rewrite length_fmap, length_seq.
  - apply Forall_fmap, Forall_forall. intros y _. cbn.
    by rewrite length_fmap, length_seq.
Qed.

Lemma evaluate_grid_spec (yranges : list (list nat)) :
  concat yranges = seq 0 resolution →
  collect resolution xmin xmax ymin ymax threshold yranges =
    Ok (concat grid_rows) ∧
  evaluate_grid resolution xmin xmax ymin ymax threshold yranges =
    Ok grid_rows.
Proof.
  intros Hpart.
  assert (collect resolution xmin xmax ymin ymax threshold yranges =
          Ok (concat grid_rows)) as Hc.
  { rewrite collect_spec; rewrite Hpart; [done|]. apply Forall_seq. lia. }
  split; [done|]. unfold evaluate_grid. rewrite Hc. cbn.
  destruct grid_rows_shape as [Hlen Hrows].
  unfold reshape. rewrite decide_True.
  - rewrite <- Hlen at 1. by rewrite rows_of_concat.
  - rewrite (length_concat_rows _ resolution) by done. by rewrite Hlen.
Qed.

End Band.

(** C1. For every partition of the rows [0, resolution) into ascending
    contiguous bands, the outputs of [mandelbrot_for_parallel] over the
    bands, concatenated in order, are resolution² escape counts, and
    reshaped they are the same field, element for element, as the
    evaluation of the single band [0, resolution): the row-major matrix of
    the pixels' escape counts.  This holds for every viewport and
    threshold, in particular for xmin < xmax, ymin < ymax and a positive
    threshold. *)
Theorem parallel_sequential_equivalence (resolution : nat)
    (xmin xmax ymin ymax : Q) (threshold : Z) (bands : list (list nat)) :
  concat bands = seq 0 resolution →
  ∃ (counts : list Q) (field : list (list Q)),
    collect resolution xmin xmax ymin ymax threshold bands = Ok counts ∧
    length counts = (resolution * resolution)%nat ∧
    evaluate_grid resolution xmin xmax ymin ymax threshold bands = Ok field ∧
    evaluate_grid resolution xmin xmax ymin ymax threshold
      [seq 0 resolution] = Ok field ∧
    field = grid resolution xmin xmax ymin ymax threshold.
Proof.
  intros Hpart.
  destruct (evaluate_grid_spec resolution xmin xmax ymin ymax threshold
              bands Hpart) as [Hc Hg].
  destruct (evaluate_grid_spec resolution xmin xmax ymin ymax threshold
              [seq 0 resolution]) as [_ Hs]; [cbn; by rewrite app_nil_r|].
  destruct (grid_rows_shape resolution xmin xmax ymin ymax threshold)
    as [Hlen Hrows].
  eexists _, _. repeat split; [exact Hc| |exact Hg|exact Hs].
  rewrite (length_concat_rows _ resolution) by done. by rewrite Hlen.
Qed.

Lemma parallel_sequential_equivalence_witness :
  ∃ (counts : list Q) (field : list (list Q)),
    collect 3 8 11 (-1.5) 1.5 70 [[0; 1]; []; [2]]%nat = Ok counts ∧
    length counts = (3 * 3)%nat ∧
    evaluate_grid 3 8 11 (-1.5) 1.5 70 [[0; 1]; []; [2]]%nat = Ok field ∧
    evaluate_grid 3 8 11 (-1.5) 1.5 70 [seq 0 3] = Ok field ∧
    field = grid 3 8 11 (-1.5) 1.5 70.
Proof. apply parallel_sequential_equivalence. reflexivity. Defined.

(** The 3 x 3 field of the first plot's viewport under a cap of 4,
    evaluated in two bands. *)
Example evaluate_grid_3 :
  evaluate_grid 3 (-2) 1 (-1.5) 1.5 4 [[0; 1]; [2]]%nat =
  Ok [[1; 2; 2]; [0; 0; 3]; [1; 2; 2]]%Q.
Proof. vm_compute. done. Qed.

(** A band that leaves the grid raises, and so does a set of bands that
    misses a row. *)
Example evaluate_grid_bad_bands :
  evaluate_grid 3 (-2) 1 (-1.5) 1.5 4 [[0; 1]; [3]]%nat = Raise IndexError ∧
  evaluate_grid 3 (-2) 1 (-1.5) 1.5 4 [[0; 1]]%nat = Raise ValueError.
Proof. vm_compute. done. Qed.

Example array_split_10_3 :
  array_split (seq 0 10) 3 = Ok [[0; 1; 2; 3]; [4; 5; 6]; [7; 8; 9]]%nat.
Proof. reflexivity. Qed.

(** [np.array_split] yields such a partition. *)
Lemma split_sizes_concat {A} (sizes : list nat) (ary : list A) :
  (length ary ≤ sum_list sizes)%nat → concat (split_sizes sizes ary) = ary.
Proof.
  revert ary. induction sizes as [|n sizes IH]; intros ary Hlen; cbn in *.
  - destruct ary; [done|simpl in Hlen; lia].
  - rewrite IH by (rewrite length_drop; lia). apply take_drop.
Qed.

Lemma array_split_partition {A} (ary : list A) (n : Z) :
  0 < n →
  ∃ bands, array_split ary n = Ok bands ∧ concat bands = ary ∧
           length bands = Z.to_nat n.
Proof.
  intros Hn. unfold array_split. rewrite decide_False by lia.
  eexists. split; [done|].
  set (sections := Z.to_nat n).
  assert (sections ≠ 0)%nat as Hs by (unfold sections; lia).
  pose proof (Nat.div_mod_eq (length ary) sections) as Hdiv.
  pose proof (Nat.mod_upper_bound (length ary) sections Hs) as Hmod.
  split.
  - apply split_sizes_concat.
    rewrite sum_list_with_app, !sum_list_replicate. nia.
  - assert (∀ sizes (l : list A), length (split_sizes sizes l) = length sizes)
      as Hlen.
    { induction sizes as [|m sizes IH]; intros l; cbn; [done|by rewrite IH]. }
    rewrite Hlen, length_app, !length_replicate. lia.
Qed.

End GridFacts.

(** ** The interactive program *)

Lemma truediv_nonzero (a b : Q) :
  ¬ (b == 0)%Q → truediv a b = Ok (a / b)%Q.
Proof.
  intros Hb. unfold truediv. destruct (Qeq_bool b 0) eqn:E; [|done].
  apply Qeq_bool_iff in E. done.
Qed.

Lemma truediv_zero (a b : Q) :
  (b == 0)%Q → truediv a b = Raise ZeroDivisionError.
Proof.
  intros Hb. unfold truediv. apply Qeq_bool_iff in Hb. by rewrite Hb.
Qed.

Lemma inject_Z_nonzero (z : Z) : z ≠ 0 → ¬ (inject_Z z == 0)%Q.
Proof. intros Hz H. apply Hz. unfold Qeq in H. simpl in H. lia. Qed.

(** [int(z/2)] of an [int] [z] is the quotient that rounds toward 0. *)
Lemma int_half (z : Z) : int_of_float (inject_Z z / 2) = Z.quot z 2.
Proof. unfold int_of_float. cbn. by rewrite Z.mul_1_r. Qed.

Section InteractiveFacts.
Import Interactive.

Lemma onclick_zoom_left (cfg : config) (event : MouseEvent) (g : globals) :
  button event = 1 →
  onclick_zoom cfg event g =
  (set_threshold (threshold g + add_thresh cfg) (set_zoom (zoom g * 2) g),
   Ok tt).
Proof. intros Hb. unfold onclick_zoom. by rewrite decide_True. Qed.

Lemma onclick_zoom_right (cfg : config) (event : MouseEvent) (g : globals) :
  button event = 3 →
  onclick_zoom cfg event g =
  (let g1 := set_zoom (Z.quot (zoom g) 2) g in
   if decide (threshold g > add_thresh cfg)
   then set_threshold (threshold g - add_thresh cfg) g1 else g1,
   Ok tt).
Proof.
  intros Hb. unfold onclick_zoom.
  rewrite decide_False, decide_True by lia.
  unfold mbind, Py_bind, get, lift, put.
  rewrite truediv_nonzero by done. rewrite int_half. cbn.
  by case_decide.
Qed.

(** The bounds are assigned only after [1.5/zoom] has been computed. *)
Lemma onclick_bounds_spec (cfg : config) (event : MouseEvent) (g : globals) :
  resolution cfg ≠ 0%nat →
  let posx := (xmin g + (xmax g - xmin g) * xdata event
                        / inject_Z (Z.of_nat (resolution cfg)))%Q in
  let posy := (ymin g + (ymax g - ymin g) * ydata event
                        / inject_Z (Z.of_nat (resolution cfg)))%Q in
  let h := (1.5 / inject_Z (zoom g))%Q in
  onclick_bounds cfg event g =
  if decide (zoom g = 0) then (g, Raise ZeroDivisionError)
  else (Globals (zoom g) (posx + h) (posx - h) (posy + h) (posy - h)
          (threshold g), Ok tt).
Proof.
  intros Hres posx posy h. unfold onclick_bounds.
  unfold mbind, Py_bind, get, lift, modify.
  rewrite !(truediv_nonzero _ (inject_Z (Z.of_nat _)))
    by (apply inject_Z_nonzero; lia).
  case_decide as Hz.
  - rewrite truediv_zero; [done|]. by rewrite Hz.
  - cbn. rewrite !truediv_nonzero by by apply inject_Z_nonzero.
    reflexivity.
Qed.

Lemma onclick_bounds_keeps (cfg : config) (event : MouseEvent) (g : globals) :
  zoom (onclick_bounds cfg event g).1 = zoom g ∧
  threshold (onclick_bounds cfg event g).1 = threshold g.
Proof.
  unfold onclick_bounds. unfold mbind, Py_bind, get, lift, modify.
  repeat (destruct (truediv _ _); cbn; [|done]). done.
Qed.

Lemma onclick_unfold (cfg : config) (event : MouseEvent) (g : globals) :
  onclick cfg event g =
  match onclick_zoom cfg event g with
  | (g1, Ok _) =>
      match onclick_bounds cfg event g1 with
      | (g2, Ok _) =>
          (g2, Kernel.evaluate_grid (resolution cfg) (xmin g2) (xmax g2)
                 (ymin g2) (ymax g2) (threshold g2) (yranges cfg))
      | (g2, Raise e) => (g2, Raise e)
      end
  | (g1, Raise e) => (g1, Raise e)
  end.
Proof.
  unfold onclick, mbind, Py_bind.
  destruct (onclick_zoom cfg event g) as [g1 [[]|e]]; [|done].
  destruct (onclick_bounds cfg event g1) as [g2 [[]|e]]; done.
Qed.

(** The zoom and the threshold after [onclick] are those that lines
    79-85 assign, whether or not the rest of the handler raises. *)
Lemma onclick_keeps (cfg : config) (event : MouseEvent) (g : globals) :
  zoom (onclick cfg event g).1 = zoom (onclick_zoom cfg event g).1 ∧
  threshold (onclick cfg event g).1 =
    threshold (onclick_zoom cfg event g).1.
Proof.
  rewrite onclick_unfold.
  destruct (onclick_zoom cfg event g) as [g1 [[]|e]]; [|done].
  pose proof (onclick_bounds_keeps cfg event g1) as Hk.
  destruct (onclick_bounds cfg event g1) as [g2 [[]|e]]; done.
Qed.

Lemma half_extent_pos (z : Z) : 0 < z → (0 < 1.5 / inject_Z z)%Q.
Proof.
  intros Hz. apply Qlt_shift_div_l.
  - unfold Qlt. simpl. lia.
  - rewrite Qmult_0_l. reflexivity.
Qed.

(** A click whose new zoom is not 0 completes: the new bounds are centred
    at the clicked point with half-extent 1.5/zoom on both axes, and the
    displayed field is the grid of the new viewport. *)
Lemma onclick_completes (cfg : config) (event : MouseEvent) (g g1 : globals) :
  resolution cfg ≠ 0%nat →
  concat (yranges cfg) = seq 0 (resolution cfg) →
  onclick_zoom cfg event g = (g1, Ok tt) →
  zoom g1 ≠ 0 →
  let posx := (xmin g1 + (xmax g1 - xmin g1) * xdata event
                         / inject_Z (Z.of_nat (resolution cfg)))%Q in
  let posy := (ymin g1 + (ymax g1 - ymin g1) * ydata event
                         / inject_Z (Z.of_nat (resolution cfg)))%Q in
  let h := (1.5 / inject_Z (zoom g1))%Q in
  let g2 := Globals (zoom g1) (posx + h) (posx - h) (posy + h) (posy - h)
              (threshold g1) in
  onclick cfg event g =
  (g2, Ok (Kernel.grid (resolution cfg) (xmin g2) (xmax g2) (ymin g2)
             (ymax g2) (threshold g2))).
Proof.
  intros Hres Hpart Hzoom Hz posx posy h g2.
  rewrite onclick_unfold, Hzoom.
  rewrite onclick_bounds_spec by done. rewrite decide_False by done.
  fold posx posy h g2. f_equal.
  by apply evaluate_grid_spec.
Qed.

(** A click whose new zoom is 0 raises at line 95, with the zoom and the
    threshold already assigned and the bounds untouched. *)
Lemma onclick_raises (cfg : config) (event : MouseEvent) (g g1 : globals) :
  resolution cfg ≠ 0%nat →
  onclick_zoom cfg event g = (g1, Ok tt) →
  zoom g1 = 0 →
  onclick cfg event g = (g1, Raise ZeroDivisionError).
Proof.
  intros Hres Hzoom Hz. rewrite onclick_unfold, Hzoom.
  rewrite onclick_bounds_spec by done. by rewrite decide_True.
Qed.

(** C5. A right click in a state whose zoom is 1, the zoom of the main
    program's first plot, leaves the zoom at 0 rather than at
    max(1, zoom/2) = 1 and raises ZeroDivisionError at [1.5/zoom]; the
    bounds are not recentred. *)
Theorem right_click_at_zoom_1 (cfg : config) (x y : Q) (g : globals) :
  resolution cfg ≠ 0%nat →
  zoom g = 1 →
  ∃ g' : globals,
    onclick cfg (Event 3 x y) g = (g', Raise ZeroDivisionError) ∧
    zoom g' = 0 ∧ zoom g' ≠ Z.max 1 (Z.quot (zoom g) 2) ∧
    xmin g' = xmin g ∧ xmax g' = xmax g ∧
    ymin g' = ymin g ∧ ymax g' = ymax g.
Proof.
  intros Hres Hz.
  pose proof (onclick_zoom_right cfg (Event 3 x y) g eq_refl) as Hzoom.
  cbv zeta in Hzoom. rewrite Hz in Hzoom. change (Z.quot 1 2) with 0 in Hzoom.
  eexists. split; [eapply onclick_raises; [done|exact Hzoom|]|].
  - by case_decide.
  - rewrite Hz. by case_decide.
Qed.

Lemma right_click_at_zoom_1_witness :
  ∃ g' : globals,
    onclick (Config 2800 50 [seq 0 2800]) (Event 3 1400 1400) main_globals =
      (g', Raise ZeroDivisionError) ∧
    zoom g' = 0 ∧ zoom g' ≠ Z.max 1 (Z.quot (zoom main_globals) 2) ∧
    xmin g' = xmin main_globals ∧ xmax g' = xmax main_globals ∧
    ymin g' = ymin main_globals ∧ ymax g' = ymax main_globals.
Proof. apply right_click_at_zoom_1; [discriminate | reflexivity]. Defined.

(** C8. The state of the main program's first plot satisfies
    xmin < xmax, ymin < ymax and threshold > 0, yet a right click on it
    does not complete: it raises ZeroDivisionError and leaves the zoom
    at 0. *)
Theorem right_click_on_first_plot_raises :
  (xmin main_globals < xmax main_globals)%Q ∧
  (ymin main_globals < ymax main_globals)%Q ∧
  threshold main_globals > 0 ∧
  ∀ (bands : list (list nat)) (x y : Q),
    onclick (Config 2800 50 bands) (Event 3 x y) main_globals =
    ({| zoom := 0; xmin := -2; xmax := 1; ymin := -1.5; ymax := 1.5;
        threshold := 20 |}, Raise ZeroDivisionError).
Proof.
  do 3 (split; [reflexivity|]). intros bands x y.
  by apply onclick_raises.
Qed.

(** Once the zoom is 0, every later left or right click raises as well. *)
Lemma zoom_0_is_stuck (cfg : config) (event : MouseEvent) (g : globals) :
  resolution cfg ≠ 0%nat →
  zoom g = 0 →
  button event = 1 ∨ button event = 3 →
  (onclick cfg event g).2 = Raise ZeroDivisionError ∧
  zoom (onclick cfg event g).1 = 0.
Proof.
  intros Hres Hz [Hb|Hb].
  - rewrite (onclick_raises cfg event g _ Hres (onclick_zoom_left _ _ _ Hb));
      cbn; rewrite ?Hz; done.
  - pose proof (onclick_zoom_right cfg event g Hb) as Hzoom.
    cbv zeta in Hzoom. rewrite Hz in Hzoom. change (Z.quot 0 2) with 0 in Hzoom.
    rewrite (onclick_raises cfg event g _ Hres Hzoom); by case_decide.
Qed.

(** The transitions that do preserve the invariant: a left click from a
    positive zoom and a right click from a zoom of at least 2. *)
Lemma left_click_preserves (cfg : config) (x y : Q) (g : globals) :
  resolution cfg ≠ 0%nat →
  concat (yranges cfg) = seq 0 (resolution cfg) →
  0 ≤ add_thresh cfg →
  threshold g > 0 → 1 ≤ zoom g →
  ∃ g' field,
    onclick cfg (Event 1 x y) g = (g', Ok field) ∧
    zoom g' = zoom g * 2 ∧ threshold g' = threshold g + add_thresh cfg ∧
    (xmin g' < xmax g')%Q ∧ (ymin g' < ymax g')%Q ∧ threshold g' > 0.
Proof.
  intros Hres Hpart Hadd Ht Hz.
  pose proof (onclick_zoom_left cfg (Event 1 x y) g eq_refl) as Hzoom.
  pose proof (onclick_completes cfg _ g _ Hres Hpart Hzoom) as Hc.
  cbn in Hc. specialize (Hc ltac:(lia)).
  eexists _, _. split; [exact Hc|]. cbn.
  pose proof (half_extent_pos (zoom g * 2) ltac:(lia)) as Hh.
  repeat split; try lra; lia.
Qed.

Lemma right_click_preserves (cfg : config) (x y : Q) (g : globals) :
  resolution cfg ≠ 0%nat →
  concat (yranges cfg) = seq 0 (resolution cfg) →
  threshold g > 0 → 2 ≤ zoom g →
  ∃ g' field,
    onclick cfg (Event 3 x y) g = (g', Ok field) ∧
    zoom g' = Z.quot (zoom g) 2 ∧ 1 ≤ zoom g' ∧
    threshold g' = (if decide (threshold g > add_thresh cfg)
                    then threshold g - add_thresh cfg else threshold g) ∧
    (xmin g' == xmin g + (xmax g - xmin g) * x
                  / inject_Z (Z.of_nat (resolution cfg))
                - 1.5 / inject_Z (zoom g'))%Q ∧
    (xmax g' == xmin g + (xmax g - xmin g) * x
                  / inject_Z (Z.of_nat (resolution cfg))
                + 1.5 / inject_Z (zoom g'))%Q ∧
    (ymin g' == ymin g + (ymax g - ymin g) * y
                  / inject_Z (Z.of_nat (resolution cfg))
                - 1.5 / inject_Z (zoom g'))%Q ∧
    (ymax g' == ymin g + (ymax g - ymin g) * y
                  / inject_Z (Z.of_nat (resolution cfg))
                + 1.5 / inject_Z (zoom g'))%Q ∧
    (xmin g' < xmax g')%Q ∧ (ymin g' < ymax g')%Q ∧ threshold g' > 0.
Proof.
  intros Hres Hpart Ht Hz.
  pose proof (onclick_zoom_right cfg (Event 3 x y) g eq_refl) as Hzoom.
  cbv zeta in Hzoom.
  assert (1 ≤ Z.quot (zoom g) 2) as Hq.
  { rewrite Z.quot_div_nonneg by lia. apply Z.div_le_lower_bound; lia. }
  pose proof (half_extent_pos (Z.quot (zoom g) 2) ltac:(lia)) as Hh.
  pose proof (onclick_completes cfg _ g _ Hres Hpart Hzoom) as Hc.
  case_decide as Hthr; cbn in Hc; specialize (Hc ltac:(lia));
    (eexists _, _; split; [exact Hc|]); cbn;
    rewrite ?decide_True, ?decide_False by done;
    repeat split; try reflexivity; try lra; lia.
Qed.

(** A left click on the small configuration. *)
Example left_click_small :
  onclick small_config (Event 1 1 1) small_globals =
  ({| zoom := 2; xmin := 350 # 40; xmax := 410 # 40;
      ymin := -30000 # 40000; ymax := 30000 # 40000; threshold := 120 |},
   Ok [[1; 1]; [1; 1]]%Q).
Proof. vm_compute. done. Qed.

End InteractiveFacts.

(** ** The animation program *)

Lemma int_of_float_floor (x : Q) : (0 <= x)%Q → int_of_float x = Qfloor x.
Proof.
  destruct x as [n d]. unfold Qle, int_of_float, Qfloor. simpl.
  rewrite Z.mul_0_l, Z.mul_1_r. intros Hn. by apply Z.quot_div_nonneg.
Qed.

Lemma int_of_float_opp (x : Q) : int_of_float (- x) = - int_of_float x.
Proof. destruct x as [n d]. unfold int_of_float. simpl. apply Z.quot_opp_l. lia. Qed.

Lemma string_length_append (s t : string) :
  String.length (s +:+ t) = (String.length s + String.length t)%nat.
Proof. induction s as [|a s IH]; simpl; [done|by rewrite IH]. Qed.

Lemma string_append_inj_r (t s1 s2 : string) :
  s1 +:+ t = s2 +:+ t → s1 = s2.
Proof.
  revert s2. induction s1 as [|a s1 IH]; intros [|b s2] H.
  - done.
  - apply (f_equal String.length) in H.
    rewrite !string_length_append in H. simpl in H. lia.
  - apply (f_equal String.length) in H.
    rewrite !string_length_append in H. simpl in H. lia.
  - simpl in H. injection H as -> Hs. f_equal. by apply IH.
Qed.

Lemma filter_ext_in {A} (P1 P2 : A → Prop)
    `{!∀ x, Decision (P1 x), !∀ x, Decision (P2 x)} (l : list A) :
  (∀ x, x ∈ l → P1 x ↔ P2 x) → filter P1 l = filter P2 l.
Proof.
  induction l as [|x l IH]; intros Hext; [done|].
  rewrite !filter_cons.
  rewrite IH by (intros y Hy; apply Hext; by right).
  pose proof (Hext x (list_elem_of_here _ _)) as Hx.
  destruct (decide (P1 x)), (decide (P2 x)); tauto || done.
Qed.

Section AnimationFacts.
Import Animation.

#[local] Instance frame_file_inj : Inj (=) (=) frame_file.
Proof.
  intros i j H. unfold frame_file in H.
  apply (inj (String.app "AnimatedFrames/frame")) in H.
  apply string_append_inj_r in H. by apply (inj pretty) in H.
Qed.

Lemma pow_int_pos (x : Q) : (0 < pow_int 2%Q x)%Q.
Proof. apply Qpower_0_lt. reflexivity. Qed.

Lemma pow_int_opp (x : Q) : (pow_int 2%Q (- x) == / pow_int 2%Q x)%Q.
Proof. unfold pow_int. rewrite int_of_float_opp. apply Qpower_opp. Qed.

Lemma log2_int_nonneg (x : Q) : (1 <= x)%Q → (0 <= log2_int x)%Q.
Proof.
  intros _. unfold log2_int.
  change 0%Q with (inject_Z 0). rewrite <- Zle_Qle. apply Z.log2_nonneg.
Qed.

Lemma animate_view_spec (pow : Q → Q → Q) (g : globals) (i : Z) :
  ¬ (pow 2%Q (delta g * inject_Z i)%Q == 0)%Q →
  animate_view pow g i =
  Ok (View
        (xmin g + 0.5 * (xmax g - xmin g)
                  * (1 - 1 / pow 2%Q (delta g * inject_Z i)%Q))
        (xmax g - 0.5 * (xmax g - xmin g)
                  * (1 - 1 / pow 2%Q (delta g * inject_Z i)%Q))
        (ymin g + 0.5 * (ymax g - ymin g)
                  * (1 - 1 / pow 2%Q (delta g * inject_Z i)%Q))
        (ymax g - 0.5 * (ymax g - ymin g)
                  * (1 - 1 / pow 2%Q (delta g * inject_Z i)%Q))
        (threshold g + int_of_float (delta g * inject_Z i * 50))).
Proof.
  intros Hp. unfold animate_view, mbind, result_bind.
  by rewrite !truediv_nonzero by done.
Qed.

Lemma num_frames_spec (log2 : Q → Q) (zoom delta : Q) :
  (0 < delta)%Q → (0 <= log2 zoom)%Q →
  num_frames log2 zoom delta = Ok (Qfloor (log2 zoom / delta)).
Proof.
  intros Hd Hl. unfold num_frames.
  destruct (Qeq_bool delta 0) eqn:E.
  - apply Qeq_bool_iff in E. rewrite E in Hd. by apply Qlt_irrefl in Hd.
  - f_equal. apply int_of_float_floor.
    apply Qle_shift_div_l; [done|]. by rewrite Qmult_0_l.
Qed.

(** Frame 2 from the bounds (-2, 1, -1.5, 1.5) with delta 0.5: the window
    is halved around its centre and the threshold grows by 50. *)
Example animate_view_test :
  animate_view pow_int test_globals 2 =
  Ok {| new_xmin := -25 # 20; new_xmax := 5 # 20;
        new_ymin := -15000 # 20000; new_ymax := 15000 # 20000;
        new_threshold := 120 |}.
Proof. reflexivity. Qed.

(** Over exact rationals, and with a power function that is positive and
    satisfies 2^(-x) = 1/2^x, the expressions of lines 87-92 agree with
    the formulas of the specification: the window keeps its centre, its
    width and height are divided by 2^(delta*i), the threshold grows by
    floor(delta*i*50) and the number of frames is floor(log2(zoom)/delta).
    Binary64 rounds every operation; what the program computes there is
    stated further down. *)
Lemma animate_view_exact_closed_form (pow : Q → Q → Q) (log2 : Q → Q)
    (g : globals) (i : Z) (zoom : Q) :
  (∀ x, 0 < pow 2%Q x)%Q →
  (∀ x, pow 2%Q (- x) == / pow 2%Q x)%Q →
  (∀ x, 1 <= x → 0 <= log2 x)%Q →
  (0 < delta g)%Q →
  0 ≤ i →
  (1 <= zoom)%Q →
  ∃ v : view,
    animate_view pow g i = Ok v ∧
    (new_xmin v == xmin g + 0.5 * (xmax g - xmin g)
                            * (1 - pow 2%Q (- (delta g * inject_Z i))%Q))%Q ∧
    (new_xmax v == xmax g - 0.5 * (xmax g - xmin g)
                            * (1 - pow 2%Q (- (delta g * inject_Z i))%Q))%Q ∧
    (new_ymin v == ymin g + 0.5 * (ymax g - ymin g)
                            * (1 - pow 2%Q (- (delta g * inject_Z i))%Q))%Q ∧
    (new_ymax v == ymax g - 0.5 * (ymax g - ymin g)
                            * (1 - pow 2%Q (- (delta g * inject_Z i))%Q))%Q ∧
    (new_xmax v - new_xmin v
       == (xmax g - xmin g) / pow 2%Q (delta g * inject_Z i)%Q)%Q ∧
    (new_ymax v - new_ymin v
       == (ymax g - ymin g) / pow 2%Q (delta g * inject_Z i)%Q)%Q ∧
    (new_xmin v + new_xmax v == xmin g + xmax g)%Q ∧
    (new_ymin v + new_ymax v == ymin g + ymax g)%Q ∧
    new_threshold v = threshold g + Qfloor (delta g * inject_Z i * 50) ∧
    animate pow g i =
      Kernel.evaluate_grid (resolution g) (new_xmin v) (new_xmax v)
        (new_ymin v) (new_ymax v) (new_threshold v) (yranges g) ∧
    num_frames log2 zoom (delta g) = Ok (Qfloor (log2 zoom / delta g)).
Proof.
  intros Hpos Hopp Hlog Hd Hi Hzoom.
  set (p := pow 2%Q (delta g * inject_Z i)%Q).
  assert (¬ (p == 0)%Q) as Hp.
  { intros E. pose proof (Hpos (delta g * inject_Z i)%Q) as H0.
    fold p in H0. rewrite E in H0. by apply Qlt_irrefl in H0. }
  eexists. split; [by apply animate_view_spec|].
  cbn [new_xmin new_xmax new_ymin new_ymax new_threshold].
  fold p. rewrite !Hopp. fold p.
  repeat split; try (field; exact Hp).
  - f_equal. apply int_of_float_floor.
    repeat apply Qmult_le_0_compat; try done.
    + by apply Qlt_le_weak.
    + change 0%Q with (inject_Z 0). by rewrite <- Zle_Qle.
  - unfold animate. by rewrite animate_view_spec.
  - apply num_frames_spec; auto.
Qed.

(** The animation step keeps the invariant of the viewport. *)
Lemma animate_view_preserves (pow : Q → Q → Q) (g : globals) (i : Z) :
  (∀ x, 0 < pow 2%Q x)%Q →
  (0 < delta g)%Q → 0 ≤ i →
  (xmin g < xmax g)%Q → (ymin g < ymax g)%Q → threshold g > 0 →
  ∃ v : view,
    animate_view pow g i = Ok v ∧
    (new_xmin v < new_xmax v)%Q ∧ (new_ymin v < new_ymax v)%Q ∧
    new_threshold v > 0.
Proof.
  intros Hpos Hd Hi Hx Hy Ht.
  pose proof (Hpos (delta g * inject_Z i)%Q) as Hp.
  set (p := pow 2%Q (delta g * inject_Z i)%Q) in *.
  assert (¬ (p == 0)%Q) as Hp0.
  { intros E. rewrite E in Hp. by apply Qlt_irrefl in Hp. }
  eexists. split; [by apply animate_view_spec|].
  cbn [new_xmin new_xmax new_ymin new_ymax new_threshold]. fold p.
  assert (∀ lo hi : Q, (lo < hi)%Q →
            (lo + 0.5 * (hi - lo) * (1 - 1 / p)
             < hi - 0.5 * (hi - lo) * (1 - 1 / p))%Q) as Hshrink.
  { intros lo hi Hlt.
    assert (0 < (hi - lo) / p)%Q as Hw.
    { apply Qlt_shift_div_l; [done|]. rewrite Qmult_0_l. lra. }
    assert (hi - 0.5 * (hi - lo) * (1 - 1 / p)
            == lo + 0.5 * (hi - lo) * (1 - 1 / p) + (hi - lo) / p)%Q as E
      by (field; exact Hp0).
    rewrite E.
    set (e := (lo + 0.5 * (hi - lo) * (1 - 1 / p))%Q).
    set (d := ((hi - lo) / p)%Q) in *.
    lra. }
  split; [by apply Hshrink|]. split; [by apply Hshrink|].
  rewrite int_of_float_floor.
  - assert (0 ≤ Qfloor (delta g * inject_Z i * 50)); [|lia].
    change 0 with (Qfloor 0). apply Qfloor_resp_le.
    repeat apply Qmult_le_0_compat; try done.
    + by apply Qlt_le_weak.
    + change 0%Q with (inject_Z 0). by rewrite <- Zle_Qle.
  - repeat apply Qmult_le_0_compat; try done.
    + by apply Qlt_le_weak.
    + change 0%Q with (inject_Z 0). by rewrite <- Zle_Qle.
Qed.

(** With a positive power function and bands that partition the rows,
    [animate] completes. *)
Lemma animate_completes (pow : Q → Q → Q) (g : globals) (i : Z) :
  (∀ x, 0 < pow 2%Q x)%Q →
  concat (yranges g) = seq 0 (resolution g) →
  animate pow g i = Ok (frame_img pow g i).
Proof.
  intros Hpos Hpart.
  assert (∃ img, animate pow g i = Ok img) as [img Himg].
  { unfold animate. rewrite animate_view_spec.
    - cbn. eexists. by apply evaluate_grid_spec.
    - intros E. pose proof (Hpos (delta g * inject_Z i)%Q) as H0.
      rewrite E in H0. by apply Qlt_irrefl in H0. }
  unfold frame_img. by rewrite Himg.
Qed.

Lemma new_files_lookup (pow : Q → Q → Q) (g : globals) (l : list Z) (i : Z) :
  i ∈ l → new_files pow g l !! frame_file i = Some (frame_img pow g i).
Proof.
  unfold new_files. induction l as [|j l IH]; [by intros ?%elem_of_nil|].
  intros Hi. cbn. destruct (decide (j = i)) as [->|Hne].
  - by rewrite lookup_insert_eq.
  - rewrite lookup_insert_ne by (intros E; by apply (inj frame_file) in E).
    apply IH. apply elem_of_cons in Hi as [->|]; done.
Qed.

Lemma union_insert_present {A} (m1 m2 : gmap string A) (key : string) (x v : A) :
  m1 !! key = Some v → m1 ∪ <[key := x]> m2 = m1 ∪ m2.
Proof.
  intros Hk. apply map_eq. intros j. rewrite !lookup_union.
  destruct (decide (key = j)) as [<-|Hne].
  - rewrite Hk. by destruct (<[key:=x]> m2 !! key), (m2 !! key).
  - by rewrite lookup_insert_ne.
Qed.

Lemma elem_of_range (n i : Z) : i ∈ range n ↔ 0 ≤ i < n.
Proof.
  unfold range. rewrite list_elem_of_fmap. split.
  - intros (j & -> & Hj). apply elem_of_seq in Hj. lia.
  - intros Hi. exists (Z.to_nat i). split; [lia|]. apply elem_of_seq. lia.
Qed.

(** The frame loop over the indices [a, a + m), begun with the first [a]
    entries of [frames] filled: it renders the missing frames in ascending
    order, keeps every file that exists, and fills [frames]. *)
Lemma frame_loop_spec (pow : Q → Q → Q) (g : globals) :
  (∀ x, 0 < pow 2%Q x)%Q →
  concat (yranges g) = seq 0 (resolution g) →
  ∀ (m a : nat) (w : world) (pre : list (option string)),
    frames w = pre ++ replicate m None →
    length pre = a →
    for_ (Z.of_nat <$> seq a m) (render_frame pow g) w =
    (World (files w ∪ new_files pow g (Z.of_nat <$> seq a m))
           (pre ++ (Some ∘ frame_file <$> (Z.of_nat <$> seq a m)))
           (animated w
              ++ filter (λ i, files w !! frame_file i = None)
                        (Z.of_nat <$> seq a m)),
     Ok tt).
Proof.
  intros Hpos Hpart. induction m as [|m IH]; intros a w pre Hfr Hlen.
  - destruct w as [fs fr an]. cbn in *. subst fr.
    unfold new_files. cbn. by rewrite (right_id ∅ (∪)), !app_nil_r.
  - destruct w as [fs fr an]. cbn [files frames animated] in *. subst fr.
    cbn [seq fmap list_fmap for_].
    unfold mbind at 1, Py_bind at 1.
    assert (render_frame pow g (Z.of_nat a)
              (World fs (pre ++ replicate (S m) None) an) =
            (World (if decide (fs !! frame_file (Z.of_nat a) = None)
                    then <[frame_file (Z.of_nat a) :=
                             frame_img pow g (Z.of_nat a)]> fs
                    else fs)
                   ((pre ++ [Some (frame_file (Z.of_nat a))])
                      ++ replicate m None)
                   (if decide (fs !! frame_file (Z.of_nat a) = None)
                    then an ++ [Z.of_nat a] else an),
             Ok tt)) as ->.
    { unfold render_frame, mbind, Py_bind, get, put, modify, lift.
      rewrite (animate_completes pow g _ Hpos Hpart).
      assert (Kernel.setitem (pre ++ replicate (S m) None)
                (Z.to_nat (Z.of_nat a)) (Some (frame_file (Z.of_nat a))) =
              Ok ((pre ++ [Some (frame_file (Z.of_nat a))])
                    ++ replicate m None)) as Hset.
      { unfold Kernel.setitem. rewrite Nat2Z.id.
        rewrite decide_True by (rewrite length_app; simpl; lia).
        f_equal. rewrite <- (Nat.add_0_r a), <- Hlen.
        rewrite insert_app_r. cbn. by rewrite <- app_assoc. }
      cbn [files frames animated].
      case_decide; unfold log_animate, savefig, set_frames, mret, Py_ret;
        cbn [files frames animated]; rewrite Hset; done. }
    rewrite (IH (S a) _ (pre ++ [Some (frame_file (Z.of_nat a))]));
      [|done|rewrite length_app; simpl; lia].
    cbn [files frames animated].
    assert (∀ j, j ∈ Z.of_nat <$> seq (S a) m →
                 frame_file j ≠ frame_file (Z.of_nat a)) as Hfresh.
    { intros j (j' & -> & Hj)%list_elem_of_fmap E.
      apply (inj frame_file) in E. apply elem_of_seq in Hj. lia. }
    f_equal. unfold new_files. cbn [fmap list_fmap list_to_map fst snd].
    fold (new_files pow g (Z.of_nat <$> seq (S a) m)).
    case_decide as Hmiss.
    + f_equal.
      * rewrite <- insert_union_l. by rewrite insert_union_r.
      * by rewrite <- app_assoc.
      * rewrite filter_cons_True by done. rewrite <- app_assoc. f_equal. cbn.
        f_equal. apply filter_ext_in. intros j Hj.
        rewrite lookup_insert_ne; [done|]. intros E. by apply (Hfresh j).
    + f_equal.
      * destruct (fs !! frame_file (Z.of_nat a)) as [v|] eqn:E; [|done].
        symmetry. by eapply union_insert_present.
      * by rewrite <- app_assoc.
      * by rewrite filter_cons_False.
Qed.

Lemma render_frames_spec (pow : Q → Q → Q) (g : globals) (n : Z) (w : world) :
  (∀ x, 0 < pow 2%Q x)%Q →
  concat (yranges g) = seq 0 (resolution g) →
  render_frames pow g n w =
  (World (files w ∪ new_files pow g (range n))
         (Some ∘ frame_file <$> range n)
         (animated w
            ++ filter (λ i, files w !! frame_file i = None) (range n)),
   Ok tt).
Proof.
  intros Hpos Hpart. unfold render_frames, mbind, Py_bind, modify.
  by rewrite (frame_loop_spec pow g Hpos Hpart (Z.to_nat n) 0 _ []).
Qed.

(** C4. With a positive power function and bands that partition the
    rows, the frame loop over [0, n) completes. It calls [animate] and
    saves an artifact for frame i exactly when no file exists at
    [frame_file i], in ascending order of i; it keeps every file that
    exists; afterwards every frame below n has a file, and [frames] lists
    the locations of all frames in ascending order. A second run with
    n2 >= n frames on the resulting files therefore renders only frames
    i with n <= i < n2. *)
Theorem frame_cache_resumable (pow : Q → Q → Q) (g : globals) (n : Z)
    (w : world) :
  (∀ x, 0 < pow 2%Q x)%Q →
  concat (yranges g) = seq 0 (resolution g) →
  ∃ (w' : world) (rendered : list Z),
    render_frames pow g n w = (w', Ok tt) ∧
    animated w' = animated w ++ rendered ∧
    rendered = filter (λ i, files w !! frame_file i = None) (range n) ∧
    (∀ i, 0 ≤ i < n →
       (i ∈ rendered ↔ files w !! frame_file i = None) ∧
       (files w !! frame_file i = None →
        files w' !! frame_file i = Some (frame_img pow g i)) ∧
       is_Some (files w' !! frame_file i)) ∧
    (∀ name img, files w !! name = Some img → files w' !! name = Some img) ∧
    frames w' = Some ∘ frame_file <$> range n ∧
    ∀ n2 : Z, n ≤ n2 →
      ∃ (w'' : world) (rendered2 : list Z),
        render_frames pow g n2 w' = (w'', Ok tt) ∧
        animated w'' = animated w' ++ rendered2 ∧
        (∀ i, i ∈ rendered2 →
           n ≤ i < n2 ∧ files w' !! frame_file i = None) ∧
        frames w'' = Some ∘ frame_file <$> range n2.
Proof.
  intros Hpos Hpart.
  eexists _, _. split; [by apply render_frames_spec|].
  cbn [files frames animated].
  assert (∀ i, 0 ≤ i < n →
            is_Some ((files w ∪ new_files pow g (range n)) !! frame_file i))
    as Hall.
  { intros i Hi. rewrite lookup_union.
    rewrite (new_files_lookup pow g (range n) i) by by apply elem_of_range.
    by destruct (files w !! frame_file i). }
  split; [done|]. split; [done|]. split; [|split; [|split; [done|]]].
  - intros i Hi. split; [|split; [|by apply Hall]].
    + rewrite list_elem_of_filter, elem_of_range. tauto.
    + intros Hnone. rewrite lookup_union, Hnone.
      rewrite (new_files_lookup pow g (range n) i) by by apply elem_of_range.
      done.
  - intros name img Hname. by apply lookup_union_Some_l.
  - intros n2 Hn2. eexists _, _. split; [by apply render_frames_spec|].
    cbn [files frames animated]. split; [done|]. split; [|done].
    intros i (Hnone & Hi%elem_of_range)%list_elem_of_filter.
    split; [|done].
    destruct (decide (i < n)) as [Hlt|]; [|lia].
    destruct (Hall i ltac:(lia)) as [v Hv]. congruence.
Qed.

Lemma frame_cache_resumable_witness :
  ∃ (w' : world) (rendered : list Z),
    render_frames pow_int small_globals 3 small_world = (w', Ok tt) ∧
    animated w' = animated small_world ++ rendered ∧
    rendered = filter (λ i, files small_world !! frame_file i = None)
                      (range 3) ∧
    (∀ i, 0 ≤ i < 3 →
       (i ∈ rendered ↔ files small_world !! frame_file i = None) ∧
       (files small_world !! frame_file i = None →
        files w' !! frame_file i = Some (frame_img pow_int small_globals i)) ∧
       is_Some (files w' !! frame_file i)) ∧
    (∀ name img, files small_world !! name = Some img →
                 files w' !! name = Some img) ∧
    frames w' = Some ∘ frame_file <$> range 3 ∧
    ∀ n2 : Z, 3 ≤ n2 →
      ∃ (w'' : world) (rendered2 : list Z),
        render_frames pow_int small_globals n2 w' = (w'', Ok tt) ∧
        animated w'' = animated w' ++ rendered2 ∧
        (∀ i, i ∈ rendered2 →
           3 ≤ i < n2 ∧ files w' !! frame_file i = None) ∧
        frames w'' = Some ∘ frame_file <$> range n2.
Proof.
  apply (frame_cache_resumable pow_int small_globals 3 small_world).
  - exact pow_int_pos.
  - reflexivity.
Defined.

(** The run of the model on the small configuration: frames 0 and 2 are
    rendered, frame 1 is kept. *)
Example small_run :
  let '(w', r) := render_frames pow_int small_globals 3 small_world in
  r = Ok tt ∧ animated w' = [0; 2] ∧
  files w' !! frame_file 1 = Some [] ∧
  files w' !! frame_file 2 = Some [[1; 1]; [1; 1]]%Q ∧
  frames w' = [Some "AnimatedFrames/frame0.png";
               Some "AnimatedFrames/frame1.png";
               Some "AnimatedFrames/frame2.png"].
Proof. vm_compute. done. Qed.

Lemma num_processes_pos (cpu_count : Z) :
  1 ≤ cpu_count → 1 ≤ Kernel.num_processes cpu_count.
Proof.
  intros Hc. unfold Kernel.num_processes, int_of_float. cbn.
  rewrite Z.quot_div_nonneg by lia. apply Z.div_le_lower_bound; lia.
Qed.

(** The main program on a machine with at least one processor, for a
    positive delta and a zoom target whose logarithm is not negative:
    it completes and hands the locations of all frames, in ascending
    order, to the assembler. *)
Lemma main_spec (pow : Q → Q → Q) (log2 : Q → Q) (s : settings) (w : world) :
  (∀ x, 0 < pow 2%Q x)%Q →
  1 ≤ cpu_count s →
  (0 < s_delta s)%Q →
  (0 <= log2 (zoom s))%Q →
  ∃ w' : world,
    main pow log2 s w =
    (w', Ok (Some ∘ frame_file
               <$> range (Qfloor (log2 (zoom s) / s_delta s)))) ∧
    ∀ name img, files w !! name = Some img → files w' !! name = Some img.
Proof.
  intros Hpos Hcpu Hd Hlog.
  destruct (array_split_partition (seq 0 (s_resolution s))
              (Kernel.num_processes (cpu_count s)))
    as (bands & Hsplit & Hpart & _).
  { pose proof (num_processes_pos _ Hcpu). lia. }
  unfold main, mbind, Py_bind, lift, get.
  rewrite Hsplit, (num_frames_spec _ _ _ Hd Hlog).
  rewrite render_frames_spec by done.
  eexists. split; [done|]. cbn [files].
  intros name img Hname. by apply lookup_union_Some_l.
Qed.

End AnimationFacts.

(** * Further properties of the code *)

(** ** The kernel *)

Section KernelMore.
Import Kernel.

Lemma find_ext {A} (f g : A → bool) (l : list A) :
  (∀ x, f x = g x) → find f l = find g l.
Proof.
  intros Hfg. induction l as [|x l IH]; [done|].
  simpl. by rewrite Hfg, IH.
Qed.

Lemma orbit_conj (c : complex) (n : nat) :
  Ceq (orbit (Cconj c) n) (Cconj (orbit c n)).
Proof.
  induction n as [|n [IHr IHi]]; [done|].
  split; simpl in *; rewrite IHr, IHi; ring.
Qed.

Lemma exceeds_conj (c : complex) (n : nat) :
  exceeds (Cconj c) n = exceeds c n.
Proof.
  unfold exceeds, norm2. apply Qgt_bool_proper.
  destruct (orbit_conj c n) as [Hr Hi]. rewrite Hr, Hi. simpl. ring.
Qed.

(** X1. The kernel gives a point and its complex conjugate the same
    escape count, under every threshold. *)
Theorem mandel_conjugate (c : complex) (threshold : Z) :
  mandel (Cconj c) threshold = mandel c threshold.
Proof.
  rewrite !mandel_find.
  by rewrite (find_ext (exceeds (Cconj c)) (exceeds c)) by apply exceeds_conj.
Qed.

Lemma Qsquare_nonneg (a : Q) : (0 <= a * a)%Q.
Proof.
  destruct a as [n d]. unfold Qle. simpl. rewrite Z.mul_1_r. apply Z.square_nonneg.
Qed.

(** The iterates of a point of the closed disc of radius 1/4 stay in the
    closed disc of radius 1/2. *)
Lemma orbit_small_disc (c : complex) (n : nat) :
  (real c * real c + imag c * imag c <= 1 # 16)%Q →
  (norm2 (orbit c n) <= 1 # 4)%Q.
Proof.
  intros Hc. induction n as [|n IH]; [done|].
  unfold norm2 in *. cbn [orbit Cadd Csqr real imag].
  set (x := real (orbit c n)) in *. set (y := imag (orbit c n)) in *.
  set (a := real c) in *. set (b := imag c) in *.
  assert (x ^ 2 == x * x)%Q as Ex by (simpl; ring).
  assert (y ^ 2 == y * y)%Q as Ey by (simpl; ring).
  rewrite Ex, Ey in IH.
  assert (((x ^ 2 - y ^ 2 + a) ^ 2 + (2 * x * y + b) ^ 2 ==
           (x * x + y * y) * (x * x + y * y) + (a * a + b * b)
           + 2 * ((x * x - y * y) * a + 2 * x * y * b))%Q) as ->
    by (simpl; ring).
  assert (0 <= x * x)%Q as Hx2 by apply Qsquare_nonneg.
  assert (0 <= y * y)%Q as Hy2 by apply Qsquare_nonneg.
  assert ((x * x + y * y) * (x * x + y * y) <= 1 # 16)%Q as Hw.
  { set (s := (x * x + y * y)%Q) in *.
    assert (0 <= s)%Q as Hs by (unfold s; lra).
    assert (0 <= ((1 # 4) - s) * ((1 # 4) + s))%Q as Hp
      by (apply Qmult_le_0_compat; lra).
    assert (((1 # 4) - s) * ((1 # 4) + s) == (1 # 16) - s * s)%Q as Er
      by ring.
    rewrite Er in Hp. set (ss := (s * s)%Q) in *. lra. }
  assert (2 * ((x * x - y * y) * a + 2 * x * y * b)
          <= (x * x + y * y) * (x * x + y * y) + (a * a + b * b))%Q as Hm.
  { set (u := (x * x - y * y)%Q). set (v := (2 * x * y)%Q).
    assert (0 <= (u - a) * (u - a))%Q as H1 by apply Qsquare_nonneg.
    assert (0 <= (v - b) * (v - b))%Q as H2 by apply Qsquare_nonneg.
    assert ((x * x + y * y) * (x * x + y * y) + (a * a + b * b)
            - 2 * (u * a + v * b)
            == (u - a) * (u - a) + (v - b) * (v - b))%Q as Er
      by (unfold u, v; ring).
    assert (0 <= (x * x + y * y) * (x * x + y * y) + (a * a + b * b)
                 - 2 * (u * a + v * b))%Q as H3.
    { rewrite Er. set (p1 := ((u - a) * (u - a))%Q) in *.
      set (p2 := ((v - b) * (v - b))%Q) in *. lra. }
    set (t1 := ((x * x + y * y) * (x * x + y * y))%Q) in *.
    set (t2 := (u * a + v * b)%Q) in *. lra. }
  set (t1 := ((x * x + y * y) * (x * x + y * y))%Q) in *.
  set (t2 := ((x * x - y * y) * a + 2 * x * y * b)%Q) in *.
  set (t3 := (a * a + b * b)%Q) in *. lra.
Qed.

(** X2. A point of the closed disc of radius 1/4 around the origin never
    escapes: the kernel returns 0 under every threshold. *)
Theorem mandel_small_disc (c : complex) (threshold : Z) :
  (real c * real c + imag c * imag c <= 1 # 16)%Q →
  mandel c threshold = 0.
Proof.
  intros Hc. rewrite mandel_find.
  destruct (find _ _) as [n|] eqn:E; [|done].
  apply find_seq_Some in E as (_ & E & _).
  unfold exceeds in E. apply Qgt_bool_true in E.
  pose proof (orbit_small_disc c n Hc) as Hn. lra.
Qed.

Lemma mandel_small_disc_witness : mandel (Complex (1 # 5) (-1 # 10)) 1000 = 0.
Proof. apply mandel_small_disc. reflexivity || (vm_compute; discriminate). Defined.

End KernelMore.

(** ** The tile evaluator and the grid evaluator *)

Section GridMore.
Import Kernel.

Lemma lookup_concat_rows {A} (rows : list (list A)) (cols j x : nat) (r : list A) :
  Forall (λ r, length r = cols) rows →
  rows !! j = Some r → (x < cols)%nat →
  concat rows !! (j * cols + x)%nat = r !! x.
Proof.
  intros Hrows. revert j. induction Hrows as [|r0 rows Hr0 _ IH]; intros j Hj Hx.
  - by rewrite lookup_nil in Hj.
  - destruct j as [|j]; cbn in *.
    + injection Hj as ->. apply lookup_app_l. lia.
    + rewrite lookup_app_r by lia.
      replace (cols + j * cols + x - length r0)%nat with (j * cols + x)%nat
        by lia.
      by apply IH.
Qed.

(** X3. For a band of rows inside the grid, in any order and with
    repetitions allowed, [mandelbrot_for_parallel] returns
    resolution * len(yrange) values, and the value at position
    j * resolution + x is the escape count of the pixel in column x of
    the j-th row of the band. *)
Theorem band_layout (resolution : nat) (xmin xmax ymin ymax : Q)
    (threshold : Z) (yrange : list nat) :
  Forall (λ y, y < resolution)%nat yrange →
  ∃ out : list Q,
    mandelbrot_for_parallel resolution xmin xmax ymin ymax threshold yrange
      = Ok out ∧
    length out = (resolution * length yrange)%nat ∧
    ∀ j y x, yrange !! j = Some y → (x < resolution)%nat →
      out !! (j * resolution + x)%nat =
      Some (pixel resolution xmin xmax ymin ymax threshold y x).
Proof.
  intros Hys. eexists. split; [by apply band_spec|].
  set (row := λ y, pixel resolution xmin xmax ymin ymax threshold y
                     <$> seq 0 resolution).
  assert (Forall (λ r, length r = resolution) (row <$> yrange)) as Hrows.
  { apply Forall_fmap, Forall_forall. intros y _. cbn. unfold row.
    by rewrite length_fmap, length_seq. }
  split.
  - rewrite (length_concat_rows _ resolution) by done.
    rewrite length_fmap. lia.
  - intros j y x Hj Hx.
    rewrite (lookup_concat_rows _ resolution j x (row y)); [|done| |done].
    + unfold row. rewrite list_lookup_fmap, lookup_seq_lt by done. done.
    + by rewrite list_lookup_fmap, Hj.
Qed.

Lemma band_layout_witness :
  ∃ out : list Q,
    mandelbrot_for_parallel 3 8 11 (-1.5) 1.5 70 [2; 0; 2]%nat = Ok out ∧
    length out = (3 * length [2; 0; 2]%nat)%nat ∧
    ∀ j y x, [2; 0; 2]%nat !! j = Some y → (x < 3)%nat →
      out !! (j * 3 + x)%nat = Some (pixel 3 8 11 (-1.5) 1.5 70 y x).
Proof.
  apply band_layout. repeat constructor.
Defined.

(** X4. The grid evaluator places the bands' rows by position, not by row
    index: for bands of rows inside the grid that hold resolution rows in
    all, in whatever order, it returns without error the field whose j-th
    row is the row of the j-th index of the concatenated bands; when the
    bands hold another number of rows, [np.reshape] raises ValueError. *)
Theorem bands_placed_by_position (resolution : nat) (xmin xmax ymin ymax : Q)
    (threshold : Z) (bands : list (list nat)) :
  Forall (λ y, y < resolution)%nat (concat bands) →
  evaluate_grid resolution xmin xmax ymin ymax threshold bands =
  if decide (length (concat bands) = resolution)
  then Ok ((λ y, pixel resolution xmin xmax ymin ymax threshold y
                   <$> seq 0 resolution) <$> concat bands)
  else Raise ValueError.
Proof.
  intros Hys. unfold evaluate_grid.
  rewrite collect_spec by done. cbn [mbind result_bind].
  set (row := λ y, pixel resolution xmin xmax ymin ymax threshold y
                     <$> seq 0 resolution).
  assert (Forall (λ r, length r = resolution) (row <$> concat bands))
    as Hrows.
  { apply Forall_fmap, Forall_forall. intros y _. cbn. unfold row.
    by rewrite length_fmap, length_seq. }
  assert (length (concat (row <$> concat bands))
          = (length (concat bands) * resolution)%nat) as Hlen.
  { rewrite (length_concat_rows _ resolution) by done.
    by rewrite length_fmap. }
  unfold reshape. rewrite Hlen.
  destruct (decide (length (concat bands) = resolution)) as [Hn|Hn].
  - rewrite decide_True by (by rewrite Hn).
    rewrite <- Hn at 1. rewrite <- (length_fmap row (concat bands)).
    by rewrite rows_of_concat.
  - rewrite decide_False; [done|]. intros E.
    destruct resolution as [|r].
    + destruct (concat bands) as [|y ys]; [done|].
      apply Forall_cons in Hys as [Hy _]. lia.
    + apply Nat.mul_cancel_r in E; done.
Qed.

Lemma bands_placed_by_position_witness :
  evaluate_grid 2 8 11 (-1.5) 1.5 70 [[1]; [0]]%nat =
  if decide (length (concat [[1]; [0]]%nat) = 2%nat)
  then Ok ((λ y, pixel 2 8 11 (-1.5) 1.5 70 y <$> seq 0 2)
             <$> concat [[1]; [0]]%nat)
  else Raise ValueError.
Proof.
  apply (bands_placed_by_position 2 8 11 (-1.5) 1.5 70 [[1]; [0]]%nat).
  repeat constructor.
Defined.

(** Two bands in the wrong order give the rows in the wrong order, and a
    missing band gives an error. *)
Example evaluate_grid_swapped :
  evaluate_grid 3 (-2) 1 (-1.5) 1.5 4 [[2]; [0; 1]]%nat =
    Ok [[1; 2; 2]; [1; 2; 2]; [0; 0; 3]]%Q ∧
  evaluate_grid 3 (-2) 1 (-1.5) 1.5 4 [[1]; [0]; [2]]%nat =
    Ok [[0; 0; 3]; [1; 2; 2]; [1; 2; 2]]%Q.
Proof. vm_compute. done. Qed.

End GridMore.

(** ** The click handler *)

Section InteractiveMore.
Import Interactive.

(** Lines 79-85 never raise and leave the bounds alone. *)
Lemma onclick_zoom_total (cfg : config) (event : MouseEvent) (g : globals) :
  ∃ g1 : globals,
    onclick_zoom cfg event g = (g1, Ok tt) ∧
    xmin g1 = xmin g ∧ xmax g1 = xmax g ∧
    ymin g1 = ymin g ∧ ymax g1 = ymax g ∧
    zoom g1 = (if decide (button event = 1) then zoom g * 2
               else if decide (button event = 3) then Z.quot (zoom g) 2
               else zoom g) ∧
    threshold g1 =
      (if decide (button event = 1) then threshold g + add_thresh cfg
       else if decide (button event = 3) then
         if decide (threshold g > add_thresh cfg)
         then threshold g - add_thresh cfg else threshold g
       else threshold g).
Proof.
  destruct (decide (button event = 1)) as [H1|H1].
  - rewrite onclick_zoom_left by done. eexists. split; [done|]. done.
  - destruct (decide (button event = 3)) as [H3|H3].
    + rewrite onclick_zoom_right by done. cbv zeta.
      eexists. split; [done|]. by case_decide.
    + unfold onclick_zoom. rewrite !decide_False by done.
      eexists. split; [done|]. done.
Qed.

Lemma clicks_cons (cfg : config) (event : MouseEvent)
    (events : list MouseEvent) (g : globals) :
  clicks cfg (event :: events) g =
  ((clicks cfg events (onclick cfg event g).1).1,
   (onclick cfg event g).2 :: (clicks cfg events (onclick cfg event g).1).2).
Proof.
  cbn [clicks]. destruct (onclick cfg event g) as [g1 r]. cbn [fst snd].
  by destruct (clicks cfg events g1).
Qed.

(** X10. Whatever buttons are pressed and whether or not the handler
    raises, if [add_thresh] is not negative the threshold stays positive
    and the zoom stays 0 or a power of two, so that [int(zoom/2)] halves a
    zoom above 1 exactly. *)
Theorem clicks_keep_threshold_and_zoom (cfg : config)
    (events : list MouseEvent) (g : globals) :
  0 ≤ add_thresh cfg →
  threshold g > 0 →
  (zoom g = 0 ∨ ∃ n : Z, 0 ≤ n ∧ zoom g = 2 ^ n) →
  threshold (clicks cfg events g).1 > 0 ∧
  (zoom (clicks cfg events g).1 = 0 ∨
   ∃ n : Z, 0 ≤ n ∧ zoom (clicks cfg events g).1 = 2 ^ n).
Proof.
  intros Hadd. revert g. induction events as [|e es IH]; intros g Ht Hz.
  - cbn. done.
  - rewrite clicks_cons. cbn [fst]. apply IH.
    + destruct (onclick_keeps cfg e g) as [_ ->].
      destruct (onclick_zoom_total cfg e g)
        as (g1 & Hzoom & _ & _ & _ & _ & _ & Ht1).
      rewrite Hzoom. cbn [fst]. rewrite Ht1. repeat case_decide; lia.
    + destruct (onclick_keeps cfg e g) as [-> _].
      destruct (onclick_zoom_total cfg e g)
        as (g1 & Hzoom & _ & _ & _ & _ & Hz1 & _).
      rewrite Hzoom. cbn [fst]. rewrite Hz1.
      destruct Hz as [->|(n & Hn & ->)].
      * left. by repeat case_decide.
      * repeat case_decide.
        -- right. exists (n + 1). split; [lia|]. rewrite Z.pow_add_r by lia. lia.
        -- destruct (decide (n = 0)) as [->|Hn0]; [by left|right].
           exists (n - 1). split; [lia|].
           replace n with (n - 1 + 1) at 1 by lia.
           rewrite Z.pow_add_r by lia. change (2 ^ 1) with 2.
           by apply Z.quot_mul.
        -- right. by exists n.
Qed.

Lemma clicks_keep_threshold_and_zoom_witness :
  threshold (clicks small_config [Event 3 1 1; Event 1 1 1] main_globals).1
    > 0 ∧
  (zoom (clicks small_config [Event 3 1 1; Event 1 1 1] main_globals).1 = 0 ∨
   ∃ n : Z, 0 ≤ n ∧
     zoom (clicks small_config [Event 3 1 1; Event 1 1 1] main_globals).1
       = 2 ^ n).
Proof.
  apply (clicks_keep_threshold_and_zoom small_config
           [Event 3 1 1; Event 1 1 1] main_globals).
  - cbn. lia.
  - cbn. lia.
  - right. exists 0. split; [lia | reflexivity].
Defined.

(** X11. On a machine with at least one processor the main program draws
    its first plot without error: the rows 0..2799 are split into
    int(1.5*cpu_count) bands that partition them, and the field drawn is
    the 2800 x 2800 grid of the viewport (-2, 1, -1.5, 1.5) under the
    threshold 70. *)
Theorem first_plot (cpu_count : Z) :
  1 ≤ cpu_count →
  ∃ cfg : config,
    main cpu_count =
      Ok (cfg, main_globals, Kernel.grid 2800 (-2) 1 (-1.5) 1.5 70) ∧
    resolution cfg = 2800%nat ∧ add_thresh cfg = 50 ∧
    concat (yranges cfg) = seq 0 2800 ∧
    length (yranges cfg) = Z.to_nat (Kernel.num_processes cpu_count).
Proof.
  intros Hcpu.
  destruct (array_split_partition (seq 0 2800)
              (Kernel.num_processes cpu_count))
    as (bands & Hsplit & Hpart & Hlen).
  { pose proof (num_processes_pos _ Hcpu). lia. }
  exists (Config 2800 50 bands).
  split; [|by repeat split].
  unfold main, main_config. rewrite Hsplit.
  unfold mbind, mret, result_bind, result_ret.
  change (resolution (Config 2800 50 bands)) with 2800%nat.
  change (yranges (Config 2800 50 bands)) with bands.
  change (xmin main_globals) with (-2)%Q.
  change (xmax main_globals) with 1%Q.
  change (ymin main_globals) with (-1.5)%Q.
  change (ymax main_globals) with 1.5%Q.
  change (threshold main_globals) with 70.
  destruct (evaluate_grid_spec 2800 (-2) 1 (-1.5) 1.5 70 bands Hpart)
    as [_ ->].
  reflexivity.
Qed.

Lemma first_plot_witness :
  ∃ cfg : config,
    main 8 = Ok (cfg, main_globals, Kernel.grid 2800 (-2) 1 (-1.5) 1.5 70) ∧
    resolution cfg = 2800%nat ∧ add_thresh cfg = 50 ∧
    concat (yranges cfg) = seq 0 2800 ∧
    length (yranges cfg) = Z.to_nat (Kernel.num_processes 8).
Proof. apply first_plot. lia. Defined.

End InteractiveMore.

(** ** The frames of the animation *)

Section AnimationMore.
Import Animation.

Lemma int_of_float_0 (x : Q) : (x == 0)%Q → int_of_float x = 0.
Proof.
  destruct x as [n d]. unfold Qeq, int_of_float. simpl.
  rewrite Z.mul_1_r. intros ->. done.
Qed.

Lemma int_of_float_mono (x y : Q) :
  (0 <= x)%Q → (x <= y)%Q → int_of_float x ≤ int_of_float y.
Proof.
  intros Hx Hxy.
  rewrite !int_of_float_floor by (try done; by eapply Qle_trans).
  by apply Qfloor_resp_le.
Qed.

(** [animate_view] raises only at a division by a power that is 0. *)
Lemma animate_view_inv (pow : Q → Q → Q) (g : globals) (i : Z) (v : view) :
  animate_view pow g i = Ok v →
  ¬ (pow 2%Q (delta g * inject_Z i)%Q == 0)%Q ∧
  new_threshold v = threshold g + int_of_float (delta g * inject_Z i * 50).
Proof.
  intros Hv.
  destruct (Qeq_bool (pow 2%Q (delta g * inject_Z i)%Q) 0) eqn:E.
  - apply Qeq_bool_iff in E. unfold animate_view in Hv.
    rewrite truediv_zero in Hv by done. done.
  - assert (¬ (pow 2%Q (delta g * inject_Z i)%Q == 0)%Q) as Hp.
    { intros Hp. apply Qeq_bool_iff in Hp. congruence. }
    split; [done|]. rewrite animate_view_spec in Hv by done.
    by injection Hv as <-.
Qed.

(** X12. Frame 0 of the animation shows the starting configuration: with
    a power function for which 2**0 is 1, [animate_view] at i = 0 returns
    the starting bounds and the starting threshold. *)
Theorem frame_0_is_start (pow : Q → Q → Q) (g : globals) :
  (∀ x, x == 0 → pow 2%Q x == 1)%Q →
  ∃ v : view,
    animate_view pow g 0 = Ok v ∧
    (new_xmin v == xmin g)%Q ∧ (new_xmax v == xmax g)%Q ∧
    (new_ymin v == ymin g)%Q ∧ (new_ymax v == ymax g)%Q ∧
    new_threshold v = threshold g.
Proof.
  intros Hpow.
  assert (pow 2%Q (delta g * inject_Z 0)%Q == 1)%Q as Hp
    by (apply Hpow; ring).
  eexists. split.
  - apply animate_view_spec. rewrite Hp. discriminate.
  - cbn [new_xmin new_xmax new_ymin new_ymax new_threshold].
    rewrite !Hp. repeat split; try (field; discriminate).
    rewrite int_of_float_0; [lia|ring].
Qed.

Lemma pow_int_0 (x : Q) : (x == 0)%Q → (pow_int 2%Q x == 1)%Q.
Proof. intros Hx. unfold pow_int. by rewrite int_of_float_0. Qed.

Lemma frame_0_is_start_witness :
  ∃ v : view,
    animate_view pow_int test_globals 0 = Ok v ∧
    (new_xmin v == xmin test_globals)%Q ∧
    (new_xmax v == xmax test_globals)%Q ∧
    (new_ymin v == ymin test_globals)%Q ∧
    (new_ymax v == ymax test_globals)%Q ∧
    new_threshold v = threshold test_globals.
Proof. apply frame_0_is_start. exact pow_int_0. Defined.

(** X13. The iteration budget never shrinks along the animation: for a
    delta that is not negative and frame indices 0 <= i <= j, the
    threshold of frame i is at least the starting threshold and at most
    the threshold of frame j. *)
Theorem frame_threshold_monotone (pow : Q → Q → Q) (g : globals) (i j : Z)
    (vi vj : view) :
  (0 <= delta g)%Q →
  0 ≤ i → i ≤ j →
  animate_view pow g i = Ok vi →
  animate_view pow g j = Ok vj →
  threshold g ≤ new_threshold vi ∧ new_threshold vi ≤ new_threshold vj.
Proof.
  intros Hd Hi Hij Hvi Hvj.
  apply animate_view_inv in Hvi as [_ ->].
  apply animate_view_inv in Hvj as [_ ->].
  assert (0 <= inject_Z i)%Q as Hi'
    by (change 0%Q with (inject_Z 0); by rewrite <- Zle_Qle).
  assert (inject_Z i <= inject_Z j)%Q as Hij' by (by rewrite <- Zle_Qle).
  assert (0 <= delta g * inject_Z i * 50)%Q as H0
    by (repeat apply Qmult_le_0_compat; done).
  assert (delta g * inject_Z i * 50 <= delta g * inject_Z j * 50)%Q as Hle.
  { apply Qmult_le_compat_r; [|done].
    rewrite !(Qmult_comm (delta g)). by apply Qmult_le_compat_r. }
  pose proof (int_of_float_mono _ _ H0 Hle) as Hm.
  pose proof (int_of_float_mono 0 _ ltac:(done) H0) as Hm0.
  change (int_of_float 0) with 0 in Hm0. lia.
Qed.

Lemma frame_threshold_monotone_witness :
  threshold test_globals
    ≤ new_threshold (View (-25 # 20) (5 # 20) (-15000 # 20000)
                          (15000 # 20000) 120) ∧
  new_threshold (View (-25 # 20) (5 # 20) (-15000 # 20000)
                      (15000 # 20000) 120)
    ≤ new_threshold (View (-25 # 20) (5 # 20) (-15000 # 20000)
                          (15000 # 20000) 145).
Proof.
  apply (frame_threshold_monotone pow_int test_globals 2 3);
    [discriminate | lia | lia | reflexivity | reflexivity].
Defined.

(** X14. The frames zoom in: with a power function that is positive and
    not decreasing in the exponent, a delta that is not negative and
    starting bounds xmin <= xmax, ymin <= ymax, the window of frame j lies
    inside the window of frame i whenever i <= j. *)
Theorem frame_windows_nested (pow : Q → Q → Q) (g : globals) (i j : Z) :
  (∀ x, 0 < pow 2%Q x)%Q →
  (∀ x y, x <= y → pow 2%Q x <= pow 2%Q y)%Q →
  (0 <= delta g)%Q →
  (xmin g <= xmax g)%Q → (ymin g <= ymax g)%Q →
  i ≤ j →
  ∃ vi vj : view,
    animate_view pow g i = Ok vi ∧ animate_view pow g j = Ok vj ∧
    (new_xmin vi <= new_xmin vj)%Q ∧ (new_xmax vj <= new_xmax vi)%Q ∧
    (new_ymin vi <= new_ymin vj)%Q ∧ (new_ymax vj <= new_ymax vi)%Q.
Proof.
  intros Hpos Hmono Hd Hx Hy Hij.
  pose proof (Hpos (delta g * inject_Z i)%Q) as Hpi.
  pose proof (Hpos (delta g * inject_Z j)%Q) as Hpj.
  assert (pow 2%Q (delta g * inject_Z i)%Q
          <= pow 2%Q (delta g * inject_Z j)%Q)%Q as Hp.
  { apply Hmono. rewrite !(Qmult_comm (delta g)).
    apply Qmult_le_compat_r; [|done]. by rewrite <- Zle_Qle. }
  set (pi := pow 2%Q (delta g * inject_Z i)%Q) in *.
  set (pj := pow 2%Q (delta g * inject_Z j)%Q) in *.
  assert (1 / pj <= 1 / pi)%Q as Hr.
  { apply Qle_shift_div_r; [done|].
    apply (Qle_trans _ (1 / pi * pi)).
    - apply Qle_lteq. right. field. intros E. rewrite E in Hpi.
      by apply Qlt_irrefl in Hpi.
    - rewrite !(Qmult_comm (1 / pi)).
      apply Qmult_le_compat_r; [done|].
      apply Qle_shift_div_l; [done|]. rewrite Qmult_0_l. discriminate. }
  exists (View (xmin g + 0.5 * (xmax g - xmin g) * (1 - 1 / pi))
               (xmax g - 0.5 * (xmax g - xmin g) * (1 - 1 / pi))
               (ymin g + 0.5 * (ymax g - ymin g) * (1 - 1 / pi))
               (ymax g - 0.5 * (ymax g - ymin g) * (1 - 1 / pi))
               (threshold g + int_of_float (delta g * inject_Z i * 50))),
         (View (xmin g + 0.5 * (xmax g - xmin g) * (1 - 1 / pj))
               (xmax g - 0.5 * (xmax g - xmin g) * (1 - 1 / pj))
               (ymin g + 0.5 * (ymax g - ymin g) * (1 - 1 / pj))
               (ymax g - 0.5 * (ymax g - ymin g) * (1 - 1 / pj))
               (threshold g + int_of_float (delta g * inject_Z j * 50))).
  split; [apply animate_view_spec; intros E; fold pi in E; rewrite E in Hpi;
          by apply Qlt_irrefl in Hpi|].
  split; [apply animate_view_spec; intros E; fold pj in E; rewrite E in Hpj;
          by apply Qlt_irrefl in Hpj|].
  cbn [new_xmin new_xmax new_ymin new_ymax].
  set (ri := (1 / pi)%Q) in *. set (rj := (1 / pj)%Q) in *.
  assert (∀ w : Q, (0 <= w → 0.5 * w * (1 - ri) <= 0.5 * w * (1 - rj))%Q)
    as Hw.
  { intros w Hw0. rewrite !(Qmult_comm (0.5 * w)).
    apply Qmult_le_compat_r; [lra|].
    apply Qmult_le_0_compat; [discriminate|done]. }
  pose proof (Hw (xmax g - xmin g)%Q ltac:(lra)) as Hwx.
  pose proof (Hw (ymax g - ymin g)%Q ltac:(lra)) as Hwy.
  set (ax := (0.5 * (xmax g - xmin g) * (1 - ri))%Q) in *.
  set (bx := (0.5 * (xmax g - xmin g) * (1 - rj))%Q) in *.
  set (ay := (0.5 * (ymax g - ymin g) * (1 - ri))%Q) in *.
  set (by_ := (0.5 * (ymax g - ymin g) * (1 - rj))%Q) in *.
  repeat split; lra.
Qed.

Lemma int_of_float_ceiling (x : Q) : (x <= 0)%Q → int_of_float x = Qceiling x.
Proof.
  destruct x as [n d]. unfold Qle, int_of_float, Qceiling, Qfloor. simpl.
  rewrite Z.mul_1_r, Z.mul_0_l. intros Hn.
  rewrite <- (Z.opp_involutive n) at 1.
  rewrite Z.quot_opp_l by done. f_equal.
  apply Z.quot_div_nonneg; lia.
Qed.

Lemma int_of_float_le (x y : Q) :
  (x <= y)%Q → int_of_float x ≤ int_of_float y.
Proof.
  intros Hxy.
  destruct (Qlt_le_dec x 0) as [Hx|Hx]; [|by apply int_of_float_mono].
  rewrite (int_of_float_ceiling x) by lra.
  destruct (Qlt_le_dec y 0) as [Hy|Hy].
  - rewrite (int_of_float_ceiling y) by lra. by apply Qceiling_resp_le.
  - rewrite (int_of_float_floor y) by done.
    pose proof (Qceiling_resp_le x 0 ltac:(lra)) as H1.
    pose proof (Qfloor_resp_le 0 y Hy) as H2.
    change (Qceiling 0) with 0 in H1. change (Qfloor 0) with 0 in H2. lia.
Qed.

Lemma pow_int_mono (x y : Q) : (x <= y → pow_int 2%Q x <= pow_int 2%Q y)%Q.
Proof.
  intros Hxy. unfold pow_int. apply Qpower_le_compat_l.
  - by apply int_of_float_le.
  - discriminate.
Qed.

Lemma frame_windows_nested_witness :
  ∃ vi vj : view,
    animate_view pow_int test_globals 0 = Ok vi ∧
    animate_view pow_int test_globals 2 = Ok vj ∧
    (new_xmin vi <= new_xmin vj)%Q ∧ (new_xmax vj <= new_xmax vi)%Q ∧
    (new_ymin vi <= new_ymin vj)%Q ∧ (new_ymax vj <= new_ymax vi)%Q.
Proof.
  apply (frame_windows_nested pow_int test_globals 0 2).
  - exact pow_int_pos.
  - exact pow_int_mono.
  - discriminate.
  - discriminate.
  - discriminate.
  - lia.
Defined.

(** X17. Two different frame indices never share a file name, so no frame
    is saved over the artifact of another. *)
Theorem frame_files_distinct (i j : Z) :
  i ≠ j → frame_file i ≠ frame_file j.
Proof. intros Hij E. by apply frame_file_inj in E. Qed.

Lemma frame_files_distinct_witness : frame_file 1 ≠ frame_file 10.
Proof. apply frame_files_distinct. lia. Defined.

Lemma for_app {S A} (l1 l2 : list A) (body : A → Py S unit) (s : S) :
  for_ (l1 ++ l2) body s =
  match for_ l1 body s with
  | (s1, Ok _) => for_ l2 body s1
  | (s1, Raise e) => (s1, Raise e)
  end.
Proof.
  revert s. induction l1 as [|x l1 IH]; intros s; [done|].
  cbn [app for_]. unfold mbind, Py_bind.
  destruct (body x s) as [s1 [[]|e]]; [|done]. apply IH.
Qed.

(** The frame loop over indices whose files all exist: no call of
    [animate], no file written. *)
Lemma frame_loop_cached (pow : Q → Q → Q) (g : globals) :
  ∀ (m a : nat) (w : world) (pre post : list (option string)),
    frames w = pre ++ replicate m None ++ post →
    length pre = a →
    (∀ j, (a ≤ j < a + m)%nat →
          is_Some (files w !! frame_file (Z.of_nat j))) →
    for_ (Z.of_nat <$> seq a m) (render_frame pow g) w =
    (World (files w)
           (pre ++ (Some ∘ frame_file <$> (Z.of_nat <$> seq a m)) ++ post)
           (animated w),
     Ok tt).
Proof.
  induction m as [|m IH]; intros a w pre post Hfr Hlen Hall.
  - destruct w as [fs fr an]. cbn in *. by subst fr.
  - destruct w as [fs fr an]. cbn [files frames animated] in *. subst fr.
    cbn [seq fmap list_fmap for_].
    unfold mbind at 1, Py_bind at 1.
    assert (render_frame pow g (Z.of_nat a)
              (World fs (pre ++ replicate (S m) None ++ post) an) =
            (World fs ((pre ++ [Some (frame_file (Z.of_nat a))])
                         ++ replicate m None ++ post) an,
             Ok tt)) as ->.
    { unfold render_frame, mbind, Py_bind, get, put, modify, lift.
      cbn [files frames animated].
      destruct (Hall a ltac:(lia)) as [img Himg].
      rewrite decide_False by (rewrite Himg; discriminate).
      unfold mret, Py_ret, set_frames. cbn [files frames animated].
      unfold Kernel.setitem. rewrite Nat2Z.id.
      rewrite decide_True by (rewrite !length_app; simpl; lia).
      do 2 f_equal. rewrite <- (Nat.add_0_r a), <- Hlen.
      rewrite insert_app_r. cbn. by rewrite <- app_assoc. }
    rewrite (IH (S a) _ (pre ++ [Some (frame_file (Z.of_nat a))]) post);
      [|done|rewrite length_app; simpl; lia|intros j Hj; apply Hall; lia].
    cbn [files frames animated]. by rewrite <- app_assoc.
Qed.

(** X18. When every frame below n already has its file, the frame loop
    completes without one call of [animate] and without writing a file,
    whatever the power function and the bands are, and lists the n
    locations in ascending order. *)
Theorem cached_run_skips_animate (pow : Q → Q → Q) (g : globals) (n : Z)
    (w : world) :
  (∀ i, 0 ≤ i < n → is_Some (files w !! frame_file i)) →
  render_frames pow g n w =
  (World (files w) (Some ∘ frame_file <$> range n) (animated w), Ok tt).
Proof.
  intros Hall. unfold render_frames, mbind, Py_bind, modify.
  rewrite (frame_loop_cached pow g (Z.to_nat n) 0 _ [] []).
  - cbn [files animated app]. by rewrite app_nil_r.
  - cbn. by rewrite app_nil_r.
  - done.
  - intros j Hj. cbn [set_frames files]. apply Hall. lia.
Qed.

Lemma cached_run_skips_animate_witness :
  render_frames (λ _ _, 0%Q) broken_globals 2 full_world =
  (World (files full_world) (Some ∘ frame_file <$> range 2)
         (animated full_world), Ok tt).
Proof.
  apply (cached_run_skips_animate (λ _ _, 0%Q) broken_globals 2 full_world).
  intros i Hi. assert (i = 0 ∨ i = 1) as [-> | ->] by lia;
    vm_compute; eauto.
Defined.

(** X19. When [animate] raises at the first frame whose file is missing,
    the run stops there with that exception: no file is written, the
    locations of the cached frames before it are recorded and the later
    entries of [frames] stay None. *)
Theorem failed_frame_stops_run (pow : Q → Q → Q) (g : globals) (n j : Z)
    (w : world) (e : exn) :
  0 ≤ j < n →
  (∀ i, 0 ≤ i < j → is_Some (files w !! frame_file i)) →
  files w !! frame_file j = None →
  animate pow g j = Raise e →
  render_frames pow g n w =
  (World (files w)
         ((Some ∘ frame_file <$> range j)
            ++ replicate (Z.to_nat n - Z.to_nat j) None)
         (animated w ++ [j]),
   Raise e).
Proof.
  intros Hj Hall Hmiss Hraise.
  unfold render_frames, mbind at 1, Py_bind at 1, modify.
  unfold range at 1.
  replace (Z.to_nat n) with (Z.to_nat j + S (Z.to_nat n - Z.to_nat j - 1))%nat
    at 1 by lia.
  rewrite seq_app, fmap_app, for_app.
  rewrite (frame_loop_cached pow g (Z.to_nat j) 0 _ []
             (replicate (Z.to_nat n - Z.to_nat j) None)).
  - cbn [seq fmap list_fmap for_ Nat.add].
    unfold mbind at 1, Py_bind at 1.
    rewrite Z2Nat.id by lia.
    unfold render_frame at 1.
    unfold mbind, Py_bind, get, put, modify, lift.
    cbn [files frames animated set_frames log_animate].
    rewrite decide_True by done. rewrite Hraise.
    cbn [files frames animated app]. done.
  - cbn [set_frames frames app]. rewrite <- replicate_add. f_equal. lia.
  - done.
  - intros i Hi. cbn [set_frames files]. apply Hall. lia.
Qed.

Lemma failed_frame_stops_run_witness :
  render_frames pow_int broken_globals 3 small_world =
  (World (files small_world)
         ((Some ∘ frame_file <$> range 0)
            ++ replicate (Z.to_nat 3 - Z.to_nat 0) None)
         (animated small_world ++ [0]),
   Raise ValueError).
Proof.
  apply (failed_frame_stops_run pow_int broken_globals 3 0 small_world
           ValueError).
  - lia.
  - intros i Hi. lia.
  - reflexivity.
  - vm_compute. reflexivity.
Defined.

(** X20. The main program is idempotent on its folder: under the
    conditions of a complete run, a second run with the same settings on
    the files the first run left renders nothing, writes nothing and
    hands the assembler the same list of locations. *)
Theorem main_rerun_renders_nothing (pow : Q → Q → Q) (log2 : Q → Q)
    (s : settings) (w : world) :
  (∀ x, 0 < pow 2%Q x)%Q →
  1 ≤ cpu_count s →
  (0 < s_delta s)%Q →
  (0 <= log2 (zoom s))%Q →
  ∃ (w1 : world) (locations : list (option string)),
    main pow log2 s w = (w1, Ok locations) ∧
    main pow log2 s w1 = (w1, Ok locations).
Proof.
  intros Hpos Hcpu Hd Hlog.
  destruct (array_split_partition (seq 0 (s_resolution s))
              (Kernel.num_processes (cpu_count s)))
    as (bands & Hsplit & Hpart & _).
  { pose proof (num_processes_pos _ Hcpu). lia. }
  set (n := Qfloor (log2 (zoom s) / s_delta s)).
  set (g := Globals (s_resolution s) (s_threshold s) (s_delta s)
              (p_re s - 1.5) (p_re s + 1.5) (p_im s - 1.5) (p_im s + 1.5)
              bands).
  set (w1 := World (files w ∪ new_files pow g (range n))
                   (Some ∘ frame_file <$> range n)
                   (animated w
                      ++ filter (λ i, files w !! frame_file i = None)
                                (range n))).
  exists w1, (Some ∘ frame_file <$> range n).
  assert (∀ w0, main pow log2 s w0 =
                match render_frames pow g n w0 with
                | (w', Ok _) => (w', Ok (frames w'))
                | (w', Raise e) => (w', Raise e)
                end) as Hmain.
  { intros w0. unfold main, mbind, Py_bind, lift, get.
    rewrite Hsplit, (num_frames_spec _ _ _ Hd Hlog). fold n g.
    by destruct (render_frames pow g n w0) as [w' [[]|e]]. }
  assert (render_frames pow g n w1 = (w1, Ok tt)) as Hre.
  { unfold render_frames, mbind, Py_bind, modify.
    rewrite (frame_loop_cached pow g (Z.to_nat n) 0 _ [] []).
    - cbn [set_frames files animated app]. by rewrite app_nil_r.
    - cbn. by rewrite app_nil_r.
    - done.
    - intros j Hj. cbn [set_frames files w1]. rewrite lookup_union.
      rewrite (new_files_lookup pow g (range n)) by (apply elem_of_range; lia).
      by destruct (files w !! frame_file (Z.of_nat j)). }
  split.
  - rewrite Hmain, render_frames_spec by done. done.
  - rewrite Hmain, Hre. done.
Qed.

Lemma main_rerun_renders_nothing_witness :
  ∃ (w1 : world) (locations : list (option string)),
    main pow_int log2_int small_settings small_world = (w1, Ok locations) ∧
    main pow_int log2_int small_settings w1 = (w1, Ok locations).
Proof.
  apply (main_rerun_renders_nothing pow_int log2_int small_settings
           small_world).
  - exact pow_int_pos.
  - cbn. lia.
  - reflexivity.
  - discriminate.
Defined.

(** The main program on the small settings: four frames, of which frame 1
    is kept; a second run renders none. *)
Example main_small_run :
  (main pow_int log2_int small_settings small_world).2 =
    Ok [Some "AnimatedFrames/frame0.png"; Some "AnimatedFrames/frame1.png";
        Some "AnimatedFrames/frame2.png"; Some "AnimatedFrames/frame3.png"] ∧
  animated (main pow_int log2_int small_settings small_world).1 = [0; 2; 3] ∧
  animated (main pow_int log2_int small_settings
              (main pow_int log2_int small_settings small_world).1).1
    = [0; 2; 3].
Proof. vm_compute. done. Qed.

End AnimationMore.

(** * Properties of the code in binary64 *)

(** ** Conversions, signs and floors *)

Section Binary64Facts.
Import SpecFloat Binary64.

Lemma forallb_seq (P : nat → bool) (n k : nat) :
  forallb P (seq 0 n) = true → (k < n)%nat → P k = true.
Proof.
  intros H Hk. rewrite forallb_forall in H. apply H. apply in_seq. lia.
Qed.

(** The number of binary digits of a positive number. *)
Lemma digits2_pos_spec (p : positive) :
  2 ^ (Z.pos (digits2_pos p) - 1) ≤ Z.pos p < 2 ^ Z.pos (digits2_pos p).
Proof.
  induction p as [p IH|p IH|]; cbn [digits2_pos].
  - rewrite Pos2Z.inj_succ.
    replace (Z.succ (Z.pos (digits2_pos p)) - 1)
      with (Z.succ (Z.pos (digits2_pos p) - 1)) by lia.
    rewrite !Z.pow_succ_r by lia.
    set (a := 2 ^ (Z.pos (digits2_pos p) - 1)) in *.
    set (b := 2 ^ Z.pos (digits2_pos p)) in *. lia.
  - rewrite Pos2Z.inj_succ.
    replace (Z.succ (Z.pos (digits2_pos p)) - 1)
      with (Z.succ (Z.pos (digits2_pos p) - 1)) by lia.
    rewrite !Z.pow_succ_r by lia.
    set (a := 2 ^ (Z.pos (digits2_pos p) - 1)) in *.
    set (b := 2 ^ Z.pos (digits2_pos p)) in *. lia.
  - done.
Qed.

Lemma digits2_pos_unique (p : positive) (n : Z) :
  2 ^ (n - 1) ≤ Z.pos p < 2 ^ n → Z.pos (digits2_pos p) = n.
Proof.
  intros [Hlo Hhi]. pose proof (digits2_pos_spec p) as [Dlo Dhi].
  set (d := Z.pos (digits2_pos p)) in *.
  assert (0 < n).
  { destruct (Z.le_gt_cases n 0) as [Hn|]; [|done].
    destruct (Z.eq_dec n 0) as [->|]; [simpl in Hhi; lia|].
    rewrite Z.pow_neg_r in Hhi by lia. lia. }
  destruct (Z.lt_trichotomy d n) as [Hlt|[Heq|Hgt]]; [|done|].
  - assert (2 ^ d ≤ 2 ^ (n - 1)) by (apply Z.pow_le_mono_r; lia). lia.
  - assert (2 ^ n ≤ 2 ^ (d - 1)) by (apply Z.pow_le_mono_r; lia). lia.
Qed.

Lemma digits2_pos_iter_xO (p n : positive) :
  digits2_pos (Pos.iter xO p n) = (digits2_pos p + n)%positive.
Proof.
  induction n as [|n IH] using Pos.peano_ind.
  - simpl. lia.
  - rewrite Pos.iter_succ. simpl. rewrite IH. lia.
Qed.

(** A mantissa of 53 digits with an exponent in range is not rounded. *)
Lemma binary_round_aux_exact (s : bool) (m : positive) (e : Z) :
  Z.pos (digits2_pos m) = 53 → -1074 ≤ e ≤ 971 →
  binary_round_aux prec emax s (Z.pos m) e loc_Exact = S754_finite s m e.
Proof.
  intros Hd He.
  unfold binary_round_aux, shr_fexp, fexp, emin, prec, emax.
  cbn [Zdigits2]. rewrite Hd.
  replace (Z.max (53 + e - 53) (3 - 1024 - 53) - e) with 0 by lia.
  cbn [shr shr_record_of_loc shr_m loc_of_shr_record round_nearest_even
       Zdigits2].
  rewrite Hd.
  replace (Z.max (53 + e - 53) (3 - 1024 - 53) - e) with 0 by lia.
  cbn [shr shr_m].
  replace (e <=? 1024 - 53) with true by (symmetry; apply Z.leb_le; lia).
  done.
Qed.

(** A positive int below 2**53 converts to a float, which is finite and
    not zero. *)
Lemma of_int_small (n : Z) :
  0 < n < 2 ^ 53 → ∃ m e, of_int n = Ok (S754_finite false m e).
Proof.
  intros [Hn Hlt]. destruct n as [|p|p]; [lia| |lia].
  assert (Z.pos (digits2_pos p) ≤ 53) as Hd.
  { pose proof (digits2_pos_spec p) as [Dlo _].
    destruct (Z.le_gt_cases (Z.pos (digits2_pos p)) 53) as [|Hgt]; [done|].
    assert (2 ^ 53 ≤ 2 ^ (Z.pos (digits2_pos p) - 1))
      by (apply Z.pow_le_mono_r; lia).
    lia. }
  unfold of_int, round_int, binary_normalize, binary_round.
  assert (fexp prec emax (Z.pos (digits2_pos p) + 0)
          = Z.pos (digits2_pos p) - 53) as ->
    by (unfold fexp, emin, prec, emax; lia).
  unfold shl_align.
  destruct (Z.pos (digits2_pos p) - 53 - 0) as [|q|q] eqn:E; [|lia|].
  - rewrite (binary_round_aux_exact false p 0) by lia. eauto.
  - rewrite (binary_round_aux_exact false) by (rewrite ?digits2_pos_iter_xO; lia).
    eauto.
Qed.

(** An even mantissa of 54 digits loses its last digit without
    rounding. *)
Lemma binary_round_aux_even (s : bool) (m : positive) (e : Z) :
  Z.pos (digits2_pos m) = 53 → -1075 ≤ e ≤ 970 →
  binary_round_aux prec emax s (Z.pos m~0) e loc_Exact
  = S754_finite s m (e + 1).
Proof.
  intros Hd He.
  unfold binary_round_aux, shr_fexp, fexp, emin, prec, emax.
  cbn [Zdigits2 digits2_pos]. rewrite Pos2Z.inj_succ, Hd.
  replace (Z.max (Z.succ 53 + e - 53) (3 - 1024 - 53) - e) with 1 by lia.
  cbn [shr shr_record_of_loc shr_m loc_of_shr_record round_nearest_even
       Zdigits2 iter_pos shr_1 orb].
  rewrite Hd.
  replace (Z.max (53 + (e + 1) - 53) (3 - 1024 - 53) - (e + 1)) with 0 by lia.
  cbn [shr shr_m].
  replace (e + 1 <=? 1024 - 53) with true by (symmetry; apply Z.leb_le; lia).
  done.
Qed.

(** [z/2] of a positive int below 2**53 is computed exactly. *)
Lemma round_quot_half (p : positive) :
  Z.pos p < 2 ^ 53 →
  ∃ (m : positive) (e : Z),
    round_quot (Z.pos p) 2 = S754_finite false m e ∧ -53 ≤ e < 0 ∧
    Z.pos m = Z.pos p * 2 ^ (- e - 1).
Proof.
  intros Hlt. pose proof (digits2_pos_spec p) as [Dlo Dhi].
  set (d := Z.pos (digits2_pos p)) in *.
  assert (1 ≤ d ≤ 53) as Hd.
  { split; [unfold d; lia|].
    destruct (Z.le_gt_cases d 53) as [|Hgt]; [done|].
    assert (2 ^ 53 ≤ 2 ^ (d - 1)) by (apply Z.pow_le_mono_r; lia). lia. }
  unfold round_quot.
  change (Z.to_pos (Z.abs (Z.pos p))) with p.
  change (Z.to_pos (Z.abs 2)) with 2%positive.
  change (Z.pos p <? 0) with false. change (2 <? 0) with false.
  unfold fdiv, SFdiv. cbn [xorb].
  unfold SFdiv_core_binary. cbn [Zdigits2].
  change (Z.pos (digits2_pos 2)) with 2. fold d.
  assert (Z.min (fexp prec emax (d + 0 - (2 + 0))) (0 - 0) = d - 55) as ->
    by (unfold fexp, emin, prec, emax; lia).
  replace (0 - 0 - (d - 55)) with (55 - d) by lia.
  destruct (55 - d) as [|s|s] eqn:Es; [lia| |lia].
  rewrite Z.shiftl_mul_pow2 by lia.
  assert (0 < 2 ^ (Z.pos s - 2)) as Hpow by (apply Z.pow_pos_nonneg; lia).
  assert (2 ^ Z.pos s = 4 * 2 ^ (Z.pos s - 2)) as Epow.
  { replace (Z.pos s) with (Z.succ (Z.succ (Z.pos s - 2))) at 1 by lia.
    rewrite !Z.pow_succ_r by lia. lia. }
  set (X := Z.pos p * 2 ^ (Z.pos s - 2)) in *.
  assert (Z.pos p * 2 ^ Z.pos s = 2 * (2 * X)) as -> by (unfold X; lia).
  pose proof (Z_div_mod (2 * (2 * X)) 2 ltac:(lia)) as Hdiv.
  destruct (Z.div_eucl (2 * (2 * X)) 2) as [q r].
  assert (r = 0) as -> by lia. assert (q = 2 * X) as -> by lia.
  assert (0 < X) as HX by (unfold X; lia).
  destruct X as [|m|m] eqn:EX; [lia| |lia].
  change (2 * Z.pos m) with (Z.pos m~0).
  change (new_location 2 0) with loc_Exact.
  assert (Z.pos (digits2_pos m) = 53) as Hm.
  { apply digits2_pos_unique. rewrite <- EX. unfold X.
    change (53 - 1) with 52.
    assert (2 ^ 52 = 2 ^ (d - 1) * 2 ^ (Z.pos s - 2)) as ->
      by (rewrite <- Z.pow_add_r by lia; f_equal; lia).
    assert (2 ^ 53 = 2 ^ d * 2 ^ (Z.pos s - 2)) as ->
      by (rewrite <- Z.pow_add_r by lia; f_equal; lia).
    nia. }
  rewrite binary_round_aux_even by (try done; lia).
  exists m, (d - 55 + 1). split; [done|]. split; [lia|].
  rewrite <- EX. unfold X. do 2 f_equal. lia.
Qed.

(** [int(z/2)] is the quotient that rounds toward 0, for every int
    0 <= z < 2**53. *)
Lemma int_half_b64 (z : Z) :
  0 ≤ z < 2 ^ 53 →
  ∃ half : float, int_truediv z 2 = Ok half ∧ to_int half = Ok (z `quot` 2).
Proof.
  intros [Hz Hlt]. destruct z as [|p|p]; [by eexists | |lia].
  destruct (round_quot_half p Hlt) as (m & e & Hq & He & Hm).
  unfold int_truediv. rewrite decide_False by done. rewrite Hq.
  eexists. split; [done|]. unfold to_int, to_Q.
  rewrite decide_False by lia. unfold int_of_float. cbn [Qnum Qden].
  f_equal. rewrite Hm.
  rewrite Z2Pos.id by (apply Z.pow_pos_nonneg; lia).
  set (t := - e - 1) in *.
  assert (0 < 2 ^ t) by (apply Z.pow_pos_nonneg; lia).
  replace (- e) with (Z.succ t) by lia.
  rewrite Z.pow_succ_r by lia.
  rewrite Z.quot_mul_cancel_r by lia. done.
Qed.

(** The exact value of a product, of a quotient and of a converted int
    has the sign of the exact result. *)
Lemma binary_round_aux_sign (s : bool) (m e : Z) (l : location) :
  match binary_round_aux prec emax s m e l with
  | S754_zero s' | S754_infinity s' | S754_finite s' _ _ => s' = s
  | S754_nan => True
  end.
Proof.
  unfold binary_round_aux.
  destruct (shr_fexp _ _ _ _ _) as [mrs' e'].
  destruct (shr_fexp _ _ _ _ _) as [mrs'' e''].
  destruct (shr_m mrs''); [done| |done]. by destruct (_ <=? _).
Qed.

Lemma to_Q_finite_sign (s : bool) (m : positive) (e : Z) :
  if s then (to_Q (S754_finite s m e) < 0)%Q
  else (0 < to_Q (S754_finite s m e))%Q.
Proof.
  unfold to_Q. destruct s; case_decide; unfold Qlt; simpl; lia.
Qed.

Lemma to_Q_fmul_nonneg (x y : float) :
  (0 <= to_Q x)%Q → (0 <= to_Q y)%Q → (0 <= to_Q (fmul x y))%Q.
Proof.
  intros Hx Hy.
  destruct x as [sx|sx| |sx mx ex], y as [sy|sy| |sy my ey];
    try (cbn; done).
  pose proof (to_Q_finite_sign sx mx ex) as Sx.
  pose proof (to_Q_finite_sign sy my ey) as Sy.
  destruct sx; [lra|]. destruct sy; [lra|].
  unfold fmul, SFmul. cbn [xorb].
  pose proof (binary_round_aux_sign false (Z.pos (mx * my)) (ex + ey)
                loc_Exact) as Hs.
  destruct (binary_round_aux _ _ _ _ _ _) as [s|s| |s m e]; try (cbn; done).
  subst s. apply Qlt_le_weak. apply (to_Q_finite_sign false).
Qed.

Lemma to_Q_fdiv_nonneg (x y : float) :
  (0 <= to_Q x)%Q → (0 <= to_Q y)%Q → (0 <= to_Q (fdiv x y))%Q.
Proof.
  intros Hx Hy.
  destruct x as [sx|sx| |sx mx ex], y as [sy|sy| |sy my ey];
    try (cbn; done).
  pose proof (to_Q_finite_sign sx mx ex) as Sx.
  pose proof (to_Q_finite_sign sy my ey) as Sy.
  destruct sx; [lra|]. destruct sy; [lra|].
  unfold fdiv, SFdiv. cbn [xorb].
  destruct (SFdiv_core_binary _ _ _ _ _ _) as [[mz ez] lz].
  pose proof (binary_round_aux_sign false mz ez lz) as Hs.
  destruct (binary_round_aux _ _ _ _ _ _) as [s|s| |s m e]; try (cbn; done).
  subst s. apply Qlt_le_weak. apply (to_Q_finite_sign false).
Qed.

Lemma to_Q_round_int_nonneg (z : Z) : 0 ≤ z → (0 <= to_Q (round_int z))%Q.
Proof.
  intros Hz. destruct z as [|p|p]; [done| |lia].
  unfold round_int, binary_normalize, binary_round.
  destruct (shl_align _ _ _) as [mz ez].
  pose proof (binary_round_aux_sign false (Z.pos mz) ez loc_Exact) as Hs.
  destruct (binary_round_aux _ _ _ _ _ _) as [s|s| |s m e]; try (cbn; done).
  subst s. apply Qlt_le_weak. apply (to_Q_finite_sign false).
Qed.

Lemma of_int_round (z : Z) (x : float) : of_int z = Ok x → x = round_int z.
Proof. unfold of_int. by destruct (round_int z); intros [= <-]. Qed.

(** [int] of a float that is not negative is the floor of its value. *)
Lemma to_int_floor (x : float) (n : Z) :
  to_int x = Ok n → (0 <= to_Q x)%Q → n = Qfloor (to_Q x) ∧ 0 ≤ n.
Proof.
  intros Hn Hx.
  assert (n = int_of_float (to_Q x)) as ->
    by (unfold to_int in Hn; destruct x; try discriminate; by injection Hn).
  rewrite int_of_float_floor by done. split; [done|].
  change 0 with (Qfloor 0). by apply Qfloor_resp_le.
Qed.

End Binary64Facts.

(** ** The kernel in binary64 *)

Section Kernel64Facts.
Import SpecFloat Binary64 Kernel64.

Lemma start_value_b64 :
  Cadd (of_real f0) (Cmul Cj (of_real f0)) = Complex f0 f0.
Proof. reflexivity. Qed.

Lemma diverges_start_b64 : diverges (Complex f0 f0) = false.
Proof. reflexivity. Qed.

(** Adding the float 0 can change a number only from -0.0 to 0.0, which
    its square does not see. *)
Lemma fmul_fadd_f0 (x : float) : fmul (fadd f0 x) (fadd f0 x) = fmul x x.
Proof. by destruct x as [[]|[]| |[] m e]. Qed.

(** The first update leaves [z] at [c], as far as the test can tell. *)
Lemma diverges_first_iterate (c : complex) :
  diverges (Cadd (Cmul (Complex f0 f0) (Complex f0 f0)) c) =
  fgt (fadd (fmul (real c) (real c)) (fmul (imag c) (imag c))) f4.
Proof.
  unfold diverges.
  change (Cmul (Complex f0 f0) (Complex f0 f0)) with (Complex f0 f0).
  cbn [Cadd real imag]. by rewrite !fmul_fadd_f0.
Qed.

Lemma mandel_cap_1_b64 (c : complex) : mandel c 1 = 0.
Proof. reflexivity. Qed.

(** C6, amended. For every c, of whatever floats, whose squared magnitude
    as the program computes it, c.real*c.real + c.imag*c.imag with each
    operation rounded to binary64, exceeds 4, and for every threshold of
    at least 2, [mandel] returns 1, which is positive. *)
Theorem immediate_divergence (c : complex) (threshold : Z) :
  fgt (fadd (fmul (real c) (real c)) (fmul (imag c) (imag c))) f4 = true →
  2 ≤ threshold →
  mandel c threshold = 1 ∧ mandel c threshold > 0.
Proof.
  intros Hc Ht.
  assert (mandel c threshold = 1) as ->; [|lia].
  unfold mandel, range. rewrite start_value_b64.
  destruct (Z.to_nat threshold) as [|[|m]] eqn:E; [lia..|].
  cbn [seq fmap list_fmap mandel_for].
  rewrite diverges_start_b64, diverges_first_iterate, Hc. done.
Qed.

Lemma immediate_divergence_witness :
  mandel (Complex (round_int 3) f0) 2 = 1 ∧
  mandel (Complex (round_int 3) f0) 2 > 0.
Proof. apply immediate_divergence; [reflexivity | lia]. Defined.

(** Under a threshold of at least 2 the result is 1 exactly when the
    computed squared magnitude of c exceeds 4. *)
Lemma first_step_escape_iff (c : complex) (threshold : Z) :
  2 ≤ threshold →
  mandel c threshold = 1 ↔
  fgt (fadd (fmul (real c) (real c)) (fmul (imag c) (imag c))) f4 = true.
Proof.
  intros Ht. unfold mandel, range. rewrite start_value_b64.
  destruct (Z.to_nat threshold) as [|[|m]] eqn:E; [lia..|].
  cbn [seq fmap list_fmap mandel_for].
  rewrite diverges_start_b64, diverges_first_iterate.
  destruct (fgt _ f4); [done|]. split; [|done].
  set (z := Cadd (Cmul _ _) c). clearbody z.
  assert (2 ≤ 2)%nat as Ha by lia. revert Ha. generalize 2%nat at 2 3.
  intros a Ha. clear E. revert a z Ha.
  induction m as [|m IH]; intros a z Ha; cbn.
  - discriminate.
  - destruct (diverges z); [lia|]. apply IH. lia.
Qed.

(** The magnitude must be the computed one: 2 + 1e-9j and -2 + 1e-50j lie
    outside the circle of radius 2, but their computed squared magnitude
    is 4.0; the first returns 0 under the threshold 2 and the second 0
    under the threshold 70. *)
Example immediate_divergence_needs_computed_magnitude :
  let c1 := Complex f2 (round_quot 1 (10 ^ 9)) in
  let c2 := Complex (round_int (-2)) (round_quot 1 (10 ^ 50)) in
  (4 < to_Q (real c1) * to_Q (real c1) + to_Q (imag c1) * to_Q (imag c1))%Q ∧
  mandel c1 2 = 0 ∧
  (4 < to_Q (real c2) * to_Q (real c2) + to_Q (imag c2) * to_Q (imag c2))%Q ∧
  mandel c2 70 = 0.
Proof. vm_compute. done. Qed.

End Kernel64Facts.

(** ** The grid evaluator in binary64 *)

Section Grid64Facts.
Import Binary64 Kernel64.

Variable linspace : float → float → nat → list float.
Hypothesis linspace_length :
  ∀ start stop num, length (linspace start stop num) = num.

Section Band.
Variables (resolution : nat) (xmin xmax ymin ymax : float) (threshold : Z).

Let re := linspace xmin xmax resolution.
Let im := linspace ymin ymax resolution.
Let px := pixel linspace resolution xmin xmax ymin ymax threshold.

Lemma store_point_spec_b64 (y x : nat) (filled rest : list float) (r : float) :
  (x < resolution)%nat → (y < resolution)%nat →
  store_point re im threshold y x
    (Locals (filled ++ r :: rest) (length filled)) =
  (Locals ((filled ++ [px y x]) ++ rest) (length (filled ++ [px y x])),
   Ok tt).
Proof.
  intros Hx Hy. unfold store_point.
  unfold mbind, Py_bind, lift, get, put.
  rewrite (getitem_lt f0 re x), (getitem_lt f0 im y)
    by (unfold re, im; by rewrite linspace_length).
  cbn [point_vals k]. unfold Kernel.setitem.
  rewrite decide_True by (rewrite length_app; simpl; lia).
  rewrite length_app. cbn [length].
  f_equal. f_equal.
  rewrite <- (Nat.add_0_r (length filled)) at 1.
  rewrite insert_app_r. cbn. by rewrite <- app_assoc.
Qed.

Lemma columns_spec_b64 (y : nat) (xs : list nat) (filled rest : list float) :
  (y < resolution)%nat → Forall (λ x, x < resolution)%nat xs →
  (length xs ≤ length rest)%nat →
  for_ xs (λ x, store_point re im threshold y x)
    (Locals (filled ++ rest) (length filled)) =
  (Locals ((filled ++ (px y <$> xs)) ++ drop (length xs) rest)
          (length (filled ++ (px y <$> xs))), Ok tt).
Proof.
  intros Hy Hxs. revert filled rest.
  induction Hxs as [|x xs Hx _ IH]; intros filled rest Hlen.
  - cbn. by rewrite !app_nil_r.
  - destruct rest as [|r rest]; [simpl in Hlen; lia|].
    cbn [for_]. unfold mbind at 1, Py_bind at 1.
    rewrite store_point_spec_b64 by done.
    rewrite IH by (simpl in Hlen; lia).
    cbn [fmap list_fmap length drop]. by rewrite <- !app_assoc.
Qed.

Lemma rows_spec_b64 (yrange : list nat) (filled rest : list float) :
  Forall (λ y, y < resolution)%nat yrange →
  (resolution * length yrange ≤ length rest)%nat →
  for_ yrange (λ y,
    for_ (seq 0 resolution) (λ x, store_point re im threshold y x))
    (Locals (filled ++ rest) (length filled)) =
  (Locals ((filled ++ concat ((λ y, px y <$> seq 0 resolution) <$> yrange))
            ++ drop (resolution * length yrange) rest)
          (length (filled ++
             concat ((λ y, px y <$> seq 0 resolution) <$> yrange))),
   Ok tt).
Proof.
  intros Hys. revert filled rest.
  induction Hys as [|y ys Hy _ IH]; intros filled rest Hlen.
  - cbn. by rewrite Nat.mul_0_r, !app_nil_r.
  - cbn [for_]. unfold mbind at 1, Py_bind at 1.
    cbn [length] in Hlen.
    rewrite columns_spec_b64;
      [|done|apply Forall_seq; lia|rewrite length_seq; lia].
    rewrite IH by (rewrite length_drop, length_seq; lia).
    rewrite length_seq, drop_drop. cbn [fmap list_fmap concat length].
    rewrite <- !app_assoc.
    by replace (resolution * S (length ys))%nat
      with (resolution + resolution * length ys)%nat by lia.
Qed.

Lemma band_spec_b64 (yrange : list nat) :
  Forall (λ y, y < resolution)%nat yrange →
  mandelbrot_for_parallel linspace resolution xmin xmax ymin ymax threshold
    yrange =
  Ok (concat ((λ y, px y <$> seq 0 resolution) <$> yrange)).
Proof.
  intros Hys. unfold mandelbrot_for_parallel.
  pose proof (rows_spec_b64 yrange []
                (replicate (resolution * length yrange) f0) Hys) as H.
  rewrite length_replicate in H. specialize (H (Nat.le_refl _)).
  cbn [app length] in H. fold re im. rewrite H.
  cbn [point_vals]. rewrite drop_ge by (rewrite length_replicate; lia).
  by rewrite app_nil_r.
Qed.

Lemma mapM_bands_b64 (yranges : list (list nat)) :
  Forall (Forall (λ y, y < resolution)%nat) yranges →
  mapM (mandelbrot_for_parallel linspace resolution xmin xmax ymin ymax
          threshold) yranges =
  Ok ((λ yrange, concat ((λ y, px y <$> seq 0 resolution) <$> yrange))
        <$> yranges).
Proof.
  induction 1 as [|yrange yranges Hy _ IH]; [done|].
  cbn [mapM]. rewrite band_spec_b64 by done. rewrite IH. done.
Qed.

Lemma rows_of_concat_b64 (rows : list (list float)) (cols : nat) :
  Forall (λ r, length r = cols) rows →
  rows_of (concat rows) (length rows) cols = rows.
Proof.
  induction 1 as [|r rows Hr _ IH]; [done|].
  cbn. rewrite take_app_length', drop_app_length' by done. by rewrite IH.
Qed.

(** Bands that partition the rows give the grid of the viewport. *)
Lemma evaluate_grid_spec_b64 (yranges : list (list nat)) :
  concat yranges = seq 0 resolution →
  evaluate_grid linspace resolution xmin xmax ymin ymax threshold yranges =
  Ok (grid linspace resolution xmin xmax ymin ymax threshold).
Proof.
  intros Hpart. unfold evaluate_grid, collect.
  rewrite mapM_bands_b64.
  2:{ apply Forall_concat_bands. rewrite Hpart. apply Forall_seq. lia. }
  cbn [mbind result_bind mret result_ret].
  rewrite foldl_concatenate, concat_bands, Hpart. cbn [app].
  change ((λ y, px y <$> seq 0 resolution) <$> seq 0 resolution)
    with (grid linspace resolution xmin xmax ymin ymax threshold).
  set (rows := grid linspace resolution xmin xmax ymin ymax threshold).
  assert (length rows = resolution) as Hlen
    by (unfold rows, grid; by rewrite length_fmap, length_seq).
  assert (Forall (λ r, length r = resolution) rows) as Hrows.
  { unfold rows, grid. apply Forall_fmap, Forall_forall. intros y _. cbn.
    by rewrite length_fmap, length_seq. }
  unfold reshape. rewrite decide_True.
  - rewrite <- Hlen at 1. by rewrite rows_of_concat_b64.
  - rewrite (length_concat_rows _ resolution) by done. by rewrite Hlen.
Qed.

End Band.

End Grid64Facts.

(** ** The click handler in binary64 *)

Section Interactive64Facts.
Import SpecFloat Binary64 Interactive64.

Lemma halves_back_all : forallb halves_back (seq 0 1024) = true.
Proof. vm_compute. reflexivity. Qed.

Lemma half_extent_exact_all : forallb half_extent_exact (seq 0 1024) = true.
Proof. vm_compute. reflexivity. Qed.

Lemma pow2_succ (k : nat) : 2 ^ Z.of_nat (S k) = 2 ^ Z.of_nat k * 2.
Proof. rewrite Nat2Z.inj_succ, Z.pow_succ_r by lia. lia. Qed.

(** [int(2**(k+1)/2)] is [2**k] as long as the quotient is a float. *)
Lemma halves_back_spec (k : nat) :
  (k ≤ 1023)%nat →
  ∃ half : float,
    int_truediv (2 ^ Z.of_nat (S k)) 2 = Ok half ∧
    to_int half = Ok (2 ^ Z.of_nat k).
Proof.
  intros Hk.
  pose proof (forallb_seq _ _ k halves_back_all ltac:(lia)) as H.
  unfold halves_back in H.
  destruct (int_truediv _ 2) as [half|e]; [|done].
  exists half. split; [done|]. cbn [mbind result_bind] in H.
  destruct (to_int half) as [z|e]; [|done].
  apply Z.eqb_eq in H. by subst z.
Qed.

(** [1.5/2**k] is computed without error and without rounding down to
    the last float order of magnitude. *)
Lemma half_extent_spec (k : nat) :
  (k ≤ 1023)%nat →
  ∃ h : float,
    half_extent (2 ^ Z.of_nat k) = Ok h ∧
    (to_Q h == 3 / inject_Z (2 ^ Z.of_nat (S k)))%Q.
Proof.
  intros Hk.
  pose proof (forallb_seq _ _ k half_extent_exact_all ltac:(lia)) as H.
  unfold half_extent_exact in H.
  destruct (half_extent _) as [h|e]; [|done].
  exists h. split; [done|]. by apply Qeq_bool_iff.
Qed.

Lemma half_extent_0 : half_extent 0 = Raise ZeroDivisionError.
Proof. reflexivity. Qed.

Lemma half_extent_2_1024 : half_extent (2 ^ 1024) = Raise OverflowError.
Proof. vm_compute. reflexivity. Qed.

Lemma onclick_zoom_left_b64 (cfg : config) (event : MouseEvent) (g : globals) :
  button event = 1 →
  onclick_zoom cfg event g =
  (set_threshold (threshold g + add_thresh cfg) (set_zoom (zoom g * 2) g),
   Ok tt).
Proof. intros Hb. unfold onclick_zoom. by rewrite decide_True. Qed.

Lemma onclick_zoom_right_b64 (cfg : config) (event : MouseEvent) (g : globals)
    (half : float) (z : Z) :
  button event = 3 →
  int_truediv (zoom g) 2 = Ok half → to_int half = Ok z →
  onclick_zoom cfg event g =
  (let g1 := set_zoom z g in
   if decide (threshold g > add_thresh cfg)
   then set_threshold (threshold g - add_thresh cfg) g1 else g1,
   Ok tt).
Proof.
  intros Hb Hhalf Hz. unfold onclick_zoom.
  rewrite decide_False, decide_True by lia.
  unfold mbind, Py_bind, get, lift, put. rewrite Hhalf, Hz. cbn.
  by case_decide.
Qed.

(** When line 83 raises, nothing has been assigned. *)
Lemma onclick_zoom_right_raises (cfg : config) (event : MouseEvent)
    (g : globals) (e : exn) :
  button event = 3 →
  int_truediv (zoom g) 2 ≫= to_int = Raise e →
  onclick_zoom cfg event g = (g, Raise e).
Proof.
  intros Hb He. unfold onclick_zoom.
  rewrite decide_False, decide_True by lia.
  unfold mbind, Py_bind, get, lift, put.
  destruct (int_truediv (zoom g) 2) as [half|e1]; cbn in He.
  - by rewrite He.
  - by injection He as ->.
Qed.

Lemma onclick_zoom_other_b64 (cfg : config) (event : MouseEvent) (g : globals) :
  button event ≠ 1 → button event ≠ 3 →
  onclick_zoom cfg event g = (g, Ok tt).
Proof. intros H1 H3. unfold onclick_zoom. by rewrite !decide_False. Qed.

(** Lines 79-85 leave the bounds alone. *)
Lemma onclick_zoom_bounds (cfg : config) (event : MouseEvent) (g : globals) :
  xmin (onclick_zoom cfg event g).1 = xmin g ∧
  xmax (onclick_zoom cfg event g).1 = xmax g ∧
  ymin (onclick_zoom cfg event g).1 = ymin g ∧
  ymax (onclick_zoom cfg event g).1 = ymax g.
Proof.
  unfold onclick_zoom. repeat case_decide; [done| |done].
  unfold mbind, Py_bind, get, lift, put.
  destruct (int_truediv _ _); [|done]. destruct (to_int _); [|done].
  cbn. by case_decide.
Qed.

(** Lines 88-98 for a pointer inside the axes: the bounds are assigned
    only after [1.5/zoom] has been computed. *)
Lemma onclick_bounds_spec_b64 (cfg : config) (b : Z) (x y : float)
    (g : globals) :
  0 < Z.of_nat (resolution cfg) < 2 ^ 53 →
  let r := round_int (Z.of_nat (resolution cfg)) in
  let posx := fadd (xmin g) (fdiv (fmul (fsub (xmax g) (xmin g)) x) r) in
  let posy := fadd (ymin g) (fdiv (fmul (fsub (ymax g) (ymin g)) y) r) in
  onclick_bounds cfg (Event b (Some x) (Some y)) g =
  match half_extent (zoom g) with
  | Ok h => (Globals (zoom g) (fadd posx h) (fsub posx h) (fadd posy h)
               (fsub posy h) (threshold g), Ok tt)
  | Raise e => (g, Raise e)
  end.
Proof.
  intros Hres r posx posy.
  destruct (of_int_small _ Hres) as (m & e & Hr).
  assert (r = S754_finite false m e) as Er
    by (symmetry; by apply of_int_round).
  unfold onclick_bounds, mbind, Py_bind, get, lift, modify.
  cbn [xdata ydata coordinate]. rewrite Hr. cbn [ftruediv].
  destruct (half_extent (zoom g)) as [h|err]; [|done].
  cbn. unfold posx, posy. rewrite Er. done.
Qed.

(** Outside the axes the coordinates are [None] and line 88 or 89 raises
    TypeError. *)
Lemma onclick_bounds_outside (cfg : config) (event : MouseEvent) (g : globals) :
  0 < Z.of_nat (resolution cfg) < 2 ^ 53 →
  xdata event = None ∨ ydata event = None →
  onclick_bounds cfg event g = (g, Raise TypeError).
Proof.
  intros Hres Hout.
  destruct (of_int_small _ Hres) as (m & e & Hr).
  unfold onclick_bounds, mbind, Py_bind, get, lift, modify.
  destruct (xdata event) as [x|]; [|done]. cbn [coordinate].
  rewrite Hr. cbn [ftruediv].
  destruct Hout as [Hx | ->]; done.
Qed.

Lemma onclick_bounds_keeps_b64 (cfg : config) (event : MouseEvent)
    (g : globals) :
  zoom (onclick_bounds cfg event g).1 = zoom g ∧
  threshold (onclick_bounds cfg event g).1 = threshold g.
Proof.
  unfold onclick_bounds. unfold mbind, Py_bind, get, lift, modify.
  repeat match goal with
         | |- context [match ?r with Ok _ => _ | Raise _ => _ end] =>
             destruct r; cbn; [|done]
         end.
  done.
Qed.

Section WithLinspace.
Variable linspace : float → float → nat → list float.
Hypothesis linspace_length :
  ∀ start stop num, length (linspace start stop num) = num.

Lemma onclick_unfold_b64 (cfg : config) (event : MouseEvent) (g : globals) :
  onclick linspace cfg event g =
  match onclick_zoom cfg event g with
  | (g1, Ok _) =>
      match onclick_bounds cfg event g1 with
      | (g2, Ok _) =>
          (g2, Kernel64.evaluate_grid linspace (resolution cfg) (xmin g2)
                 (xmax g2) (ymin g2) (ymax g2) (threshold g2) (yranges cfg))
      | (g2, Raise e) => (g2, Raise e)
      end
  | (g1, Raise e) => (g1, Raise e)
  end.
Proof.
  unfold onclick, mbind, Py_bind.
  destruct (onclick_zoom cfg event g) as [g1 [[]|e]]; [|done].
  destruct (onclick_bounds cfg event g1) as [g2 [[]|e]]; done.
Qed.

(** The zoom and the threshold after [onclick] are those that lines
    79-85 leave, whatever the rest of the handler does. *)
Lemma onclick_keeps_b64 (cfg : config) (event : MouseEvent) (g : globals) :
  zoom (onclick linspace cfg event g).1 = zoom (onclick_zoom cfg event g).1 ∧
  threshold (onclick linspace cfg event g).1 =
    threshold (onclick_zoom cfg event g).1.
Proof.
  rewrite onclick_unfold_b64.
  destruct (onclick_zoom cfg event g) as [g1 [[]|e]]; [|done].
  pose proof (onclick_bounds_keeps_b64 cfg event g1) as Hk.
  destruct (onclick_bounds cfg event g1) as [g2 [[]|e]]; done.
Qed.

(** A click inside the axes whose new zoom has a half-extent completes. *)
Lemma onclick_completes_b64 (cfg : config) (b : Z) (x y : float)
    (g g1 : globals) (h : float) :
  0 < Z.of_nat (resolution cfg) < 2 ^ 53 →
  concat (yranges cfg) = seq 0 (resolution cfg) →
  onclick_zoom cfg (Event b (Some x) (Some y)) g = (g1, Ok tt) →
  half_extent (zoom g1) = Ok h →
  let r := round_int (Z.of_nat (resolution cfg)) in
  let posx := fadd (xmin g1) (fdiv (fmul (fsub (xmax g1) (xmin g1)) x) r) in
  let posy := fadd (ymin g1) (fdiv (fmul (fsub (ymax g1) (ymin g1)) y) r) in
  let g2 := Globals (zoom g1) (fadd posx h) (fsub posx h) (fadd posy h)
              (fsub posy h) (threshold g1) in
  onclick linspace cfg (Event b (Some x) (Some y)) g =
  (g2, Ok (Kernel64.grid linspace (resolution cfg) (xmin g2) (xmax g2)
             (ymin g2) (ymax g2) (threshold g2))).
Proof.
  intros Hres Hpart Hzoom Hh r posx posy g2.
  rewrite onclick_unfold_b64, Hzoom.
  rewrite onclick_bounds_spec_b64 by done. rewrite Hh.
  fold r posx posy g2. f_equal.
  by apply evaluate_grid_spec_b64.
Qed.

(** A click whose new zoom has no half-extent raises at line 95, with the
    zoom and the threshold assigned and the bounds untouched. *)
Lemma onclick_raises_b64 (cfg : config) (b : Z) (x y : float)
    (g g1 : globals) (e : exn) :
  0 < Z.of_nat (resolution cfg) < 2 ^ 53 →
  onclick_zoom cfg (Event b (Some x) (Some y)) g = (g1, Ok tt) →
  half_extent (zoom g1) = Raise e →
  onclick linspace cfg (Event b (Some x) (Some y)) g = (g1, Raise e).
Proof.
  intros Hres Hzoom Hh. rewrite onclick_unfold_b64, Hzoom.
  rewrite onclick_bounds_spec_b64 by done. by rewrite Hh.
Qed.

(** The doubled zoom is halved exactly by [int(zoom/2)]. *)
Lemma halves_doubled (z : Z) :
  1 ≤ z →
  z < 2 ^ 52 ∨ (∃ k : nat, (k ≤ 1023)%nat ∧ z = 2 ^ Z.of_nat k) →
  ∃ half : float, int_truediv (z * 2) 2 = Ok half ∧ to_int half = Ok z.
Proof.
  intros Hz [Hlt|(k & Hk & ->)].
  - destruct (int_half_b64 (z * 2) ltac:(lia)) as (half & Hhalf & Hint).
    exists half. split; [done|]. by rewrite Z.quot_mul in Hint.
  - rewrite <- pow2_succ. by apply halves_back_spec.
Qed.

(** C9, amended. From a state with a positive threshold whose zoom is at
    least 1 and either below 2**52 or a power of two up to 2**1023, a
    left click followed by a right click, at whatever pixel and be it
    outside the axes, leaves the zoom and the threshold at their values
    before the two clicks: [int(zoom/2)] halves the doubled zoom exactly,
    and the threshold clamp of the right click does not fire. *)
Theorem left_then_right_restores (cfg : config) (x y : option float)
    (g : globals) :
  threshold g > 0 →
  1 ≤ zoom g →
  zoom g < 2 ^ 52 ∨ (∃ k : nat, (k ≤ 1023)%nat ∧ zoom g = 2 ^ Z.of_nat k) →
  zoom (onclick linspace cfg (Event 1 x y) g).1 = zoom g * 2 ∧
  threshold (onclick linspace cfg (Event 1 x y) g).1
    = threshold g + add_thresh cfg ∧
  zoom (onclick linspace cfg (Event 3 x y)
          (onclick linspace cfg (Event 1 x y) g).1).1 = zoom g ∧
  threshold (onclick linspace cfg (Event 3 x y)
               (onclick linspace cfg (Event 1 x y) g).1).1 = threshold g.
Proof.
  intros Ht Hz Hdom.
  set (g1 := (onclick linspace cfg (Event 1 x y) g).1).
  set (g2 := (onclick linspace cfg (Event 3 x y) g1).1).
  destruct (onclick_keeps_b64 cfg (Event 1 x y) g) as [Hz1 Ht1].
  rewrite onclick_zoom_left_b64 in Hz1, Ht1 by done. cbn in Hz1, Ht1.
  fold g1 in Hz1, Ht1.
  destruct (halves_doubled (zoom g) Hz Hdom) as (half & Hhalf & Hint).
  rewrite <- Hz1 in Hhalf.
  destruct (onclick_keeps_b64 cfg (Event 3 x y) g1) as [Hz2 Ht2].
  rewrite (onclick_zoom_right_b64 cfg (Event 3 x y) g1 half _ eq_refl Hhalf
             Hint) in Hz2, Ht2.
  fold g2 in Hz2, Ht2. cbv zeta in Hz2, Ht2.
  rewrite decide_True in Hz2, Ht2 by lia. cbn in Hz2, Ht2.
  repeat split; [done | done | congruence | lia].
Qed.

(** From a zoom up to 2**1022 both clicks also complete, for a pointer
    inside the axes and bands that partition the rows. *)
Lemma left_then_right_completes_b64 (cfg : config) (x y : float)
    (g : globals) (k : nat) :
  0 < Z.of_nat (resolution cfg) < 2 ^ 53 →
  concat (yranges cfg) = seq 0 (resolution cfg) →
  zoom g = 2 ^ Z.of_nat k → (k ≤ 1022)%nat →
  ∃ g1 field1 g2 field2,
    onclick linspace cfg (Event 1 (Some x) (Some y)) g = (g1, Ok field1) ∧
    onclick linspace cfg (Event 3 (Some x) (Some y)) g1 = (g2, Ok field2).
Proof.
  intros Hres Hpart Hz Hk.
  destruct (half_extent_spec (S k) ltac:(lia)) as (h1 & Hh1 & _).
  destruct (half_extent_spec k ltac:(lia)) as (h2 & Hh2 & _).
  destruct (halves_back_spec k ltac:(lia)) as (half & Hhalf & Hint).
  pose proof (onclick_zoom_left_b64 cfg (Event 1 (Some x) (Some y)) g eq_refl)
    as Hzoom1.
  pose proof (onclick_completes_b64 cfg 1 x y g _ h1 Hres Hpart Hzoom1) as Hc1.
  cbn [zoom set_zoom set_threshold] in Hc1.
  rewrite Hz, <- pow2_succ in Hc1. specialize (Hc1 Hh1).
  eexists _, _, _, _. split; [exact Hc1|].
  match goal with
  | |- onclick _ _ _ ?s = _ => set (g1 := s)
  end.
  assert (zoom g1 = 2 ^ Z.of_nat (S k)) as Hz1 by done.
  rewrite <- Hz1 in Hhalf.
  pose proof (onclick_zoom_right_b64 cfg (Event 3 (Some x) (Some y)) g1 half _
                eq_refl Hhalf Hint) as Hzoom2.
  cbv zeta in Hzoom2.
  apply (onclick_completes_b64 cfg 3 x y g1 _ h2 Hres Hpart Hzoom2).
  by case_decide.
Qed.

(** The state of the first plot after 1024 net zoom-ins, which left
    clicks reach. *)
Lemma left_click_doubles (cfg : config) (x y : option float) (g : globals) :
  zoom (onclick linspace cfg (Event 1 x y) g).1 = zoom g * 2.
Proof.
  destruct (onclick_keeps_b64 cfg (Event 1 x y) g) as [-> _].
  by rewrite onclick_zoom_left_b64.
Qed.

(** A left click inside the axes from a zoom up to 2**1022. *)
Lemma left_click_completes_b64 (cfg : config) (x y : float) (g : globals)
    (k : nat) :
  0 < Z.of_nat (resolution cfg) < 2 ^ 53 →
  concat (yranges cfg) = seq 0 (resolution cfg) →
  zoom g = 2 ^ Z.of_nat k → (k ≤ 1022)%nat →
  ∃ h : float,
    (to_Q h == 3 / inject_Z (2 ^ Z.of_nat (S (S k))))%Q ∧
    let r := round_int (Z.of_nat (resolution cfg)) in
    let posx := fadd (xmin g) (fdiv (fmul (fsub (xmax g) (xmin g)) x) r) in
    let posy := fadd (ymin g) (fdiv (fmul (fsub (ymax g) (ymin g)) y) r) in
    let g' := Globals (2 ^ Z.of_nat (S k)) (fadd posx h) (fsub posx h)
                (fadd posy h) (fsub posy h)
                (threshold g + add_thresh cfg) in
    onclick linspace cfg (Event 1 (Some x) (Some y)) g =
    (g', Ok (Kernel64.grid linspace (resolution cfg) (xmin g') (xmax g')
               (ymin g') (ymax g') (threshold g'))).
Proof.
  intros Hres Hpart Hz Hk.
  destruct (half_extent_spec (S k) ltac:(lia)) as (h & Hh & Eh).
  pose proof (onclick_zoom_left_b64 cfg (Event 1 (Some x) (Some y)) g eq_refl)
    as Hzoom.
  pose proof (onclick_completes_b64 cfg 1 x y g _ h Hres Hpart Hzoom) as Hc.
  cbn [zoom xmin xmax ymin ymax threshold set_zoom set_threshold] in Hc.
  rewrite Hz, <- pow2_succ in Hc. specialize (Hc Hh).
  exists h. split; [done|]. exact Hc.
Qed.

(** A right click inside the axes from a zoom 2**(k+1) up to 2**1024. *)
Lemma right_click_completes_b64 (cfg : config) (x y : float) (g : globals)
    (k : nat) :
  0 < Z.of_nat (resolution cfg) < 2 ^ 53 →
  concat (yranges cfg) = seq 0 (resolution cfg) →
  zoom g = 2 ^ Z.of_nat (S k) → (k ≤ 1023)%nat →
  ∃ h : float,
    (to_Q h == 3 / inject_Z (2 ^ Z.of_nat (S k)))%Q ∧
    let r := round_int (Z.of_nat (resolution cfg)) in
    let posx := fadd (xmin g) (fdiv (fmul (fsub (xmax g) (xmin g)) x) r) in
    let posy := fadd (ymin g) (fdiv (fmul (fsub (ymax g) (ymin g)) y) r) in
    let g' := Globals (2 ^ Z.of_nat k) (fadd posx h) (fsub posx h)
                (fadd posy h) (fsub posy h)
                (if decide (threshold g > add_thresh cfg)
                 then threshold g - add_thresh cfg else threshold g) in
    onclick linspace cfg (Event 3 (Some x) (Some y)) g =
    (g', Ok (Kernel64.grid linspace (resolution cfg) (xmin g') (xmax g')
               (ymin g') (ymax g') (threshold g'))).
Proof.
  intros Hres Hpart Hz Hk.
  destruct (half_extent_spec k Hk) as (h & Hh & Eh).
  destruct (halves_back_spec k Hk) as (half & Hhalf & Hint).
  rewrite <- Hz in Hhalf.
  pose proof (onclick_zoom_right_b64 cfg (Event 3 (Some x) (Some y)) g half _
                eq_refl Hhalf Hint) as Hzoom.
  cbv zeta in Hzoom.
  exists h. split; [done|]. cbv zeta.
  case_decide.
  - by apply (onclick_completes_b64 cfg 3 x y g _ h Hres Hpart Hzoom).
  - by apply (onclick_completes_b64 cfg 3 x y g _ h Hres Hpart Hzoom).
Qed.

(** X5. A left click inside the axes from a zoom 2**k, k <= 1022,
    completes: the zoom doubles, the threshold grows by [add_thresh], the
    half-extent [1.5/zoom] of the new window is computed without
    rounding, 3/(2*zoom) for the new zoom, each new bound is the clicked
    point minus or plus it, rounded once, and the displayed field is the
    grid of the new window under the new threshold. *)
Theorem left_click_postcondition (cfg : config) (x y : float) (g : globals)
    (k : nat) :
  0 < Z.of_nat (resolution cfg) < 2 ^ 53 →
  concat (yranges cfg) = seq 0 (resolution cfg) →
  zoom g = 2 ^ Z.of_nat k → (k ≤ 1022)%nat →
  ∃ (g' : globals) (h : float),
    onclick linspace cfg (Event 1 (Some x) (Some y)) g =
      (g', Ok (Kernel64.grid linspace (resolution cfg) (xmin g') (xmax g')
                 (ymin g') (ymax g') (threshold g'))) ∧
    zoom g' = zoom g * 2 ∧
    threshold g' = threshold g + add_thresh cfg ∧
    (to_Q h == 3 / inject_Z (2 * zoom g'))%Q ∧
    let r := round_int (Z.of_nat (resolution cfg)) in
    let posx := fadd (xmin g) (fdiv (fmul (fsub (xmax g) (xmin g)) x) r) in
    let posy := fadd (ymin g) (fdiv (fmul (fsub (ymax g) (ymin g)) y) r) in
    xmin g' = fsub posx h ∧ xmax g' = fadd posx h ∧
    ymin g' = fsub posy h ∧ ymax g' = fadd posy h.
Proof.
  intros Hres Hpart Hz Hk.
  destruct (left_click_completes_b64 cfg x y g k Hres Hpart Hz Hk)
    as (h & Eh & Hc).
  eexists _, h. split; [exact Hc|].
  cbn [zoom threshold xmin xmax ymin ymax].
  split; [by rewrite Hz, pow2_succ|]. split; [done|].
  split; [|done].
  rewrite Eh. by rewrite (pow2_succ (S k)), Z.mul_comm.
Qed.

(** X6. A press of a button other than 1 and 3 inside the axes, at a zoom
    2**k with k <= 1023, changes neither the zoom nor the threshold but
    still recentres the window at the clicked point, with the half-extent
    3/(2*zoom) computed without rounding, and redraws the grid. *)
Theorem other_button_recentres (cfg : config) (b : Z) (x y : float)
    (g : globals) (k : nat) :
  0 < Z.of_nat (resolution cfg) < 2 ^ 53 →
  concat (yranges cfg) = seq 0 (resolution cfg) →
  b ≠ 1 → b ≠ 3 →
  zoom g = 2 ^ Z.of_nat k → (k ≤ 1023)%nat →
  ∃ (g' : globals) (h : float),
    onclick linspace cfg (Event b (Some x) (Some y)) g =
      (g', Ok (Kernel64.grid linspace (resolution cfg) (xmin g') (xmax g')
                 (ymin g') (ymax g') (threshold g'))) ∧
    zoom g' = zoom g ∧ threshold g' = threshold g ∧
    (to_Q h == 3 / inject_Z (2 * zoom g))%Q ∧
    let r := round_int (Z.of_nat (resolution cfg)) in
    let posx := fadd (xmin g) (fdiv (fmul (fsub (xmax g) (xmin g)) x) r) in
    let posy := fadd (ymin g) (fdiv (fmul (fsub (ymax g) (ymin g)) y) r) in
    xmin g' = fsub posx h ∧ xmax g' = fadd posx h ∧
    ymin g' = fsub posy h ∧ ymax g' = fadd posy h.
Proof.
  intros Hres Hpart H1 H3 Hz Hk.
  destruct (half_extent_spec k Hk) as (h & Hh & Eh).
  pose proof (onclick_zoom_other_b64 cfg (Event b (Some x) (Some y)) g H1 H3)
    as Hzoom.
  rewrite <- Hz in Hh.
  pose proof (onclick_completes_b64 cfg b x y g _ h Hres Hpart Hzoom Hh)
    as Hc.
  eexists _, h. split; [exact Hc|].
  cbn [zoom threshold xmin xmax ymin ymax].
  do 2 (split; [done|]). split; [|done].
  rewrite Eh, Hz. by rewrite pow2_succ, Z.mul_comm.
Qed.

Lemma clicks_app_b64 (cfg : config) (events1 events2 : list MouseEvent)
    (g : globals) :
  clicks linspace cfg (events1 ++ events2) g =
  ((clicks linspace cfg events2 (clicks linspace cfg events1 g).1).1,
   (clicks linspace cfg events1 g).2
     ++ (clicks linspace cfg events2 (clicks linspace cfg events1 g).1).2).
Proof.
  revert g. induction events1 as [|e es IH]; intros g; cbn.
  - by destruct (clicks linspace cfg events2 g).
  - destruct (onclick linspace cfg e g) as [g1 r]. rewrite IH.
    by destruct (clicks linspace cfg es g1).
Qed.

Lemma clicks_cons_b64 (cfg : config) (event : MouseEvent)
    (events : list MouseEvent) (g : globals) :
  clicks linspace cfg (event :: events) g =
  ((clicks linspace cfg events (onclick linspace cfg event g).1).1,
   (onclick linspace cfg event g).2
     :: (clicks linspace cfg events (onclick linspace cfg event g).1).2).
Proof.
  cbn [clicks]. destruct (onclick linspace cfg event g) as [g1 r].
  cbn [fst snd]. by destruct (clicks linspace cfg events g1).
Qed.

Lemma clicks_lefts_b64 (cfg : config) (ps : list (float * float))
    (g : globals) (k : nat) :
  0 < Z.of_nat (resolution cfg) < 2 ^ 53 →
  concat (yranges cfg) = seq 0 (resolution cfg) →
  zoom g = 2 ^ Z.of_nat k → (k + length ps ≤ 1023)%nat →
  let events := (λ p, Event 1 (Some p.1) (Some p.2)) <$> ps in
  zoom (clicks linspace cfg events g).1 = 2 ^ Z.of_nat (k + length ps) ∧
  threshold (clicks linspace cfg events g).1
    = threshold g + Z.of_nat (length ps) * add_thresh cfg ∧
  Forall (λ o, ∃ field, o = Ok field) (clicks linspace cfg events g).2.
Proof.
  intros Hres Hpart. cbv zeta. revert g k.
  induction ps as [|p ps IH]; intros g k Hz Hk.
  - cbn. rewrite Nat.add_0_r. repeat split; [done | lia | constructor].
  - cbn [fmap list_fmap]. rewrite clicks_cons_b64. cbn [length] in Hk.
    destruct (left_click_completes_b64 cfg p.1 p.2 g k Hres Hpart Hz
                ltac:(lia)) as (h & _ & Hc).
    cbv zeta in Hc. rewrite Hc. cbn [fst snd].
    match goal with
    | |- context [clicks _ _ _ ?s] => set (g' := s)
    end.
    destruct (IH g' (S k) eq_refl ltac:(lia)) as (IHz & IHt & IHo).
    rewrite IHz, IHt. cbn [length threshold g'].
    replace (S k + length ps)%nat with (k + S (length ps))%nat by lia.
    repeat split; [lia|]. constructor; [by eexists|done].
Qed.

Lemma clicks_rights_b64 (cfg : config) (qs : list (float * float))
    (g : globals) (k : nat) (t : Z) :
  0 < Z.of_nat (resolution cfg) < 2 ^ 53 →
  concat (yranges cfg) = seq 0 (resolution cfg) →
  0 ≤ add_thresh cfg → t > 0 →
  zoom g = 2 ^ Z.of_nat (k + length qs) → (k + length qs ≤ 1024)%nat →
  threshold g = t + Z.of_nat (length qs) * add_thresh cfg →
  let events := (λ q, Event 3 (Some q.1) (Some q.2)) <$> qs in
  zoom (clicks linspace cfg events g).1 = 2 ^ Z.of_nat k ∧
  threshold (clicks linspace cfg events g).1 = t ∧
  Forall (λ o, ∃ field, o = Ok field) (clicks linspace cfg events g).2.
Proof.
  intros Hres Hpart Hadd Ht. cbv zeta. revert g.
  induction qs as [|q qs IH]; intros g Hz Hk Htg.
  - cbn in *. rewrite Nat.add_0_r in Hz. repeat split; [done | lia | constructor].
  - cbn [fmap list_fmap]. rewrite clicks_cons_b64. cbn [length] in Hz, Hk, Htg.
    replace (k + S (length qs))%nat with (S (k + length qs)) in Hz by lia.
    destruct (right_click_completes_b64 cfg q.1 q.2 g (k + length qs) Hres
                Hpart Hz ltac:(lia)) as (h & _ & Hc).
    cbv zeta in Hc. rewrite Hc. cbn [fst snd].
    match goal with
    | |- context [clicks _ _ _ ?s] => set (g' := s)
    end.
    destruct (IH g' eq_refl ltac:(lia)) as (IHz & IHt & IHo).
    { cbn [threshold g']. rewrite decide_True by nia. lia. }
    repeat split; [done | done |]. constructor; [by eexists|done].
Qed.

(** X8. From a zoom 2**k and a positive threshold, with [add_thresh] not
    negative, n left clicks followed by n right clicks inside the axes,
    at whatever points, all complete and leave the zoom and the threshold
    at their first values, as long as k + n <= 1023, so that the deepest
    zoom 2**(k+n) still is a float. *)
Theorem zoom_in_out_round_trip (cfg : config) (ps qs : list (float * float))
    (g : globals) (k : nat) :
  0 < Z.of_nat (resolution cfg) < 2 ^ 53 →
  concat (yranges cfg) = seq 0 (resolution cfg) →
  0 ≤ add_thresh cfg →
  threshold g > 0 →
  zoom g = 2 ^ Z.of_nat k → (k + length ps ≤ 1023)%nat →
  length ps = length qs →
  let events := ((λ p, Event 1 (Some p.1) (Some p.2)) <$> ps)
                  ++ ((λ q, Event 3 (Some q.1) (Some q.2)) <$> qs) in
  zoom (clicks linspace cfg events g).1 = zoom g ∧
  threshold (clicks linspace cfg events g).1 = threshold g ∧
  Forall (λ o, ∃ field, o = Ok field) (clicks linspace cfg events g).2.
Proof.
  intros Hres Hpart Hadd Ht Hz Hk Hlen. cbv zeta.
  rewrite clicks_app_b64. cbn [fst snd].
  destruct (clicks_lefts_b64 cfg ps g k Hres Hpart Hz Hk) as (Lz & Lt & Lo).
  rewrite Hlen in Lz, Lt.
  destruct (clicks_rights_b64 cfg qs _ k (threshold g) Hres Hpart Hadd Ht Lz
              ltac:(lia) Lt) as (Rz & Rt & Ro).
  repeat split; [congruence | done |]. by apply Forall_app.
Qed.

(** At zoom 0 lines 79-85 complete and leave the zoom at 0. *)
Lemma onclick_zoom_at_0 (cfg : config) (event : MouseEvent) (g : globals) :
  zoom g = 0 →
  ∃ g1 : globals,
    onclick_zoom cfg event g = (g1, Ok tt) ∧ zoom g1 = 0 ∧
    xmin g1 = xmin g ∧ xmax g1 = xmax g ∧ ymin g1 = ymin g ∧ ymax g1 = ymax g.
Proof.
  intros Hz.
  destruct (decide (button event = 1)) as [H1|H1].
  - rewrite onclick_zoom_left_b64 by done. eexists. split; [done|].
    cbn. rewrite Hz. done.
  - destruct (decide (button event = 3)) as [H3|H3].
    + assert (int_truediv (zoom g) 2 = Ok (S754_zero false)) as Hhalf
        by (by rewrite Hz).
      rewrite (onclick_zoom_right_b64 cfg event g _ 0 H3 Hhalf eq_refl).
      cbv zeta. eexists. split; [done|]. by case_decide.
    + rewrite onclick_zoom_other_b64 by done. by eexists.
Qed.

(** X9. A zoom of 0 is never left: from a state whose zoom is 0, as a
    right click at zoom 1 leaves it, every later button press raises,
    whatever the button: TypeError at line 88 or 89 when the pointer is
    outside the axes, where its coordinates are [None], and
    ZeroDivisionError at line 95 otherwise; the zoom and the bounds stay
    as they are. *)
Theorem zoom_0_absorbing (cfg : config) (events : list MouseEvent)
    (g : globals) :
  0 < Z.of_nat (resolution cfg) < 2 ^ 53 →
  zoom g = 0 →
  zoom (clicks linspace cfg events g).1 = 0 ∧
  xmin (clicks linspace cfg events g).1 = xmin g ∧
  xmax (clicks linspace cfg events g).1 = xmax g ∧
  ymin (clicks linspace cfg events g).1 = ymin g ∧
  ymax (clicks linspace cfg events g).1 = ymax g ∧
  (clicks linspace cfg events g).2 =
    (λ event, match xdata event, ydata event with
              | Some _, Some _ => Raise ZeroDivisionError
              | _, _ => Raise TypeError
              end) <$> events.
Proof.
  intros Hres. revert g. induction events as [|ev es IH]; intros g Hz.
  - done.
  - rewrite clicks_cons_b64.
    destruct (onclick_zoom_at_0 cfg ev g Hz)
      as (g1 & Hzoom & Hz1 & Hx0 & Hx1 & Hy0 & Hy1).
    assert (onclick linspace cfg ev g =
            (g1, match xdata ev, ydata ev with
                 | Some _, Some _ => Raise ZeroDivisionError
                 | _, _ => Raise TypeError
                 end)) as Hc.
    { destruct ev as [b [x|] [y|]].
      - apply onclick_raises_b64; [done..|]. by rewrite Hz1.
      - rewrite onclick_unfold_b64, Hzoom.
        rewrite onclick_bounds_outside; [done..|by right].
      - rewrite onclick_unfold_b64, Hzoom.
        rewrite onclick_bounds_outside; [done..|by left].
      - rewrite onclick_unfold_b64, Hzoom.
        rewrite onclick_bounds_outside; [done..|by left]. }
    rewrite Hc. cbn [fst snd fmap list_fmap].
    destruct (IH g1 Hz1) as (IHz & IHx0 & IHx1 & IHy0 & IHy1 & IHo).
    rewrite IHo. repeat split; congruence.
Qed.

End WithLinspace.

Lemma linspace_step_length (start stop : float) (num : nat) :
  length (linspace_step start stop num) = num.
Proof.
  unfold linspace_step.
  case_decide; rewrite ?length_insert, length_fmap, length_seq; done.
Qed.

Lemma left_then_right_restores_witness :
  zoom (onclick linspace_step small_config (Event 1 (Some f1) None)
          small_globals).1 = zoom small_globals * 2 ∧
  threshold (onclick linspace_step small_config (Event 1 (Some f1) None)
               small_globals).1
    = threshold small_globals + add_thresh small_config ∧
  zoom (onclick linspace_step small_config (Event 3 (Some f1) None)
          (onclick linspace_step small_config (Event 1 (Some f1) None)
             small_globals).1).1 = zoom small_globals ∧
  threshold (onclick linspace_step small_config (Event 3 (Some f1) None)
               (onclick linspace_step small_config (Event 1 (Some f1) None)
                  small_globals).1).1 = threshold small_globals.
Proof.
  apply (left_then_right_restores linspace_step small_config (Some f1) None
           small_globals); [cbn; lia | cbn; lia | left; cbn; lia].
Defined.

(** C9, as the specification states it, fails at the zoom 2**1024, which
    1024 left clicks on the first plot reach: the left click sets the
    zoom to 2**1025 and raises OverflowError at [1.5/zoom], the right
    click raises OverflowError at [int(zoom/2)] before it assigns
    anything, and the zoom and the threshold stay changed. *)
Lemma left_then_right_fails_at_2_1024 :
  let cfg := Config 2800 50 [seq 0 2800] in
  let g := set_zoom (2 ^ 1024) main_globals in
  let left := onclick linspace_step cfg (Event 1 (Some f1) (Some f1)) g in
  let right := onclick linspace_step cfg (Event 3 (Some f1) (Some f1))
                 left.1 in
  threshold g > 0 ∧ 1 ≤ zoom g ∧
  left.2 = Raise OverflowError ∧ right.2 = Raise OverflowError ∧
  zoom right.1 = 2 ^ 1025 ∧ threshold right.1 = 120 ∧
  ¬ (zoom right.1 = zoom g ∧ threshold right.1 = threshold g).
Proof.
  vm_compute. repeat split; try done. intros [H _]. discriminate H.
Qed.

Lemma left_click_postcondition_witness :
  ∃ (g' : globals) (h : float),
    onclick linspace_step small_config (Event 1 (Some f1) (Some f1))
      small_globals =
      (g', Ok (Kernel64.grid linspace_step (resolution small_config)
                 (xmin g') (xmax g') (ymin g') (ymax g') (threshold g'))) ∧
    zoom g' = zoom small_globals * 2 ∧
    threshold g' = threshold small_globals + add_thresh small_config ∧
    (to_Q h == 3 / inject_Z (2 * zoom g'))%Q ∧
    let r := round_int (Z.of_nat (resolution small_config)) in
    let posx := fadd (xmin small_globals)
                  (fdiv (fmul (fsub (xmax small_globals)
                                 (xmin small_globals)) f1) r) in
    let posy := fadd (ymin small_globals)
                  (fdiv (fmul (fsub (ymax small_globals)
                                 (ymin small_globals)) f1) r) in
    xmin g' = fsub posx h ∧ xmax g' = fadd posx h ∧
    ymin g' = fsub posy h ∧ ymax g' = fadd posy h.
Proof.
  apply (left_click_postcondition linspace_step linspace_step_length
           small_config f1 f1 small_globals 0);
    [cbn; lia | reflexivity | reflexivity | lia].
Defined.

Lemma other_button_recentres_witness :
  ∃ (g' : globals) (h : float),
    onclick linspace_step small_config (Event 2 (Some f1) (Some f1))
      small_globals =
      (g', Ok (Kernel64.grid linspace_step (resolution small_config)
                 (xmin g') (xmax g') (ymin g') (ymax g') (threshold g'))) ∧
    zoom g' = zoom small_globals ∧ threshold g' = threshold small_globals ∧
    (to_Q h == 3 / inject_Z (2 * zoom small_globals))%Q ∧
    let r := round_int (Z.of_nat (resolution small_config)) in
    let posx := fadd (xmin small_globals)
                  (fdiv (fmul (fsub (xmax small_globals)
                                 (xmin small_globals)) f1) r) in
    let posy := fadd (ymin small_globals)
                  (fdiv (fmul (fsub (ymax small_globals)
                                 (ymin small_globals)) f1) r) in
    xmin g' = fsub posx h ∧ xmax g' = fadd posx h ∧
    ymin g' = fsub posy h ∧ ymax g' = fadd posy h.
Proof.
  apply (other_button_recentres linspace_step linspace_step_length
           small_config 2 f1 f1 small_globals 0);
    [cbn; lia | reflexivity | lia | lia | reflexivity | lia].
Defined.

Lemma zoom_in_out_round_trip_witness :
  let events := ((λ p, Event 1 (Some p.1) (Some p.2)) <$> [(f1, f0); (f0, f1)])
                  ++ ((λ q, Event 3 (Some q.1) (Some q.2))
                        <$> [(f1, f1); (f0, f0)]) in
  zoom (clicks linspace_step small_config events small_globals).1
    = zoom small_globals ∧
  threshold (clicks linspace_step small_config events small_globals).1
    = threshold small_globals ∧
  Forall (λ o, ∃ field, o = Ok field)
         (clicks linspace_step small_config events small_globals).2.
Proof.
  apply (zoom_in_out_round_trip linspace_step linspace_step_length
           small_config [(f1, f0); (f0, f1)] [(f1, f1); (f0, f0)]
           small_globals 0);
    first [reflexivity | cbn; lia].
Defined.

Lemma zoom_0_absorbing_witness :
  let events := [Event 1 (Some f1) (Some f1); Event 3 None None;
                 Event 2 (Some f1) (Some f0)] in
  let g := set_zoom 0 small_globals in
  zoom (clicks linspace_step small_config events g).1 = 0 ∧
  xmin (clicks linspace_step small_config events g).1 = xmin g ∧
  xmax (clicks linspace_step small_config events g).1 = xmax g ∧
  ymin (clicks linspace_step small_config events g).1 = ymin g ∧
  ymax (clicks linspace_step small_config events g).1 = ymax g ∧
  (clicks linspace_step small_config events g).2 =
    (λ event, match xdata event, ydata event with
              | Some _, Some _ => Raise ZeroDivisionError
              | _, _ => Raise TypeError
              end) <$> events.
Proof.
  apply (zoom_0_absorbing linspace_step small_config
           [Event 1 (Some f1) (Some f1); Event 3 None None;
            Event 2 (Some f1) (Some f0)] (set_zoom 0 small_globals));
    [cbn; lia | reflexivity].
Defined.

(** The clicks on the small configuration: a left click, a right click
    back, and a right click that leaves the zoom at 0. *)
Example clicks_small :
  let '(g, outcomes) :=
    clicks linspace_step small_config
      [Event 1 (Some f1) (Some f1); Event 3 (Some f1) (Some f1);
       Event 3 (Some f1) (Some f1); Event 1 None None] small_globals in
  zoom g = 0 ∧ threshold g = 70 ∧
  (λ o, match o with Ok _ => None | Raise e => Some e end) <$> outcomes
    = [None; None; Some ZeroDivisionError; Some TypeError].
Proof. vm_compute. done. Qed.

End Interactive64Facts.

(** ** The animation step in binary64 *)

Section Animation64Facts.
Import SpecFloat Binary64 Animation64.

Lemma of_int_nonneg_small (i : Z) :
  0 ≤ i < 2 ^ 53 → of_int i = Ok (round_int i).
Proof.
  intros Hi. destruct (decide (i = 0)) as [->|Hne]; [done|].
  destruct (of_int_small i ltac:(lia)) as (m & e & Hm).
  rewrite Hm. f_equal. by apply of_int_round.
Qed.

Lemma to_int_finite (x : float) :
  finite x = true → to_int x = Ok (int_of_float (to_Q x)).
Proof. by destruct x. Qed.

Lemma ftruediv_nonzero (a b : float) :
  nonzero b = true → ftruediv a b = Ok (fdiv a b).
Proof. by destruct b. Qed.

Section WithMath.
Variable linspace : float → float → nat → list float.
Variable pow : float → float → result float.
Variable log2 : Z → float.

Lemma animate_view_spec_b64 (g : globals) (i : Z) (p : float) :
  0 ≤ i < 2 ^ 53 →
  pow f2 (fmul (delta g) (round_int i)) = Ok p →
  nonzero p = true →
  finite (fmul (fmul (delta g) (round_int i)) f50) = true →
  let s := fsub f1 (fdiv f1 p) in
  animate_view pow g i =
  Ok (View
        (fadd (xmin g) (fmul (fmul f0_5 (fsub (xmax g) (xmin g))) s))
        (fsub (xmax g) (fmul (fmul f0_5 (fsub (xmax g) (xmin g))) s))
        (fadd (ymin g) (fmul (fmul f0_5 (fsub (ymax g) (ymin g))) s))
        (fsub (ymax g) (fmul (fmul f0_5 (fsub (ymax g) (ymin g))) s))
        (threshold g
         + int_of_float (to_Q (fmul (fmul (delta g) (round_int i)) f50)))).
Proof.
  intros Hi Hp Hnz Hfin s.
  unfold animate_view, shrink, mbind, result_bind.
  rewrite (of_int_nonneg_small i Hi), Hp, (ftruediv_nonzero _ _ Hnz).
  cbn [mret result_ret]. by rewrite (to_int_finite _ Hfin).
Qed.

(** C3, amended. For a delta that is not negative and a frame index
    0 <= i < 2**53, when 2**(delta*i) is a float other than 0 and
    delta*i*50 is in the float range, [animate] computes the viewport of
    frame i from i and the starting globals alone, each bound by the
    source's expression evaluated in binary64 with s = 1-1/2**(delta*i):
    new_xmin = xmin + 0.5*(xmax-xmin)*s, new_xmax = xmax - 0.5*(xmax-xmin)*s
    and likewise for y; the threshold is threshold + floor(P) for the
    rounded product P = (delta*i)*50, which is not negative; [animate]
    evaluates the grid of exactly this viewport; and when the rounded
    quotient Q = log2(zoom)/delta is finite, for a zoom whose logarithm is
    not negative, the number of frames is floor(Q) >= 0. *)
Theorem animation_closed_form (g : globals) (i zoom : Z) (p : float) :
  (0 <= to_Q (delta g))%Q →
  0 ≤ i < 2 ^ 53 →
  pow f2 (fmul (delta g) (round_int i)) = Ok p →
  nonzero p = true →
  finite (fmul (fmul (delta g) (round_int i)) f50) = true →
  (0 <= to_Q (log2 zoom))%Q →
  finite (fdiv (log2 zoom) (delta g)) = true →
  let s := fsub f1 (fdiv f1 p) in
  let P := fmul (fmul (delta g) (round_int i)) f50 in
  let Q := fdiv (log2 zoom) (delta g) in
  ∃ v : view,
    animate_view pow g i = Ok v ∧
    new_xmin v = fadd (xmin g) (fmul (fmul f0_5 (fsub (xmax g) (xmin g))) s) ∧
    new_xmax v = fsub (xmax g) (fmul (fmul f0_5 (fsub (xmax g) (xmin g))) s) ∧
    new_ymin v = fadd (ymin g) (fmul (fmul f0_5 (fsub (ymax g) (ymin g))) s) ∧
    new_ymax v = fsub (ymax g) (fmul (fmul f0_5 (fsub (ymax g) (ymin g))) s) ∧
    new_threshold v = threshold g + Qfloor (to_Q P) ∧
    0 ≤ Qfloor (to_Q P) ∧
    animate linspace pow g i =
      Kernel64.evaluate_grid linspace (resolution g) (new_xmin v)
        (new_xmax v) (new_ymin v) (new_ymax v) (new_threshold v)
        (yranges g) ∧
    num_frames log2 zoom (delta g) = Ok (Qfloor (to_Q Q)) ∧
    0 ≤ Qfloor (to_Q Q).
Proof.
  intros Hd Hi Hp Hnz HP Hl HQ s P Q.
  assert (0 <= to_Q P)%Q as HP0.
  { unfold P. apply to_Q_fmul_nonneg; [|done].
    apply to_Q_fmul_nonneg; [done|]. apply to_Q_round_int_nonneg. lia. }
  assert (0 <= to_Q Q)%Q as HQ0 by (by apply to_Q_fdiv_nonneg).
  eexists. split; [by apply animate_view_spec_b64|].
  cbn [new_xmin new_xmax new_ymin new_ymax new_threshold].
  do 4 (split; [reflexivity|]).
  split; [by rewrite int_of_float_floor|].
  split; [change 0 with (Qfloor 0); by apply Qfloor_resp_le|].
  split; [unfold animate; by rewrite (animate_view_spec_b64 g i p)|].
  split; [|change 0 with (Qfloor 0); by apply Qfloor_resp_le].
  unfold num_frames. rewrite (to_int_finite _ HQ).
  by rewrite int_of_float_floor.
Qed.

End WithMath.

(** C3, as the specification states it, fails where rounding moves a
    product or a quotient across an integer.  With delta = 0.005 and
    i = 116 the product delta*i*50 of the reals is above 29, but the
    program's rounded product is below it and the threshold of the frame
    is threshold + 28; with the settings of the source, zoom = 2**16 and
    delta = 0.025, log2(zoom)/delta of the reals is below 640 and the
    program's rounded quotient is 640.0, which gives 640 frames. *)
Lemma closed_form_floors_differ :
  let delta1 := round_quot 5 1000 in
  let delta2 := round_quot 25 1000 in
  (0 < to_Q delta1)%Q ∧ 0 ≤ 116 ∧
  to_int (fmul (fmul delta1 (round_int 116)) f50) = Ok 28 ∧
  (∃ v, animate_view pow_int (test_globals delta1) 116 = Ok v ∧
        new_threshold v = threshold (test_globals delta1) + 28) ∧
  Qfloor (to_Q delta1 * 116 * 50) = 29 ∧
  (0 < to_Q delta2)%Q ∧
  (to_Q (log2_int (2 ^ 16)) == 16)%Q ∧
  num_frames log2_int (2 ^ 16) delta2 = Ok 640 ∧
  Qfloor (16 / to_Q delta2) = 639.
Proof.
  cbv zeta. split; [reflexivity|]. split; [lia|].
  split; [vm_compute; reflexivity|].
  split; [eexists; split; [vm_compute; reflexivity|reflexivity]|].
  split; [vm_compute; reflexivity|]. split; [reflexivity|].
  split; [vm_compute; reflexivity|].
  split; vm_compute; reflexivity.
Qed.

Lemma animation_closed_form_witness :
  let g := test_globals (round_quot 1 2) in
  let s := fsub f1 (fdiv f1 f2) in
  let P := fmul (fmul (delta g) (round_int 2)) f50 in
  let Q := fdiv (log2_int 4) (delta g) in
  ∃ v : view,
    animate_view pow_int g 2 = Ok v ∧
    new_xmin v = fadd (xmin g) (fmul (fmul f0_5 (fsub (xmax g) (xmin g))) s) ∧
    new_xmax v = fsub (xmax g) (fmul (fmul f0_5 (fsub (xmax g) (xmin g))) s) ∧
    new_ymin v = fadd (ymin g) (fmul (fmul f0_5 (fsub (ymax g) (ymin g))) s) ∧
    new_ymax v = fsub (ymax g) (fmul (fmul f0_5 (fsub (ymax g) (ymin g))) s) ∧
    new_threshold v = threshold g + Qfloor (to_Q P) ∧
    0 ≤ Qfloor (to_Q P) ∧
    animate linspace_step pow_int g 2 =
      Kernel64.evaluate_grid linspace_step (resolution g) (new_xmin v)
        (new_xmax v) (new_ymin v) (new_ymax v) (new_threshold v)
        (yranges g) ∧
    num_frames log2_int 4 (delta g) = Ok (Qfloor (to_Q Q)) ∧
    0 ≤ Qfloor (to_Q Q).
Proof.
  apply (animation_closed_form linspace_step pow_int log2_int
           (test_globals (round_quot 1 2)) 2 4 f2);
    first [reflexivity | discriminate | lia].
Defined.

(** Frame 2 from the bounds (-2, 1, -1.5, 1.5) with delta 0.5: the window
    is halved around its centre, -1.25 to 0.25 and -0.75 to 0.75, and the
    threshold grows by 50; a frame whose power is beyond the largest
    float raises OverflowError. *)
Example animate_view_test_b64 :
  animate_view pow_int (test_globals (round_quot 1 2)) 2 =
    Ok {| new_xmin := round_quot (-5) 4; new_xmax := round_quot 1 4;
          new_ymin := round_quot (-3) 4; new_ymax := round_quot 3 4;
          new_threshold := 120 |} ∧
  animate_view pow_int (test_globals (round_quot 1 2)) 2048
    = Raise OverflowError.
Proof. vm_compute. done. Qed.

End Animation64Facts.
